(** * liquid.js: the "liquid" particle background

    A shallow embedding of [src/liquid.js]: the palette registry, the colour
    helpers [hexToRgb] and [lerp], the [Particle] class ([reset], [pickColor],
    [update], [draw]), the pointer handlers, the frame function [animate] and
    the mood controller [setMood]; the script's start and its listeners as a
    run of events; and, of the file's second script, the navigation bar, the
    mobile menu and the highlight of the section in view.

    JavaScript numbers are IEEE 754 binary64 values.  The program is written
    once over an interface of number operations ([Arith]) and read at two
    instances: [float], Rocq's primitive binary64 numbers, which is what the
    script computes with, and [R], the exact reals, which is the arithmetic the
    algebraic properties of the design are about. *)

From Stdlib Require Import ZArith List String Ascii Bool Lia.
From Stdlib Require Import Reals Lra.
From Stdlib Require Import Floats.
Import ListNotations.

Set Implicit Arguments.
#[local] Set Warnings "-inexact-float".
#[local] Open Scope string_scope.
#[local] Open Scope list_scope.

(** ** Numbers *)

(** The operations of a JavaScript [Number] that the script uses.  [n_lt] is
    [<]; [a > b] is [n_lt b a]; [n_sqrt] is [Math.sqrt] and [n_pi] is
    [Math.PI].  [n_floor x] is [Math.floor(x)] as an integer, and [None] when
    [x] is [NaN] or infinite (no integer, and no array element at that key). *)
Class Arith (num : Type) : Type := {
  n_of_Z : Z -> num;
  n_pi : num;
  n_floor : num -> option Z;
  n_add : num -> num -> num;
  n_sub : num -> num -> num;
  n_mul : num -> num -> num;
  n_div : num -> num -> num;
  n_neg : num -> num;
  n_lt : num -> num -> bool;
  n_sqrt : num -> num
}.

(** [Math.cos], [Math.sin] and [Math.atan2] (arguments in the order of the
    call, [y] first).  ECMAScript leaves their binary64 results to the host
    (implementation-approximated), so at [float] they are a parameter. *)
Class Trig (num : Type) : Type := {
  n_cos : num -> num;
  n_sin : num -> num;
  n_atan2 : num -> num -> num
}.

Declare Scope num_scope.
Delimit Scope num_scope with num.
Notation "x + y" := (n_add x y) : num_scope.
Notation "x - y" := (n_sub x y) : num_scope.
Notation "x * y" := (n_mul x y) : num_scope.
Notation "x / y" := (n_div x y) : num_scope.
Notation "- x" := (n_neg x) : num_scope.
Notation "x <? y" := (n_lt x y) : num_scope.
Notation "x >? y" := (n_lt y x) : num_scope.

(** A decimal literal [n/d] of the source ([0.05] is [dec 5 100]): the number
    nearest to the quotient, which a correctly rounded division of two exact
    integers yields. *)
Definition dec {num} `{Arith num} (n d : Z) : num :=
  (n_of_Z n / n_of_Z d)%num.

(** *** binary64 *)

Definition float_of_Z (z : Z) : float :=
  SF2Prim (binary_normalize prec emax z 0 false).

(** The integer part, rounded down, of a binary64 value given by its sign,
    mantissa and exponent. *)
Definition sf_floor (x : spec_float) : option Z :=
  match x with
  | S754_zero _ => Some 0%Z
  | S754_finite s m e => Some (Z.shiftl (if s then Zneg m else Zpos m) e)
  | S754_infinity _ | S754_nan => None
  end.

Definition float_floor (x : float) : option Z := sf_floor (Prim2SF x).

#[export] Instance float_arith : Arith float := {
  n_of_Z := float_of_Z;
  n_pi := 0x1.921fb54442d18p+1%float;
  n_floor := float_floor;
  n_add := PrimFloat.add;
  n_sub := PrimFloat.sub;
  n_mul := PrimFloat.mul;
  n_div := PrimFloat.div;
  n_neg := PrimFloat.opp;
  n_lt := PrimFloat.ltb;
  n_sqrt := PrimFloat.sqrt
}.

(** A stand-in for the host's functions in closed evaluations: low-order
    polynomials.  It is no instance: it is passed by name, and only to
    evaluate results that do not depend on the trigonometric functions. *)
Definition poly_trig : Trig float := {|
  n_cos := fun a => (1 - a * a / 2)%float;
  n_sin := fun a => (a - a * a * a / 6)%float;
  n_atan2 := fun y x => (y / x)%float
|}.

(** *** Exact reals *)

Definition Rltb (a b : R) : bool := if Rlt_dec a b then true else false.

(** [Math.atan2(y, x)] over the reals: the angle of the point [(x, y)] in
    [(-PI, PI]], and [0] at the origin. *)
Definition Ratan2 (y x : R) : R :=
  if Rlt_dec 0 x then atan (y / x)
  else if Rlt_dec x 0 then
    if Rle_dec 0 y then (atan (y / x) + PI)%R else (atan (y / x) - PI)%R
  else if Rlt_dec 0 y then (PI / 2)%R
  else if Rlt_dec y 0 then (- (PI / 2))%R
  else 0%R.

#[export] Instance real_arith : Arith R := {
  n_of_Z := IZR;
  n_pi := PI;
  n_floor := fun x => Some (Int_part x);
  n_add := Rplus;
  n_sub := Rminus;
  n_mul := Rmult;
  n_div := Rdiv;
  n_neg := Ropp;
  n_lt := Rltb;
  n_sqrt := R_sqrt.sqrt
}.

#[export] Instance real_trig : Trig R := {
  n_cos := cos;
  n_sin := sin;
  n_atan2 := Ratan2
}.

(** ** Colour interpolation helper *)

Section Lerp.
Context {num : Type} `{Arith num}.

(** [function lerp(start, end, t) { return start * (1 - t) + end * t; }] *)
Definition lerp (start end_ t : num) : num :=
  (start * (n_of_Z 1 - t) + end_ * t)%num.

(** [const lerpSpeed = 0.05] *)
Definition lerpSpeed : num := dec 5 100.

(** One frame of easing of a channel toward its target, and [n] frames. *)
Definition ease_channel (target current : num) : num :=
  lerp current target lerpSpeed.

Fixpoint ease_frames (n : nat) (target current : num) : num :=
  match n with
  | O => current
  | S k => ease_frames k target (ease_channel target current)
  end.
End Lerp.

(** ** Hex to RGB helper *)

Record Rgb (num : Type) : Type := mkRgb { r : num; g : num; b : num }.
Arguments mkRgb {num} _ _ _.
Arguments r {num} _.
Arguments g {num} _.
Arguments b {num} _.

(** The character class [[a-f\d]] under the [i] flag: an ASCII digit or a
    letter [a]..[f] in either case. *)
Definition is_hex_digit (c : ascii) : bool :=
  let n := nat_of_ascii c in
  ((48 <=? n) && (n <=? 57) || (97 <=? n) && (n <=? 102)
   || (65 <=? n) && (n <=? 70))%nat.

(** The value of a hexadecimal digit, as [parseInt(_, 16)] reads it. *)
Definition hex_value (c : ascii) : Z :=
  let n := Z.of_nat (nat_of_ascii c) in
  if (n <=? 57)%Z then (n - 48)%Z
  else if (n <=? 70)%Z then (n - 55)%Z
  else (n - 87)%Z.

(** [parseInt(s, 16)] on a string of hexadecimal digits (the only strings the
    capture groups of [hexToRgb] hold). *)
Definition parseInt16 (s : list ascii) : Z :=
  fold_left (fun acc c => (16 * acc + hex_value c)%Z) s 0%Z.

(** The prefix [^#?] of both patterns: one leading [#] is skipped.  As [#] is
    no hexadecimal digit, the optional match is decided by the first
    character. *)
Definition skip_hash (s : string) : string :=
  match s with
  | String "#"%char rest => rest
  | _ => s
  end.

(** [/^#?([a-f\d])([a-f\d])([a-f\d])$/i]: the three captured digits. *)
Definition shorthandRegex (s : string) : option (ascii * ascii * ascii) :=
  match skip_hash s with
  | String c1 (String c2 (String c3 EmptyString)) =>
      if is_hex_digit c1 && is_hex_digit c2 && is_hex_digit c3
      then Some (c1, c2, c3) else None
  | _ => None
  end.

(** [/^#?([a-f\d]{2})([a-f\d]{2})([a-f\d]{2})$/i]: the three captured pairs. *)
Definition fullRegex (s : string)
  : option (list ascii * list ascii * list ascii) :=
  match skip_hash s with
  | String c1 (String c2 (String c3 (String c4 (String c5 (String c6
      EmptyString))))) =>
      if forallb is_hex_digit [c1; c2; c3; c4; c5; c6]
      then Some ([c1; c2], [c3; c4], [c5; c6]) else None
  | _ => None
  end.

(** [hex.replace(shorthandRegex, (m, r, g, b) => r + r + g + g + b + b)]: the
    pattern is anchored at both ends, so the whole string is replaced. *)
Definition expand_shorthand (hex : string) : string :=
  match shorthandRegex hex with
  | Some (c1, c2, c3) => string_of_list_ascii [c1; c1; c2; c2; c3; c3]
  | None => hex
  end.

Section HexToRgb.
Context {num : Type} `{Arith num}.

(** [function hexToRgb(hex)]: [None] is [null]. *)
Definition hexToRgb (hex : string) : option (Rgb num) :=
  match fullRegex (expand_shorthand hex) with
  | Some (rr, gg, bb) =>
      Some (mkRgb (n_of_Z (parseInt16 rr)) (n_of_Z (parseInt16 gg))
                  (n_of_Z (parseInt16 bb)))
  | None => None
  end.
End HexToRgb.

(** ** Palettes *)

Record Palette : Type := mkPalette {
  name : string;
  colors : list string;
  bg : string
}.

Definition joy : Palette :=
  mkPalette "Joy" ["#FFD166"; "#FFD166"; "#06D6A0"; "#118AB2"; "#EF476F"]
            "#1a1a00".
Definition serenity : Palette :=
  mkPalette "Serenity" ["#E0F7FA"; "#B2EBF2"; "#80DEEA"; "#4DD0E1"; "#26C6DA"]
            "#001a1a".
Definition energy : Palette :=
  mkPalette "Energy" ["#FF5733"; "#C70039"; "#900C3F"; "#FFC300"; "#FF5733"]
            "#1a0505".
Definition melancholy : Palette :=
  mkPalette "Melancholy"
            ["#2B2D42"; "#8D99AE"; "#EDF2F4"; "#EF233C"; "#D90429"] "#0a0a0f".
Definition mystery : Palette :=
  mkPalette "Mystery" ["#32004B"; "#5D008F"; "#8300D4"; "#B400FE"; "#E1ADFF"]
            "#0f0016".

(** [const PALETTES = { joy: ..., serenity: ..., ... }]: the own properties of
    the object literal, in source order. *)
Definition PALETTES : list (string * Palette) :=
  [("joy", joy); ("serenity", serenity); ("energy", energy);
   ("melancholy", melancholy); ("mystery", mystery)]%string.

(** [PALETTES] is a plain object, so a property read that finds no own
    property continues in [Object.prototype]: these are its property names,
    each holding a function or ([__proto__]) an object, all of them truthy and
    none of them with a [colors] or [bg] property. *)
Definition object_prototype_keys : list string :=
  ["constructor"; "__defineGetter__"; "__defineSetter__"; "hasOwnProperty";
   "__lookupGetter__"; "__lookupSetter__"; "isPrototypeOf";
   "propertyIsEnumerable"; "toString"; "valueOf"; "__proto__";
   "toLocaleString"]%string.

(** What [PALETTES[key]] evaluates to when it is not [undefined]. *)
Inductive PaletteRef : Type :=
| Own (p : Palette)
| Inherited (key : string).

Fixpoint own_property (ps : list (string * Palette)) (key : string)
  : option Palette :=
  match ps with
  | [] => None
  | (k, p) :: rest => if String.eqb k key then Some p else own_property rest key
  end.

(** [PALETTES[key]]; [None] is [undefined]. *)
Definition palette_get (key : string) : option PaletteRef :=
  match own_property PALETTES key with
  | Some p => Some (Own p)
  | None =>
      if existsb (String.eqb key) object_prototype_keys
      then Some (Inherited key) else None
  end.

(** [ref.colors] and [ref.bg]; [None] is [undefined]. *)
Definition ref_colors (ref : PaletteRef) : option (list string) :=
  match ref with
  | Own p => Some (colors p)
  | Inherited _ => None
  end.

Definition ref_bg (ref : PaletteRef) : option string :=
  match ref with
  | Own p => Some (bg p)
  | Inherited _ => None
  end.

(** ** State *)

(** A call either returns ([Ok], with the state it leaves and its value) or
    throws a [TypeError] ([Throw], with the state at the throw: what was
    assigned before it stays assigned). *)
Inductive result (S A : Type) : Type :=
| Ok (s : S) (a : A)
| Throw (s : S).
Arguments Ok {S A} _ _.
Arguments Throw {S A} _.

Section Simulation.
Context {num : Type} `{Arith num} `{Trig num}.

(** [random k] is the value the [k]-th call of [Math.random()] returns. *)
Variable random : nat -> num.

(** [let mouse = { x: 0, y: 0, isActive: false }] *)
Record Mouse : Type := mkMouse {
  m_x : num;
  m_y : num;
  m_isActive : bool
}.

(** The fields of a [Particle].  [None] in [p_targetRgb] is [null]; [None]
    in [p_currentRgb] is the empty object that cloning [null] yields: its
    channels read as [undefined], [lerp] turns them into [NaN], and either
    way [draw()] prints [NaN]. *)
Record Particle : Type := mkParticle {
  p_x : num;
  p_y : num;
  p_vx : num;
  p_vy : num;
  p_radius : num;
  p_baseRadius : num;
  p_targetRgb : option (Rgb num);
  p_currentRgb : option (Rgb num);
  p_angle : num;
  p_speed : num
}.

(** What one [draw()] paints: a disc at the particle's position in its
    current colour. *)
Record Disc : Type := mkDisc {
  d_x : num;
  d_y : num;
  d_radius : num;
  d_rgb : option (Rgb num)
}.

(** The module's variables, and what it writes of the page:
    [w_background] is [document.body.style.backgroundColor], [w_swatches]
    the colour each swatch shows, [w_canvas] the discs painted since the
    last clear, [w_draws] the number of calls of [Math.random()] so far. *)
Record World : Type := mkWorld {
  w_width : num;
  w_height : num;
  w_mouse : Mouse;
  w_targetMouse : num * num;
  w_particles : list Particle;
  w_currentPalette : PaletteRef;
  w_background : string;
  w_swatches : list (option string);
  w_canvas : list Disc;
  w_draws : nat
}.

Definition with_mouse (w : World) (m : Mouse) : World :=
  mkWorld (w_width w) (w_height w) m (w_targetMouse w) (w_particles w)
          (w_currentPalette w) (w_background w) (w_swatches w) (w_canvas w)
          (w_draws w).
Definition with_targetMouse (w : World) (t : num * num) : World :=
  mkWorld (w_width w) (w_height w) (w_mouse w) t (w_particles w)
          (w_currentPalette w) (w_background w) (w_swatches w) (w_canvas w)
          (w_draws w).
Definition with_size (w : World) (wd ht : num) : World :=
  mkWorld wd ht (w_mouse w) (w_targetMouse w) (w_particles w)
          (w_currentPalette w) (w_background w) (w_swatches w) (w_canvas w)
          (w_draws w).
Definition with_particles (w : World) (ps : list Particle) : World :=
  mkWorld (w_width w) (w_height w) (w_mouse w) (w_targetMouse w) ps
          (w_currentPalette w) (w_background w) (w_swatches w) (w_canvas w)
          (w_draws w).
Definition with_palette (w : World) (ref : PaletteRef) : World :=
  mkWorld (w_width w) (w_height w) (w_mouse w) (w_targetMouse w)
          (w_particles w) ref (w_background w) (w_swatches w) (w_canvas w)
          (w_draws w).
Definition with_background (w : World) (c : string) : World :=
  mkWorld (w_width w) (w_height w) (w_mouse w) (w_targetMouse w)
          (w_particles w) (w_currentPalette w) c (w_swatches w) (w_canvas w)
          (w_draws w).
Definition with_swatches (w : World) (sw : list (option string)) : World :=
  mkWorld (w_width w) (w_height w) (w_mouse w) (w_targetMouse w)
          (w_particles w) (w_currentPalette w) (w_background w) sw
          (w_canvas w) (w_draws w).
Definition with_canvas (w : World) (cv : list Disc) : World :=
  mkWorld (w_width w) (w_height w) (w_mouse w) (w_targetMouse w)
          (w_particles w) (w_currentPalette w) (w_background w)
          (w_swatches w) cv (w_draws w).
Definition with_draws (w : World) (n : nat) : World :=
  mkWorld (w_width w) (w_height w) (w_mouse w) (w_targetMouse w)
          (w_particles w) (w_currentPalette w) (w_background w)
          (w_swatches w) (w_canvas w) n.

Definition with_pos (p : Particle) (x y : num) : Particle :=
  mkParticle x y (p_vx p) (p_vy p) (p_radius p) (p_baseRadius p)
             (p_targetRgb p) (p_currentRgb p) (p_angle p) (p_speed p).
Definition with_vel (p : Particle) (vx vy : num) : Particle :=
  mkParticle (p_x p) (p_y p) vx vy (p_radius p) (p_baseRadius p)
             (p_targetRgb p) (p_currentRgb p) (p_angle p) (p_speed p).
Definition with_radius (p : Particle) (rad : num) : Particle :=
  mkParticle (p_x p) (p_y p) (p_vx p) (p_vy p) rad (p_baseRadius p)
             (p_targetRgb p) (p_currentRgb p) (p_angle p) (p_speed p).
Definition with_targetRgb (p : Particle) (c : option (Rgb num)) : Particle :=
  mkParticle (p_x p) (p_y p) (p_vx p) (p_vy p) (p_radius p) (p_baseRadius p)
             c (p_currentRgb p) (p_angle p) (p_speed p).
Definition with_currentRgb (p : Particle) (c : option (Rgb num)) : Particle :=
  mkParticle (p_x p) (p_y p) (p_vx p) (p_vy p) (p_radius p) (p_baseRadius p)
             (p_targetRgb p) c (p_angle p) (p_speed p).
Definition with_angle (p : Particle) (a : num) : Particle :=
  mkParticle (p_x p) (p_y p) (p_vx p) (p_vy p) (p_radius p) (p_baseRadius p)
             (p_targetRgb p) (p_currentRgb p) a (p_speed p).

(** *** Setup and input handling *)

(** [resize()], with the window's inner size; assigning a canvas's size
    clears it. *)
Definition resize (innerWidth innerHeight : num) (w : World) : World :=
  with_canvas (with_size w innerWidth innerHeight) [].

(** The [mousemove] and [touchstart] listeners, with the event's (first
    touch's) client position. *)
Definition on_pointer (clientX clientY : num) (w : World) : World :=
  with_mouse (with_targetMouse w (clientX, clientY))
             (mkMouse (m_x (w_mouse w)) (m_y (w_mouse w)) true).

(** The [touchend] listener. *)
Definition on_touchend (w : World) : World :=
  with_mouse w (mkMouse (m_x (w_mouse w)) (m_y (w_mouse w)) false).

(** *** Particle *)

(** [xs[Math.floor(k)]] for a number [k]: the element at an integer index
    inside the array, [undefined] ([None]) otherwise. *)
Definition array_get {A : Type} (xs : list A) (k : num) : option A :=
  match n_floor k with
  | Some i => if (0 <=? i)%Z then nth_error xs (Z.to_nat i) else None
  | None => None
  end.

(** [pickColor()]: [Math.random()] is called, then [colors.length] is read,
    which throws when the current palette has no [colors]. *)
Definition pickColor (w : World) : result World (option string) :=
  let u := random (w_draws w) in
  let w1 := with_draws w (S (w_draws w)) in
  match ref_colors (w_currentPalette w) with
  | None => Throw w1
  | Some cs =>
      Ok w1 (array_get cs (u * n_of_Z (Z.of_nat (List.length cs)))%num)
  end.

(** [hexToRgb(hex)] on what [pickColor()] returned: [hex.replace] throws on
    [undefined]. *)
Definition hexToRgb_of (w : World) (hex : option string)
  : result World (option (Rgb num)) :=
  match hex with
  | Some h => Ok w (hexToRgb h)
  | None => Throw w
  end.

(** [new Particle()], that is [reset(true)] on a fresh object: the values
    of [Math.random()] are consumed in the order of the assignments. *)
Definition reset (w : World) : result World Particle :=
  let k := w_draws w in
  let x := (random k * w_width w)%num in
  let y := (random (1 + k) * w_height w)%num in
  let vx := ((random (2 + k) - dec 5 10) * dec 15 10)%num in
  let vy := ((random (3 + k) - dec 5 10) * dec 15 10)%num in
  let rad := (random (4 + k) * n_of_Z 50 + n_of_Z 30)%num in
  match pickColor (with_draws w (5 + k)) with
  | Throw w1 => Throw w1
  | Ok w1 hex =>
      match hexToRgb_of w1 hex with
      | Throw w2 => Throw w2
      | Ok w2 target =>
          let k2 := w_draws w2 in
          let ang := (random k2 * n_pi * n_of_Z 2)%num in
          let spd := (random (1 + k2) * dec 1 100 + dec 5 1000)%num in
          Ok (with_draws w2 (2 + k2))
             (mkParticle x y vx vy rad rad target target ang spd)
      end
  end.

(** The colour transition of [update()]: [this.targetRgb.r] throws when the
    target is [null], before anything is assigned. *)
Definition ease_rgb (target current : Rgb num) : Rgb num :=
  mkRgb (lerp (r current) (r target) lerpSpeed)
        (lerp (g current) (g target) lerpSpeed)
        (lerp (b current) (b target) lerpSpeed).

Definition color_step (p : Particle) : option Particle :=
  match p_targetRgb p with
  | None => None
  | Some t => Some (with_currentRgb p (option_map (ease_rgb t) (p_currentRgb p)))
  end.

(** [this.angle += this.speed; this.vx += Math.cos(this.angle) * 0.02; ...] *)
Definition float_step (p : Particle) : Particle :=
  let a := (p_angle p + p_speed p)%num in
  with_vel (with_angle p a)
           (p_vx p + n_cos a * dec 2 100)%num
           (p_vy p + n_sin a * dec 2 100)%num.

(** [this.vx *= 0.98; this.vy *= 0.98] *)
Definition friction_step (p : Particle) : Particle :=
  with_vel p (p_vx p * dec 98 100)%num (p_vy p * dec 98 100)%num.

(** [this.x += this.vx; this.y += this.vy] *)
Definition move_step (p : Particle) : Particle :=
  with_pos p (p_x p + p_vx p)%num (p_y p + p_vy p)%num.

(** [mouse.x += (targetMouse.x - mouse.x) * 0.1; mouse.y += ...] *)
Definition ease_mouse (t : num * num) (m : Mouse) : Mouse :=
  mkMouse (m_x m + (fst t - m_x m) * dec 1 10)%num
          (m_y m + (snd t - m_y m) * dec 1 10)%num
          (m_isActive m).

(** [const forceRadius = 300] *)
Definition forceRadius : num := n_of_Z 300.

(** [Math.sqrt(dx * dx + dy * dy)] with [dx = mouse.x - this.x] and
    [dy = mouse.y - this.y]. *)
Definition pointer_distance (m : Mouse) (p : Particle) : num :=
  let dx := (m_x m - p_x p)%num in
  let dy := (m_y m - p_y p)%num in
  n_sqrt (dx * dx + dy * dy)%num.

(** The repulsion of [update()], reading the pointer [m]. *)
Definition repel_step (m : Mouse) (p : Particle) : Particle :=
  if m_isActive m then
    let dx := (m_x m - p_x p)%num in
    let dy := (m_y m - p_y p)%num in
    let distance := pointer_distance m p in
    if (distance <? forceRadius)%num then
      let force := ((forceRadius - distance) / forceRadius)%num in
      let a := n_atan2 dy dx in
      with_vel p (p_vx p - n_cos a * force * n_of_Z 1)%num
                 (p_vy p - n_sin a * force * n_of_Z 1)%num
    else p
  else p.

(** [this.radius += (this.baseRadius - this.radius) * 0.05] *)
Definition radius_step (p : Particle) : Particle :=
  with_radius p (p_radius p + (p_baseRadius p - p_radius p) * dec 5 100)%num.

(** The four boundary tests, in the order of the source. *)
Definition wrap_step (width height : num) (p : Particle) : Particle :=
  let buffer := (p_radius p * n_of_Z 2)%num in
  let x1 := if (p_x p <? - buffer)%num then (width + buffer)%num else p_x p in
  let x2 := if (x1 >? width + buffer)%num then (- buffer)%num else x1 in
  let y1 := if (p_y p <? - buffer)%num then (height + buffer)%num else p_y p in
  let y2 := if (y1 >? height + buffer)%num then (- buffer)%num else y1 in
  with_pos p x2 y2.

(** The particle as it is when [update()] reaches the pointer code. *)
Definition before_mouse (p : Particle) : option Particle :=
  option_map (fun q => move_step (friction_step (float_step q)))
             (color_step p).

(** [update()]: the particle's own steps, the easing of the shared pointer,
    and the steps that read it. *)
Definition update (w : World) (p : Particle) : result World Particle :=
  match before_mouse p with
  | None => Throw w
  | Some q =>
      let m := ease_mouse (w_targetMouse w) (w_mouse w) in
      Ok (with_mouse w m)
         (wrap_step (w_width w) (w_height w)
                    (radius_step (repel_step m q)))
  end.

(** [draw()] *)
Definition draw (w : World) (p : Particle) : World :=
  with_canvas w
    (w_canvas w ++ [mkDisc (p_x p) (p_y p) (p_radius p) (p_currentRgb p)]).

(** [initParticles()] *)
Definition PARTICLE_COUNT : nat := 150.

Fixpoint push_particles (n : nat) (w : World) : result World unit :=
  match n with
  | O => Ok w tt
  | S k =>
      match reset w with
      | Throw w1 => Throw w1
      | Ok w1 p =>
          push_particles k (with_particles w1 (w_particles w1 ++ [p]))
      end
  end.

Definition initParticles (w : World) : result World unit :=
  push_particles PARTICLE_COUNT (with_particles w []).

(** *** Animation loop *)

(** [particles.forEach((p) => { p.update(); p.draw(); })] over the
    particles still to visit; the list in the result is the pool from the
    visited position on, as the loop left it. *)
Fixpoint update_and_draw (w : World) (ps : list Particle)
  : result (World * list Particle) unit :=
  match ps with
  | [] => Ok (w, []) tt
  | p :: rest =>
      match update w p with
      | Throw w1 => Throw (w1, p :: rest)
      | Ok w1 p1 =>
          match update_and_draw (draw w1 p1) rest with
          | Ok (w2, rest') _ => Ok (w2, p1 :: rest') tt
          | Throw (w2, rest') => Throw (w2, p1 :: rest')
          end
      end
  end.

(** [animate()]: one frame.  [requestAnimationFrame(animate)] then has the
    host call it again. *)
Definition animate (w : World) : result World unit :=
  match update_and_draw (with_canvas w []) (w_particles w) with
  | Ok (w1, ps) _ => Ok (with_particles w1 ps) tt
  | Throw (w1, ps) => Throw (with_particles w1 ps)
  end.

(** *** Mood controller *)

(** [particles.forEach((p) => { p.targetRgb = hexToRgb(p.pickColor()); })] *)
Fixpoint recolor (w : World) (ps : list Particle)
  : result (World * list Particle) unit :=
  match ps with
  | [] => Ok (w, []) tt
  | p :: rest =>
      match pickColor w with
      | Throw w1 => Throw (w1, p :: rest)
      | Ok w1 newHex =>
          match hexToRgb_of w1 newHex with
          | Throw w2 => Throw (w2, p :: rest)
          | Ok w2 c =>
              match recolor w2 rest with
              | Ok (w3, rest') _ => Ok (w3, with_targetRgb p c :: rest') tt
              | Throw (w3, rest') => Throw (w3, with_targetRgb p c :: rest')
              end
          end
      end
  end.

(** [swatches.forEach((swatch, index) => { const color =
    currentPalette.colors[index % currentPalette.colors.length]; ... })]:
    reading [colors.length] throws at the first swatch when the palette
    has no [colors]. *)
Definition show_palette (w : World) : result World unit :=
  match w_swatches w with
  | [] => Ok w tt
  | _ :: _ =>
      match ref_colors (w_currentPalette w) with
      | None => Throw w
      | Some cs =>
          Ok (with_swatches w
                (map (fun i => nth_error cs (i mod List.length cs))
                     (seq 0 (List.length (w_swatches w))))) tt
      end
  end.

(** [setMood(moodKey)].  Assigning [undefined] to the style property
    leaves the background as it is. *)
Definition setMood (moodKey : string) (w : World) : result World unit :=
  match palette_get moodKey with
  | None => Ok w tt
  | Some ref =>
      let w1 := with_palette w ref in
      let w2 := match ref_bg ref with
                | Some c => with_background w1 c
                | None => w1
                end in
      match recolor w2 (w_particles w2) with
      | Throw (w3, ps) => Throw (with_particles w3 ps)
      | Ok (w3, ps) _ => show_palette (with_particles w3 ps)
      end
  end.
End Simulation.

Arguments Mouse : clear implicits.
Arguments Particle : clear implicits.
Arguments Disc : clear implicits.
Arguments World : clear implicits.

(** ** The page's events *)

Section Session.
Context {num : Type} `{Arith num} `{Trig num}.
Variable random : nat -> num.

(** What the script reacts to once it has started: the window's [resize],
    [mousemove], [touchstart] (with the position of the first touch) and
    [touchend]; a click on a mood button, with what
    [btn.getAttribute("data-mood")] returns ([None] is [null]); and the
    frame callback that [requestAnimationFrame(animate)] scheduled. *)
Inductive Event : Type :=
| Resize (innerWidth innerHeight : num)
| MouseMove (clientX clientY : num)
| TouchStart (clientX clientY : num)
| TouchEnd
| MoodClick (mood : option string)
| Frame.

(** [PALETTES[moodKey]] turns its key into a string: [null] reads the
    property ["null"]. *)
Definition mood_key (mood : option string) : string :=
  match mood with
  | Some key => key
  | None => "null"
  end.

(** The listener of an event, run on the state. *)
Definition dispatch (e : Event) (w : World num) : result (World num) unit :=
  match e with
  | Resize innerWidth innerHeight => Ok (resize innerWidth innerHeight w) tt
  | MouseMove clientX clientY => Ok (on_pointer clientX clientY w) tt
  | TouchStart clientX clientY => Ok (on_pointer clientX clientY w) tt
  | TouchEnd => Ok (on_touchend w) tt
  | MoodClick mood => setMood random (mood_key mood) w
  | Frame => animate w
  end.

(** The running page: the script's state, whether a frame is scheduled, and
    the number of exceptions that left a listener uncaught. *)
Record Session : Type := mkSession {
  s_world : World num;
  s_running : bool;
  s_errors : nat
}.

(** One event.  An exception ends the listener that threw it and leaves the
    state as it was at the throw; [animate] schedules the next frame in its
    last statement, so a frame that throws schedules none, and no frame
    comes when none is scheduled. *)
Definition step (s : Session) (e : Event) : Session :=
  match e with
  | Frame =>
      if s_running s then
        match animate (s_world s) with
        | Ok w _ => mkSession w true (s_errors s)
        | Throw w => mkSession w false (S (s_errors s))
        end
      else s
  | _ =>
      match dispatch e (s_world s) with
      | Ok w _ => mkSession w (s_running s) (s_errors s)
      | Throw w => mkSession w (s_running s) (S (s_errors s))
      end
  end.

Definition run (es : list Event) (s : Session) : Session :=
  fold_left step es s.

(** The script from top to bottom, on the module's variables as their
    declarations leave them: [resize()], then [initParticles();
    setMood("joy"); animate();].  An exception ends the script there. *)
Definition boot (innerWidth innerHeight : num) (w : World num) : Session :=
  match initParticles random (resize innerWidth innerHeight w) with
  | Throw w1 => mkSession w1 false 1
  | Ok w1 _ =>
      match setMood random "joy" w1 with
      | Throw w2 => mkSession w2 false 1
      | Ok w2 _ =>
          match animate w2 with
          | Throw w3 => mkSession w3 false 1
          | Ok w3 _ => mkSession w3 true 0
          end
      end
  end.
End Session.

Arguments Event : clear implicits.
Arguments Session : clear implicits.

(** ** The page chrome

    The second script of the file: the navigation bar on scroll, the mobile
    menu, and the highlight of the section in view.  Of a class list the
    model keeps whether it holds the one class the script adds to it and
    removes from it. *)

(** [navbar] has class [scrolled]; [backToTopBtn] has class [visible];
    [hamburger] and [navLinks] have class [active];
    [document.body.style.overflow]. *)
Record Chrome : Type := mkChrome {
  navbar_scrolled : bool;
  backToTop_visible : bool;
  hamburger_active : bool;
  navLinks_active : bool;
  body_overflow : string
}.

(** The first [scroll] listener, with [window.scrollY]: [scrollY > 50] and
    [scrollY > 300] decide the two classes. *)
Definition on_scroll (scrollY : float) (c : Chrome) : Chrome :=
  mkChrome (50 <? scrollY)%float (300 <? scrollY)%float
           (hamburger_active c) (navLinks_active c) (body_overflow c).

(** The [click] listener of the hamburger: both class lists toggle
    [active], and the body's overflow follows the menu. *)
Definition on_hamburger_click (c : Chrome) : Chrome :=
  let menu_open := negb (navLinks_active c) in
  mkChrome (navbar_scrolled c) (backToTop_visible c)
           (negb (hamburger_active c)) menu_open
           (if menu_open then "hidden" else "").

(** The [click] listener of a link of the menu. *)
Definition on_nav_link_click (c : Chrome) : Chrome :=
  mkChrome (navbar_scrolled c) (backToTop_visible c) false false "".

Inductive ChromeEvent : Type :=
| Scroll (scrollY : float)
| HamburgerClick
| NavLinkClick.

Definition chrome_step (c : Chrome) (e : ChromeEvent) : Chrome :=
  match e with
  | Scroll scrollY => on_scroll scrollY c
  | HamburgerClick => on_hamburger_click c
  | NavLinkClick => on_nav_link_click c
  end.

Definition chrome_run (es : list ChromeEvent) (c : Chrome) : Chrome :=
  fold_left chrome_step es c.

(** A [section[id]] element: its [id], [offsetTop] and [offsetHeight]. *)
Record PageSection : Type := mkPageSection {
  sec_id : string;
  sec_offsetTop : float;
  sec_offsetHeight : float
}.

(** [pageYOffset >= sectionTop && pageYOffset < sectionTop + sectionHeight]
    with [sectionTop = section.offsetTop - 100]. *)
Definition section_holds (pageYOffset : float) (s : PageSection) : bool :=
  let sectionTop := (sec_offsetTop s - 100)%float in
  ((sectionTop <=? pageYOffset)
   && (pageYOffset <? sectionTop + sec_offsetHeight s))%float.

(** [let current = ''; sections.forEach((section) => { if (...) current =
    `#${section.id}`; })] *)
Definition current_section (pageYOffset : float) (sections : list PageSection)
  : string :=
  fold_left (fun current s =>
               if section_holds pageYOffset s then String "#" (sec_id s)
               else current)
            sections "".

(** A link of the menu: what [getAttribute('href')] returns ([None] is
    [null]) and whether it has class [active]. *)
Record NavLink : Type := mkNavLink {
  link_href : option string;
  link_active : bool
}.

(** The second [scroll] listener: every link loses [active], and gets it
    back if its [href] is [=== current]. *)
Definition highlight (pageYOffset : float) (sections : list PageSection)
           (links : list NavLink) : list NavLink :=
  let current := current_section pageYOffset sections in
  map (fun l =>
         mkNavLink (link_href l)
                   (match link_href l with
                    | Some h => String.eqb h current
                    | None => false
                    end))
      links.

(** * Vocabulary of the properties *)

(** ** Well-formed colour strings *)

(** The strings the specification calls well formed: exactly 3 or exactly 6
    hexadecimal digits, after an optional leading [#]. *)
Definition hex_digits_3_or_6 (s : string) : bool :=
  let ds := list_ascii_of_string s in
  forallb is_hex_digit ds
  && ((List.length ds =? 3)%nat || (List.length ds =? 6)%nat).

Definition is_hex_color (s : string) : bool :=
  hex_digits_3_or_6 s
  || match s with
     | String c rest => Ascii.eqb c "#" && hex_digits_3_or_6 rest
     | EmptyString => false
     end.

(** A [#] followed by exactly six hexadecimal digits. *)
Definition is_six_digit_hex (s : string) : bool :=
  match s with
  | String c rest =>
      Ascii.eqb c "#"
      && forallb is_hex_digit (list_ascii_of_string rest)
      && (String.length rest =? 6)%nat
  | EmptyString => false
  end.

(** The colour strings of a palette: its background and its colours. *)
Definition palette_strings (p : Palette) : list string := bg p :: colors p.

(** ** States *)

(** A palette reference the program can hold: what some [PALETTES[key]]
    evaluates to ([PALETTES.joy] initially). *)
Definition installed (ref : PaletteRef) : Prop :=
  exists key, palette_get key = Some ref.

(** The state a call leaves, however it ends. *)
Definition state_of {S A : Type} (res : result S A) : S :=
  match res with
  | Ok s _ => s
  | Throw s => s
  end.

(** The particle's target colour is not [null]. *)
Definition non_null {num : Type} (p : Particle num) : Prop :=
  exists rgb, p_targetRgb p = Some rgb.

(** What the recolouring loop does to a particle it reaches: the target
    colour is replaced by the conversion of a colour of the list, and
    nothing else. *)
Definition retargeted {num : Type} `{Arith num} (cs : list string)
           (p p' : Particle num) : Prop :=
  exists c, In c cs /\ p' = with_targetRgb p (hexToRgb c).

(** The steps of [update()] that follow its easing of the pointer, run on
    the pointer [m]: the repulsion, which is the step that reads the
    pointer, then the radius and the boundary tests.  [update w p] is
    [after_easing] on the pointer it has just eased and on the particle
    [before_mouse] leaves. *)
Definition after_easing {num : Type} `{Arith num} `{Trig num}
           (width height : num) (m : Mouse num) (q : Particle num)
  : Particle num :=
  wrap_step width height (radius_step (repel_step m q)).

(** [n] easing steps of the pointer toward the raw target [t]. *)
Fixpoint ease_mouse_times {num : Type} `{Arith num}
         (n : nat) (t : num * num) (m : Mouse num) : Mouse num :=
  match n with
  | O => m
  | S k => ease_mouse_times k t (ease_mouse t m)
  end.

(** [n] frames of the colour easing, channel by channel. *)
Definition ease_rgb_frames {num : Type} `{Arith num}
           (n : nat) (target current : Rgb num) : Rgb num :=
  mkRgb (ease_frames n (r target) (r current))
        (ease_frames n (g target) (g current))
        (ease_frames n (b target) (b current)).


(** ** binary64 values *)

Definition sf_one : spec_float := S754_finite false 4503599627370496 (-52).
Definition sf_five : spec_float := S754_finite false 5629499534213120 (-50).

(** [0 <= x], on the representation. *)
Definition sf_nonneg (x : spec_float) : bool := SFleb (S754_zero false) x.

(** [Number.isFinite(x)] *)
Definition is_finite_number (x : float) : bool :=
  match Prim2SF x with
  | S754_zero _ | S754_finite _ _ _ => true
  | S754_infinity _ | S754_nan => false
  end.

(** Draws as [Math.random()] yields them: in [[0, 1)]. *)
Definition unit_draws (random : nat -> float) : Prop :=
  forall k, (0 <=? random k)%float = true /\ (random k <? 1)%float = true.

(** The 8-bit channel values. *)
Definition channel_values : list Z := map Z.of_nat (seq 0 256).

(** ** A page to evaluate on *)

(** A sequence of draws in [[0, 1)]. *)
Definition demo_random (k : nat) : float :=
  if Nat.even k then 0.25%float else 0.75%float.

(** The page before the script runs: an 800 by 600 window, five swatches. *)
Definition page : World float :=
  mkWorld 800%float 600%float (mkMouse 0 0 false)%float (0, 0)%float []
          (Own joy) "" [None; None; None; None; None] [] 0.

(** Two particles, and the pointer moved to (100, 50). *)
Definition two_blobs : World float :=
  on_pointer 100%float 50%float (state_of (push_particles demo_random 2 page)).

(** The same two particles, which sit together near (200, 450), with the
    smoothed pointer at (150, 400), active, and the raw target at
    (250, 500): within the interaction radius of both. *)
Definition near_blobs : World float :=
  with_mouse (on_pointer 250%float 500%float two_blobs)
             (mkMouse 150%float 400%float true).

(** The script's start: [resize(); initParticles(); setMood("joy")]. *)
Definition started : World float :=
  state_of (setMood demo_random "joy"
              (state_of (initParticles demo_random
                                       (resize 800%float 600%float page)))).

(** A particle that drifts past the right edge of the page. *)
Definition blob_past_right : Particle float :=
  (mkParticle 900 300 1 0 40 40 (Some (mkRgb 6 214 160))
              (Some (mkRgb 6 214 160)) 0 0.01)%float.

(** Over the reals: a pointer at (3, 4) and a particle at rest at the
    origin, 5 apart. *)
Definition pointer_3_4 : Mouse R := mkMouse 3%R 4%R true.
Definition blob_at_origin : Particle R :=
  mkParticle 0%R 0%R 0%R 0%R 40%R 40%R None None 0%R 0%R.

(** The same pointer and particle in binary64, and a host's trigonometry
    there: the repulsion of this particle calls [Math.atan2(4, 3)] and then
    [Math.cos] and [Math.sin] of the result, and nothing else; the three
    values are the correctly rounded ones (atan2(4, 3) = 0.92729521800161223...,
    whose cosine is 0.60000000000000003... and whose sine is
    0.79999999999999997...). *)
Definition pointer_3_4_b64 : Mouse float := mkMouse 3%float 4%float true.
Definition blob_at_origin_b64 : Particle float :=
  (mkParticle 0 0 0 0 40 40 None None 0 0)%float.
Definition host_trig_3_4 : Trig float :=
  {| n_cos := fun _ => 0x1.3333333333334p-1%float;
     n_sin := fun _ => 0x1.9999999999999p-1%float;
     n_atan2 := fun _ _ => 0x1.dac670561bb4fp-1%float |}.

(** ** Colour strings, again *)

(** Letter case of the ASCII letters: [a]..[z] to upper case, [A]..[Z] to
    lower case, every other character as it is. *)
Definition ascii_upper (c : ascii) : ascii :=
  let n := nat_of_ascii c in
  if ((97 <=? n) && (n <=? 122))%nat then ascii_of_nat (n - 32) else c.

Definition ascii_lower (c : ascii) : ascii :=
  let n := nat_of_ascii c in
  if ((65 <=? n) && (n <=? 90))%nat then ascii_of_nat (n + 32) else c.

Fixpoint string_map (f : ascii -> ascii) (s : string) : string :=
  match s with
  | EmptyString => EmptyString
  | String c rest => String (f c) (string_map f rest)
  end.

Definition upper_case : string -> string := string_map ascii_upper.
Definition lower_case : string -> string := string_map ascii_lower.

(** The six digits a colour string denotes, in upper case: the string
    after shorthand expansion, without its [#]. *)
Definition hex_digits_of (s : string) : string :=
  upper_case (skip_hash (expand_shorthand s)).

(** The upper-case hexadecimal digit of a value. *)
Definition hex_digit_of (v : Z) : ascii :=
  nth (Z.to_nat v) (list_ascii_of_string "0123456789ABCDEF") "0"%char.

(** ** Frames and the pool *)

(** What [draw()] paints for a particle. *)
Definition disc_of {num : Type} (p : Particle num) : Disc num :=
  mkDisc (p_x p) (p_y p) (p_radius p) (p_currentRgb p).

(** What no frame changes of a particle. *)
Definition keeps_identity {num : Type} (p p' : Particle num) : Prop :=
  p_targetRgb p' = p_targetRgb p
  /\ p_baseRadius p' = p_baseRadius p
  /\ p_speed p' = p_speed p.

(** The radius fields of [p'] are those of [p]. *)
Definition same_radius {num : Type} (p p' : Particle num) : Prop :=
  p_radius p' = p_radius p /\ p_baseRadius p' = p_baseRadius p.

(** A particle as [reset()] makes it on a palette with colours [cs]. *)
Definition newborn {num : Type} `{Arith num} (cs : list string)
           (p : Particle num) : Prop :=
  (exists c rgb, In c cs /\ hexToRgb c = Some rgb
                 /\ p_targetRgb p = Some rgb /\ p_currentRgb p = Some rgb)
  /\ p_baseRadius p = p_radius p.

(** A particle whose target colour is [null]. *)
Definition blob_null_target : Particle float :=
  (mkParticle 100 100 0 0 40 40 None None 0 0.01)%float.

(** ** binary64 values, again *)

(** [Object.is(x, -0)] *)
Definition is_negative_zero (x : float) : bool :=
  match Prim2SF x with
  | S754_zero true => true
  | _ => false
  end.

(** A number that is finite and not [-0]: every integer and every fraction
    an event or [Math.random()] yields. *)
Definition is_plain_number (x : float) : bool :=
  is_finite_number x && negb (is_negative_zero x).

(** The constants of the radius [Math.random() * 50 + 30], and the
    threshold 300 of the back-to-top button. *)
Definition sf_fifty : spec_float := S754_finite false 7036874417766400 (-47).
Definition sf_thirty : spec_float := S754_finite false 8444249301319680 (-48).
Definition sf_300 : spec_float := S754_finite false 5277655813324800 (-44).

(** The radius of a particle as [reset()] leaves it: equal to the base
    radius, finite and non-negative. *)
Definition radius_at_base (p : Particle float) : Prop :=
  p_baseRadius p = p_radius p
  /\ is_plain_number (p_radius p) = true
  /\ (0 <=? p_radius p)%float = true.

(** None of the four boundary tests of [update()] fires on [p] for a page
    of the given size. *)
Definition in_padded_page (width height : float) (p : Particle float)
  : Prop :=
  let buffer := (p_radius p * 2)%float in
  (p_x p <? - buffer)%float = false
  /\ (width + buffer <? p_x p)%float = false
  /\ (p_y p <? - buffer)%float = false
  /\ (height + buffer <? p_y p)%float = false.

(** ** Runs of events *)

(** The pool as every listener finds and leaves it: a frame is scheduled,
    no target colour is [null], and there are [n] particles. *)
Definition pool_alive {num : Type} (n : nat) (s : Session num) : Prop :=
  s_running s = true
  /\ Forall non_null (w_particles (s_world s))
  /\ List.length (w_particles (s_world s)) = n.

(** A mood key that [PALETTES] only inherits. *)
Definition inherited_key (key : string) : bool :=
  match palette_get key with
  | Some (Inherited _) => true
  | _ => false
  end.

(** An event that is no click on a button whose mood is an inherited key. *)
Definition plain_event {num : Type} (e : Event num) : Prop :=
  match e with
  | MoodClick mood => inherited_key (mood_key mood) = false
  | _ => True
  end.

(** Whether the pointer is active, and the raw target, after the events:
    what the listeners of [mousemove], [touchstart] and [touchend] assign,
    in order. *)
Fixpoint pointer_after {num : Type} (es : list (Event num))
         (active : bool) (target : num * num) : bool * (num * num) :=
  match es with
  | [] => (active, target)
  | MouseMove x y :: rest => pointer_after rest true (x, y)
  | TouchStart x y :: rest => pointer_after rest true (x, y)
  | TouchEnd :: rest => pointer_after rest false target
  | _ :: rest => pointer_after rest active target
  end.

(** The current palette and the page background after the events: what
    the clicks assign whose key [PALETTES[key]] finds, in order; a palette
    reference without [bg] leaves the background. *)
Fixpoint mood_after {num : Type} (es : list (Event num))
         (ref : PaletteRef) (background : string) : PaletteRef * string :=
  match es with
  | [] => (ref, background)
  | MoodClick mood :: rest =>
      match palette_get (mood_key mood) with
      | Some ref' =>
          mood_after rest ref'
                     (match ref_bg ref' with
                      | Some c => c
                      | None => background
                      end)
      | None => mood_after rest ref background
      end
  | _ :: rest => mood_after rest ref background
  end.

(** ** A pool over the reals *)

Definition blob_teal : Particle R :=
  mkParticle 0%R 0%R (1 / 2)%R 0%R 40%R 40%R
             (Some (mkRgb 6%R 214%R 160%R)) (Some (mkRgb 6%R 214%R 160%R))
             0%R (1 / 100)%R.

(** Two particles, the smoothed pointer at the origin and the raw target at
    (100, 50). *)
Definition calm_page : World R :=
  mkWorld 800%R 600%R (mkMouse 0%R 0%R true) (100%R, 50%R)
          [blob_teal; blob_teal] (Own joy) "" [] [] 0.

(** ** The page chrome: its states *)

(** The body's overflow follows the menu, and the two [active] classes go
    together. *)
Definition menu_consistent (c : Chrome) : Prop :=
  body_overflow c = (if navLinks_active c then "hidden" else "")
  /\ hamburger_active c = navLinks_active c.

(** The back-to-top button shows only under a scrolled navigation bar. *)
Definition scroll_consistent (c : Chrome) : Prop :=
  backToTop_visible c = true -> navbar_scrolled c = true.

(** Three stacked sections of a page and the links to them. *)
Definition demo_sections : list PageSection :=
  [mkPageSection "home" 0 700; mkPageSection "about" 700 500;
   mkPageSection "contact" 1200 400]%float.

Definition demo_links : list NavLink :=
  [mkNavLink (Some "#home") true; mkNavLink (Some "#about") false;
   mkNavLink (Some "#contact") false; mkNavLink None true].

(** * Properties *)

(** ** Literals *)

(** The decimal literals of the script, as the binary64 values they denote. *)
Lemma decimal_literals :
  (@dec float _ 5 100 = 0.05 /\ @dec float _ 5 10 = 0.5
   /\ @dec float _ 15 10 = 1.5 /\ @dec float _ 1 100 = 0.01
   /\ @dec float _ 5 1000 = 0.005 /\ @dec float _ 2 100 = 0.02
   /\ @dec float _ 98 100 = 0.98 /\ @dec float _ 1 10 = 0.1
   /\ @forceRadius float _ = 300 /\ float_of_Z 255 = 255)%float.
Proof. vm_compute. repeat split; reflexivity. Qed.

(** ** [hexToRgb] *)

Lemma hex_digit_not_hash (c : ascii) (rest : string) :
  is_hex_digit c = true -> skip_hash (String c rest) = String c rest.
Proof.
  destruct c as [[] [] [] [] [] [] [] []]; intros Hc;
    try reflexivity; discriminate Hc.
Qed.

Lemma shorthandRegex_hash (s : string) :
  shorthandRegex (String "#" s) =
  match s with
  | String c1 (String c2 (String c3 EmptyString)) =>
      if is_hex_digit c1 && is_hex_digit c2 && is_hex_digit c3
      then Some (c1, c2, c3) else None
  | _ => None
  end.
Proof. reflexivity. Qed.

Lemma fullRegex_some_inv (s : string) v :
  fullRegex s = Some v ->
  exists c1 c2 c3 c4 c5 c6,
    skip_hash s = string_of_list_ascii [c1; c2; c3; c4; c5; c6]
    /\ forallb is_hex_digit [c1; c2; c3; c4; c5; c6] = true.
Proof.
  unfold fullRegex.
  destruct (skip_hash s) as [|c1 [|c2 [|c3 [|c4 [|c5 [|c6 [|c7 t]]]]]]];
    try discriminate.
  destruct (forallb is_hex_digit [c1; c2; c3; c4; c5; c6]) eqn:Hd;
    try discriminate.
  intros _. exists c1, c2, c3, c4, c5, c6. split; [reflexivity | exact Hd].
Qed.

Lemma shorthandRegex_some_inv (s : string) c1 c2 c3 :
  shorthandRegex s = Some (c1, c2, c3) ->
  skip_hash s = string_of_list_ascii [c1; c2; c3]
  /\ forallb is_hex_digit [c1; c2; c3] = true.
Proof.
  unfold shorthandRegex.
  destruct (skip_hash s) as [|d1 [|d2 [|d3 [|d4 t]]]]; try discriminate.
  destruct (is_hex_digit d1) eqn:H1; try discriminate.
  destruct (is_hex_digit d2) eqn:H2; try discriminate.
  destruct (is_hex_digit d3) eqn:H3; try discriminate.
  simpl. intros Heq. inversion Heq; subst.
  split; [reflexivity | simpl; rewrite H1, H2, H3; reflexivity].
Qed.

(** What [skip_hash] yields is well formed exactly when the string is. *)
Lemma skip_hash_well_formed (s : string) :
  hex_digits_3_or_6 (skip_hash s) = true -> is_hex_color s = true.
Proof.
  unfold is_hex_color. destruct s as [|c rest].
  - intros Hf. cbv in Hf. discriminate Hf.
  - destruct (Ascii.eqb c "#") eqn:Hc.
    + apply Ascii.eqb_eq in Hc. subst c.
      change (skip_hash (String "#" rest)) with rest.
      intros ->. apply orb_true_r.
    + assert (Hs : skip_hash (String c rest) = String c rest).
      { destruct c as [[] [] [] [] [] [] [] []]; try reflexivity.
        discriminate Hc. }
      rewrite Hs. intros ->. reflexivity.
Qed.

Lemma hexToRgb_some_well_formed {num} `{Arith num} (s : string) (c : Rgb num) :
  hexToRgb s = Some c -> is_hex_color s = true.
Proof.
  unfold hexToRgb, expand_shorthand.
  destruct (shorthandRegex s) as [[[c1 c2] c3]|] eqn:Hshort.
  - intros _. apply shorthandRegex_some_inv in Hshort.
    destruct Hshort as [Hs Hd]. apply skip_hash_well_formed.
    rewrite Hs. unfold hex_digits_3_or_6.
    rewrite list_ascii_of_string_of_list_ascii, Hd. reflexivity.
  - destruct (fullRegex s) as [v|] eqn:Hfull; try discriminate.
    intros _. apply fullRegex_some_inv in Hfull.
    destruct Hfull as (c1 & c2 & c3 & c4 & c5 & c6 & Hs & Hd).
    apply skip_hash_well_formed. rewrite Hs. unfold hex_digits_3_or_6.
    rewrite list_ascii_of_string_of_list_ascii, Hd. reflexivity.
Qed.

(** C7: a string that is not exactly 3 or 6 hexadecimal digits after an
    optional leading [#] makes [hexToRgb] return [null]; the function is
    total on strings, so nothing is thrown. *)
Theorem hexToRgb_malformed_null {num} `{Arith num} (s : string) :
  is_hex_color s = false -> @hexToRgb num _ s = None.
Proof.
  intros Hbad. destruct (hexToRgb s) as [c|] eqn:Hc; [|reflexivity].
  apply hexToRgb_some_well_formed in Hc. congruence.
Qed.

Lemma hexToRgb_not_a_color :
  is_hex_color "not-a-color" = false
  /\ @hexToRgb float _ "not-a-color" = None.
Proof.
  split; [reflexivity|].
  apply (@hexToRgb_malformed_null float _ "not-a-color"). reflexivity.
Defined.

Lemma hex_digits_3_or_6_inv (t : string) :
  hex_digits_3_or_6 t = true ->
  (exists c1 c2 c3,
      t = string_of_list_ascii [c1; c2; c3]
      /\ is_hex_digit c1 = true /\ is_hex_digit c2 = true
      /\ is_hex_digit c3 = true)
  \/ (exists c1 c2 c3 c4 c5 c6,
      t = string_of_list_ascii [c1; c2; c3; c4; c5; c6]
      /\ forallb is_hex_digit [c1; c2; c3; c4; c5; c6] = true).
Proof.
  unfold hex_digits_3_or_6.
  destruct t as [|c1 [|c2 [|c3 [|c4 [|c5 [|c6 [|c7 t]]]]]]];
    cbn [list_ascii_of_string List.length Nat.eqb orb];
    rewrite ?andb_false_r; try discriminate.
  - rewrite andb_true_r. cbn [forallb]. rewrite andb_true_r.
    intros Hd. apply andb_prop in Hd. destruct Hd as [H1 Hd].
    apply andb_prop in Hd. destruct Hd as [H2 H3].
    left. exists c1, c2, c3. auto.
  - rewrite andb_true_r. intros Hd.
    right. exists c1, c2, c3, c4, c5, c6. auto.
Qed.

Lemma fullRegex_six (c1 c2 c3 c4 c5 c6 : ascii) :
  forallb is_hex_digit [c1; c2; c3; c4; c5; c6] = true ->
  fullRegex (string_of_list_ascii [c1; c2; c3; c4; c5; c6])
  = Some ([c1; c2], [c3; c4], [c5; c6])
  /\ fullRegex (String "#" (string_of_list_ascii [c1; c2; c3; c4; c5; c6]))
     = Some ([c1; c2], [c3; c4], [c5; c6])
  /\ shorthandRegex (string_of_list_ascii [c1; c2; c3; c4; c5; c6]) = None
  /\ shorthandRegex (String "#" (string_of_list_ascii [c1; c2; c3; c4; c5; c6]))
     = None.
Proof.
  intros Hd.
  assert (H1 : is_hex_digit c1 = true).
  { cbn [forallb] in Hd. apply andb_prop in Hd. tauto. }
  unfold fullRegex, shorthandRegex. cbn [string_of_list_ascii].
  rewrite hex_digit_not_hash by exact H1.
  repeat split; try reflexivity.
  - rewrite Hd. reflexivity.
  - cbn [skip_hash]. rewrite Hd. reflexivity.
Qed.

(** Every well-formed string is accepted. *)
Lemma hexToRgb_accepts {num} `{Arith num} (s : string) :
  is_hex_color s = true -> exists c : Rgb num, hexToRgb s = Some c.
Proof.
  unfold is_hex_color. intros Hs. apply orb_prop in Hs.
  assert (Hcases : exists t, (s = t \/ s = String "#" t)
                             /\ hex_digits_3_or_6 t = true).
  { destruct Hs as [Hs|Hs].
    - exists s. auto.
    - destruct s as [|c rest]; [discriminate|].
      apply andb_prop in Hs. destruct Hs as [Hc Hr].
      apply Ascii.eqb_eq in Hc. subst c. exists rest. auto. }
  destruct Hcases as (t & Hst & Ht).
  apply hex_digits_3_or_6_inv in Ht.
  destruct Ht as [(c1 & c2 & c3 & -> & H1 & H2 & H3)
                 |(c1 & c2 & c3 & c4 & c5 & c6 & -> & Hd)].
  - assert (Hlong : forallb is_hex_digit [c1; c1; c2; c2; c3; c3] = true).
    { cbn [forallb]. rewrite H1, H2, H3. reflexivity. }
    destruct (fullRegex_six _ _ _ _ _ _ Hlong) as (Hf & _).
    assert (Hshort : shorthandRegex s = Some (c1, c2, c3)).
    { destruct Hst as [->| ->].
      - unfold shorthandRegex. cbn [string_of_list_ascii].
        rewrite hex_digit_not_hash by exact H1. rewrite H1, H2, H3. reflexivity.
      - rewrite shorthandRegex_hash. cbn [string_of_list_ascii].
        rewrite H1, H2, H3. reflexivity. }
    unfold hexToRgb, expand_shorthand. rewrite Hshort, Hf. eauto.
  - destruct (fullRegex_six _ _ _ _ _ _ Hd) as (Hf & Hf' & Hn & Hn').
    unfold hexToRgb, expand_shorthand.
    destruct Hst as [->| ->].
    + rewrite Hn, Hf. eauto.
    + rewrite Hn', Hf'. eauto.
Qed.

(** C6: a 3-digit or 6-digit hexadecimal string is accepted with or without
    a leading [#]; a shorthand is read as its digit-duplicated 6-digit form,
    each pair in base 16; ["#FFF"] and ["#FFFFFF"] both give 255, 255, 255. *)
Theorem hexToRgb_shorthand_expands {num} `{Arith num} (c1 c2 c3 : ascii) :
  is_hex_digit c1 = true -> is_hex_digit c2 = true ->
  is_hex_digit c3 = true ->
  let long := string_of_list_ascii [c1; c1; c2; c2; c3; c3] in
  let rgb := mkRgb (n_of_Z (16 * hex_value c1 + hex_value c1))
                   (n_of_Z (16 * hex_value c2 + hex_value c2))
                   (n_of_Z (16 * hex_value c3 + hex_value c3)) in
  hexToRgb (string_of_list_ascii [c1; c2; c3]) = Some rgb
  /\ hexToRgb (String "#" (string_of_list_ascii [c1; c2; c3])) = Some rgb
  /\ hexToRgb long = Some rgb
  /\ hexToRgb (String "#" long) = Some rgb
  /\ @hexToRgb num _ "#FFF" = Some (mkRgb (n_of_Z 255) (n_of_Z 255) (n_of_Z 255))
  /\ @hexToRgb num _ "#FFFFFF"
     = Some (mkRgb (n_of_Z 255) (n_of_Z 255) (n_of_Z 255))
  /\ (forall s : string,
        is_hex_color s = true -> exists c : Rgb num, hexToRgb s = Some c).
Proof.
  intros H1 H2 H3 long rgb. subst long rgb.
  assert (Hlong : fullRegex (string_of_list_ascii [c1; c1; c2; c2; c3; c3])
                  = Some ([c1; c1], [c2; c2], [c3; c3])).
  { unfold fullRegex. simpl string_of_list_ascii.
    rewrite hex_digit_not_hash by exact H1.
    simpl. rewrite H1, H2, H3. reflexivity. }
  assert (Hlong' : fullRegex
                     (String "#" (string_of_list_ascii [c1; c1; c2; c2; c3; c3]))
                   = Some ([c1; c1], [c2; c2], [c3; c3])).
  { unfold fullRegex. simpl. rewrite H1, H2, H3. reflexivity. }
  assert (Hshort : shorthandRegex (string_of_list_ascii [c1; c2; c3])
                   = Some (c1, c2, c3)).
  { unfold shorthandRegex. simpl string_of_list_ascii.
    rewrite hex_digit_not_hash by exact H1.
    rewrite H1, H2, H3. reflexivity. }
  assert (Hshort' : shorthandRegex (String "#" (string_of_list_ascii [c1; c2; c3]))
                    = Some (c1, c2, c3)).
  { rewrite shorthandRegex_hash. simpl. rewrite H1, H2, H3. reflexivity. }
  assert (Hno : shorthandRegex (string_of_list_ascii [c1; c1; c2; c2; c3; c3])
                = None).
  { unfold shorthandRegex. simpl string_of_list_ascii.
    rewrite hex_digit_not_hash by exact H1. reflexivity. }
  assert (Hno' : shorthandRegex
                   (String "#" (string_of_list_ascii [c1; c1; c2; c2; c3; c3]))
                 = None) by reflexivity.
  repeat apply conj.
  - unfold hexToRgb, expand_shorthand. rewrite Hshort, Hlong. reflexivity.
  - unfold hexToRgb, expand_shorthand. rewrite Hshort', Hlong. reflexivity.
  - unfold hexToRgb, expand_shorthand. rewrite Hno, Hlong. reflexivity.
  - unfold hexToRgb, expand_shorthand. rewrite Hno', Hlong'. reflexivity.
  - reflexivity.
  - reflexivity.
  - intros s. apply hexToRgb_accepts.
Qed.

Lemma hexToRgb_shorthand_03F :
  @hexToRgb float _ "03F" = Some (mkRgb 0 51 255)%float
  /\ @hexToRgb float _ "#03F" = Some (mkRgb 0 51 255)%float
  /\ @hexToRgb float _ "0033FF" = Some (mkRgb 0 51 255)%float
  /\ @hexToRgb float _ "#0033FF" = Some (mkRgb 0 51 255)%float
  /\ @hexToRgb float _ "#FFF" = Some (mkRgb 255 255 255)%float
  /\ @hexToRgb float _ "#FFFFFF" = Some (mkRgb 255 255 255)%float.
Proof.
  pose proof (@hexToRgb_shorthand_expands float _ "0" "3" "F"
                eq_refl eq_refl eq_refl) as Hx.
  cbv zeta in Hx. tauto.
Defined.

(** ** The palette registry *)

Lemma registry_strings_six_digit :
  forallb (fun kp => forallb is_six_digit_hex (palette_strings (snd kp)))
          PALETTES = true.
Proof. vm_compute. reflexivity. Qed.

Lemma own_property_In (ps : list (string * Palette)) key pal :
  own_property ps key = Some pal -> In (key, pal) ps.
Proof.
  induction ps as [|[k p] rest IH]; simpl; [discriminate|].
  destruct (String.eqb k key) eqn:Hk.
  - apply String.eqb_eq in Hk. intros Heq. inversion Heq; subst. auto.
  - intros Hr. right. exact (IH Hr).
Qed.

Lemma length_list_ascii_of_string (s : string) :
  List.length (list_ascii_of_string s) = String.length s.
Proof. induction s; simpl; congruence. Qed.

Lemma six_digit_hex_is_color (s : string) :
  is_six_digit_hex s = true -> is_hex_color s = true.
Proof.
  destruct s as [|c rest]; [discriminate|].
  unfold is_six_digit_hex. intros Hs.
  apply andb_prop in Hs. destruct Hs as [Hs Hlen].
  apply andb_prop in Hs. destruct Hs as [Hc Hd].
  unfold is_hex_color. apply orb_true_intro. right.
  rewrite Hc. unfold hex_digits_3_or_6.
  rewrite Hd, length_list_ascii_of_string, Hlen.
  rewrite orb_true_r. reflexivity.
Qed.

(** Every colour string of a registered palette, its background included,
    is a six-digit hexadecimal string, which [hexToRgb] accepts. *)
Lemma registered_color_valid {num} `{Arith num} key pal c :
  own_property PALETTES key = Some pal -> In c (palette_strings pal) ->
  is_six_digit_hex c = true /\ exists rgb : Rgb num, hexToRgb c = Some rgb.
Proof.
  intros Hown Hin. apply own_property_In in Hown.
  pose proof registry_strings_six_digit as Hall.
  rewrite forallb_forall in Hall. specialize (Hall _ Hown).
  cbn [snd] in Hall. rewrite forallb_forall in Hall. specialize (Hall _ Hin).
  split; [exact Hall|].
  apply hexToRgb_accepts, six_digit_hex_is_color, Hall.
Qed.

Lemma installed_colors ref cs :
  installed ref -> ref_colors ref = Some cs ->
  exists key pal, own_property PALETTES key = Some pal /\ colors pal = cs.
Proof.
  intros [key Hget] Hcs. unfold palette_get in Hget.
  destruct (own_property PALETTES key) as [pal|] eqn:Hown.
  - inversion Hget; subst. simpl in Hcs. inversion Hcs; subst. eauto.
  - destruct (existsb (String.eqb key) object_prototype_keys);
      [|discriminate].
    inversion Hget; subst. discriminate Hcs.
Qed.

Section PaletteDriven.
Context {num : Type} `{Arith num}.
Variable random : nat -> num.

Lemma array_get_In {A : Type} (xs : list A) (k : num) (a : A) :
  array_get xs k = Some a -> In a xs.
Proof.
  unfold array_get. destruct (n_floor k) as [i|]; [|discriminate].
  destruct (0 <=? i)%Z; [|discriminate]. apply nth_error_In.
Qed.

Lemma pickColor_In (w w1 : World num) (c : string) :
  pickColor random w = Ok w1 (Some c) ->
  exists cs, ref_colors (w_currentPalette w) = Some cs /\ In c cs.
Proof.
  unfold pickColor.
  destruct (ref_colors (w_currentPalette w)) as [cs|]; [|discriminate].
  intros Heq. inversion Heq as [[Hw Hc]]. exists cs. split; [reflexivity|].
  eapply array_get_In. exact Hc.
Qed.

(** A colour [pickColor] returns converts to a non-null colour. *)
Lemma pickColor_converts (w w1 : World num) (c : string) :
  installed (w_currentPalette w) ->
  pickColor random w = Ok w1 (Some c) ->
  exists rgb : Rgb num, hexToRgb c = Some rgb.
Proof.
  intros Hinst Hpick. apply pickColor_In in Hpick.
  destruct Hpick as (cs & Hcs & Hin).
  destruct (installed_colors Hinst Hcs) as (key & pal & Hown & <-).
  eapply registered_color_valid; [exact Hown|].
  right. exact Hin.
Qed.

Lemma reset_non_null (w w1 : World num) (p : Particle num) :
  installed (w_currentPalette w) ->
  reset random w = Ok w1 p -> non_null p.
Proof.
  intros Hinst. unfold reset.
  destruct (pickColor random (with_draws w (5 + w_draws w)))
    as [w2 hex|w2] eqn:Hpick; [|discriminate].
  destruct hex as [c|]; [|discriminate]. simpl.
  intros Heq. inversion Heq; subst. unfold non_null. simpl.
  eapply pickColor_converts; [|exact Hpick]. exact Hinst.
Qed.

Lemma recolor_pool (cs : list string) (ps : list (Particle num)) :
  forall w : World num,
    ref_colors (w_currentPalette w) = Some cs ->
    exists n ps',
      state_of (recolor random w ps) = (with_draws w n, ps')
      /\ Forall2 (fun p p' => p' = p \/ retargeted cs p p') ps ps'
      /\ (forall s u, recolor random w ps = Ok s u ->
                      Forall2 (retargeted cs) ps ps').
Proof.
  induction ps as [|p rest IH]; intros w Hcs.
  - exists (w_draws w), []. simpl. destruct w; simpl.
    repeat apply conj; try constructor.
  - cbn [recolor]. unfold pickColor. rewrite Hcs.
    set (w1 := with_draws w (S (w_draws w))).
    destruct (array_get cs _) as [c|] eqn:Hget; cbn [hexToRgb_of].
    + assert (Hcs1 : ref_colors (w_currentPalette w1) = Some cs)
        by exact Hcs.
      destruct (IH w1 Hcs1) as (n & ps' & Hst & Hall & Hok).
      assert (Hre : retargeted cs p (with_targetRgb p (hexToRgb c))).
      { exists c. split; [|reflexivity]. eapply array_get_In, Hget. }
      exists n, (with_targetRgb p (hexToRgb c) :: ps').
      destruct (recolor random w1 rest) as [[w3 rest'] u|[w3 rest']];
        cbn [state_of] in *; inversion Hst; subst;
        repeat apply conj; try reflexivity.
      * constructor; [right; exact Hre|exact Hall].
      * intros s u0 _. constructor; [exact Hre|].
        eapply Hok. reflexivity.
      * constructor; [right; exact Hre|exact Hall].
      * intros s u0 Heq. discriminate Heq.
    + exists (S (w_draws w)), (p :: rest). cbn [state_of].
      repeat apply conj; try reflexivity.
      * constructor; [left; reflexivity|].
        clear. induction rest; constructor; auto.
      * intros s u Heq. discriminate Heq.
Qed.

(** When every draw indexes inside the list, the loop returns. *)
Lemma recolor_returns (cs : list string) (ps : list (Particle num)) :
  (forall k, exists c,
      array_get cs (random k * n_of_Z (Z.of_nat (List.length cs)))%num
      = Some c) ->
  forall w : World num,
    ref_colors (w_currentPalette w) = Some cs ->
    exists s, recolor random w ps = Ok s tt.
Proof.
  intros Hidx. induction ps as [|p rest IH]; intros w Hcs.
  - eexists. reflexivity.
  - cbn [recolor]. unfold pickColor. rewrite Hcs.
    destruct (Hidx (w_draws w)) as [c ->]. cbn [hexToRgb_of].
    destruct (IH (with_draws w (S (w_draws w))) Hcs) as [[w3 rest'] ->].
    eexists. reflexivity.
Qed.

Lemma recolor_no_colors (ps : list (Particle num)) (w : World num) :
  ref_colors (w_currentPalette w) = None ->
  recolor random w ps
  = match ps with
    | [] => Ok (w, []) tt
    | _ :: _ => Throw (with_draws w (S (w_draws w)), ps)
    end.
Proof.
  intros Hcs. destruct ps as [|p rest]; [reflexivity|].
  cbn [recolor]. unfold pickColor. rewrite Hcs. reflexivity.
Qed.

Lemma show_palette_particles (w : World num) :
  w_particles (state_of (show_palette w)) = w_particles w
  /\ w_currentPalette (state_of (show_palette w)) = w_currentPalette w
  /\ w_background (state_of (show_palette w)) = w_background w.
Proof.
  unfold show_palette. destruct (w_swatches w); [repeat split|].
  destruct (ref_colors (w_currentPalette w)); repeat split.
Qed.

(** [setMood] with a key for which [PALETTES[key]] is [undefined]. *)
Lemma setMood_undefined_key (key : string) (w : World num) :
  palette_get key = None -> setMood random key w = Ok w tt.
Proof. unfold setMood. intros ->. reflexivity. Qed.

(** [setMood] with a key of the registry: the state it leaves. *)
Lemma setMood_registered (key : string) (pal : Palette) (w : World num) :
  own_property PALETTES key = Some pal ->
  let res := setMood random key w in
  w_currentPalette (state_of res) = Own pal
  /\ w_background (state_of res) = bg pal
  /\ Forall2 (fun p p' => p' = p \/ retargeted (colors pal) p p')
             (w_particles w) (w_particles (state_of res))
  /\ ((exists w', res = Ok w' tt) ->
      Forall2 (retargeted (colors pal))
              (w_particles w) (w_particles (state_of res))).
Proof.
  intros Hown. unfold setMood, palette_get. rewrite Hown. cbn [ref_bg].
  set (w2 := with_background (with_palette w (Own pal)) (bg pal)).
  assert (Hcs : ref_colors (w_currentPalette w2) = Some (colors pal))
    by reflexivity.
  destruct (recolor_pool (w_particles w2) w2 Hcs)
    as (n & ps' & Hst & Hall & Hok).
  destruct (recolor random w2 (w_particles w2)) as [[w3 ps3] u|[w3 ps3]];
    cbn [state_of] in Hst; inversion Hst; subst w3 ps3; cbn zeta.
  - destruct (show_palette_particles
                (with_particles (with_draws w2 n) ps')) as (Hp & Hc & Hb).
    rewrite Hp, Hc, Hb. repeat apply conj; try reflexivity.
    + exact Hall.
    + intros _. eapply Hok. reflexivity.
  - cbn [state_of]. repeat apply conj; try reflexivity.
    + exact Hall.
    + intros [w' Hw']. discriminate Hw'.
Qed.

(** [setMood] with a key that [PALETTES] inherits: the palette is
    replaced before the first [pickColor()] throws. *)
Lemma setMood_inherited (key : string) (w : World num) p ps :
  palette_get key = Some (Inherited key) ->
  w_particles w = p :: ps ->
  setMood random key w
  = Throw (with_draws (with_palette w (Inherited key)) (S (w_draws w))).
Proof.
  intros Hget Hps. unfold setMood. rewrite Hget. cbn [ref_bg].
  rewrite recolor_no_colors by reflexivity.
  cbn [w_particles with_palette]. rewrite Hps.
  destruct w; cbn in *; subst; reflexivity.
Qed.

Lemma retargeted_non_null (key : string) (pal : Palette) p p' :
  own_property PALETTES key = Some pal ->
  retargeted (colors pal) p p' -> non_null p'.
Proof.
  intros Hown (c & Hin & ->). unfold non_null. cbn [p_targetRgb with_targetRgb].
  eapply registered_color_valid; [exact Hown|]. right. exact Hin.
Qed.

Lemma setMood_non_null (key : string) (w : World num) :
  Forall non_null (w_particles w) ->
  Forall non_null (w_particles (state_of (setMood random key w))).
Proof.
  intros Hall. destruct (palette_get key) as [ref|] eqn:Hget.
  - unfold palette_get in Hget.
    destruct (own_property PALETTES key) as [pal|] eqn:Hown.
    + destruct (setMood_registered key w Hown) as (_ & _ & Hps & _).
      cbv zeta in Hps. revert Hall Hps.
      generalize (w_particles (state_of (setMood random key w))).
      generalize (w_particles w).
      induction l as [|p ps IH]; intros l' Hall Hps;
        inversion Hps; subst; constructor.
      * inversion Hall; subst.
        match goal with Hor : _ \/ _ |- _ => destruct Hor as [->|Hre] end;
          [assumption|]. eapply retargeted_non_null; eauto.
      * inversion Hall; subst. apply IH; assumption.
    + destruct (existsb (String.eqb key) object_prototype_keys) eqn:Hex;
        [|discriminate].
      inversion Hget; subst ref.
      assert (Hget' : palette_get key = Some (Inherited key)).
      { unfold palette_get. rewrite Hown, Hex. reflexivity. }
      destruct (w_particles w) as [|p ps] eqn:Hps.
      * unfold setMood. rewrite Hget'. cbn [ref_bg].
        rewrite recolor_no_colors by reflexivity.
        cbn [w_particles with_palette]. rewrite Hps.
        destruct (show_palette_particles
                    (with_particles (with_palette w (Inherited key)) []))
          as (Hp & _). rewrite Hp. constructor.
      * rewrite (setMood_inherited w Hget' Hps). cbn. rewrite Hps.
        exact Hall.
  - rewrite setMood_undefined_key by exact Hget. exact Hall.
Qed.
End PaletteDriven.

(** ** [lerp] and the colour easing, over exact arithmetic *)

Section ExactLerp.
Open Scope R_scope.

Lemma lerp_real (a b t : R) : lerp a b t = a * (1 - t) + b * t.
Proof. reflexivity. Qed.

Lemma lerpSpeed_real : @lerpSpeed R _ = 5 / 100.
Proof. reflexivity. Qed.

Lemma lerp_real_monotone (a b t1 t2 : R) :
  a < b -> t1 <= t2 -> lerp a b t1 <= lerp a b t2.
Proof. intros Hab Ht. rewrite !lerp_real. nra. Qed.

(** One step closes 5% of the gap, exactly. *)
Lemma ease_channel_gap (target current : R) :
  ease_channel target current - target = (current - target) * (95 / 100).
Proof. unfold ease_channel. rewrite lerp_real, lerpSpeed_real. lra. Qed.

Lemma ease_frames_gap (n : nat) (target current : R) :
  ease_frames n target current - target
  = (current - target) * (95 / 100) ^ n.
Proof.
  revert current. induction n as [|n IH]; intros current;
    cbn [ease_frames pow].
  - lra.
  - rewrite IH, ease_channel_gap. ring.
Qed.
End ExactLerp.

(** ** Facts of binary64 arithmetic *)

Section Binary64.
Open Scope Z_scope.

Lemma digits2_pos_bounds (p : positive) :
  2 ^ (Zpos (digits2_pos p) - 1) <= Zpos p < 2 ^ Zpos (digits2_pos p).
Proof.
  induction p as [p IH|p IH|]; cbn [digits2_pos].
  - rewrite Pos2Z.inj_succ.
    replace (Z.succ (Zpos (digits2_pos p)) - 1) with (Zpos (digits2_pos p) - 1 + 1) by lia.
    rewrite Z.pow_add_r by lia. rewrite Z.pow_succ_r by lia.
    rewrite Z.pow_1_r, Pos2Z.inj_xI.
    generalize dependent (2 ^ (Zpos (digits2_pos p) - 1)).
    generalize (2 ^ Zpos (digits2_pos p)). intros; lia.
  - rewrite Pos2Z.inj_succ.
    replace (Z.succ (Zpos (digits2_pos p)) - 1) with (Zpos (digits2_pos p) - 1 + 1) by lia.
    rewrite Z.pow_add_r by lia. rewrite Z.pow_succ_r by lia.
    rewrite Z.pow_1_r. change (Zpos p~0) with (2 * Zpos p).
    generalize dependent (2 ^ (Zpos (digits2_pos p) - 1)).
    generalize (2 ^ Zpos (digits2_pos p)). intros; lia.
  - simpl. lia.
Qed.

Lemma shr_1_m (mrs : shr_record) :
  0 <= shr_m mrs -> shr_m (shr_1 mrs) = shr_m mrs / 2.
Proof.
  destruct mrs as [m rb sb]. cbn [shr_m]. intros Hm.
  destruct m as [|p|p]; [reflexivity| |lia].
  destruct p as [p|p|]; cbn [shr_1 shr_m].
  - change (Zpos p~1) with (2 * Zpos p + 1).
    apply Z.div_unique with (r := 1); lia.
  - change (Zpos p~0) with (2 * Zpos p).
    apply Z.div_unique with (r := 0); lia.
  - reflexivity.
Qed.

Lemma iter_shr_1_m (n : positive) :
  forall mrs, 0 <= shr_m mrs ->
              shr_m (iter_pos shr_1 n mrs) = shr_m mrs / 2 ^ Zpos n.
Proof.
  induction n as [n IH|n IH|]; intros mrs Hm; cbn [iter_pos].
  - assert (H1 : 0 <= shr_m (shr_1 mrs)).
    { rewrite shr_1_m by exact Hm. apply Z.div_pos; lia. }
    assert (H2 : 0 <= shr_m (iter_pos shr_1 n (shr_1 mrs))).
    { rewrite IH by exact H1. apply Z.div_pos; [exact H1|]. apply Z.pow_pos_nonneg; lia. }
    rewrite IH by exact H2. rewrite IH by exact H1. rewrite shr_1_m by exact Hm.
    rewrite !Z.div_div by (try apply Z.pow_pos_nonneg; lia).
    f_equal. rewrite <- Z.pow_add_r, <- Z.pow_succ_r by lia.
    f_equal. lia.
  - assert (H2 : 0 <= shr_m (iter_pos shr_1 n mrs)).
    { rewrite IH by exact Hm. apply Z.div_pos; [exact Hm|]. apply Z.pow_pos_nonneg; lia. }
    rewrite IH by exact H2. rewrite IH by exact Hm.
    rewrite !Z.div_div by (try apply Z.pow_pos_nonneg; lia).
    f_equal. rewrite <- Z.pow_add_r by lia. f_equal. lia.
  - rewrite shr_1_m by exact Hm. reflexivity.
Qed.

(** The mantissa and exponent that [shr_fexp] leaves: the mantissa is
    divided by the power of two that the exponent gains. *)
Lemma shr_fexp_value (m e : Z) :
  0 <= m ->
  let e' := Z.max e (fexp prec emax (Zdigits2 m + e)) in
  let res := shr_fexp prec emax m e loc_Exact in
  snd res = e' /\ shr_m (fst res) = m / 2 ^ (e' - e).
Proof.
  intros Hm e' res. subst res e'. unfold shr_fexp, shr.
  cbn [shr_record_of_loc].
  destruct (fexp prec emax (Zdigits2 m + e) - e) as [|n|n] eqn:Hn; cbn [fst snd shr_m].
  - replace (Z.max e (fexp prec emax (Zdigits2 m + e))) with e by lia.
    rewrite Z.sub_diag. simpl. rewrite Z.div_1_r. auto.
  - replace (Z.max e (fexp prec emax (Zdigits2 m + e))) with (e + Zpos n) by lia.
    split; [reflexivity|].
    rewrite iter_shr_1_m by exact Hm. cbn [shr_m]. f_equal. f_equal. lia.
  - replace (Z.max e (fexp prec emax (Zdigits2 m + e))) with e by lia.
    rewrite Z.sub_diag. simpl. rewrite Z.div_1_r. auto.
Qed.

Lemma round_nearest_even_cases (m : Z) (l : location) :
  round_nearest_even m l = m \/ round_nearest_even m l = m + 1.
Proof.
  destruct l as [|[]]; cbn [round_nearest_even]; auto.
  destruct (Z.even m); auto.
Qed.

(** The result of rounding an exact non-negative mantissa [m] at exponent
    [e]: the exponent rises to [e1], dividing the mantissa, which then
    stays or goes up by one ([m1]), and a second alignment gives the
    final pair [m2], [e2]. *)
Lemma binary_round_aux_exact (s : bool) (m e : Z) :
  0 <= m ->
  let e1 := Z.max e (fexp prec emax (Zdigits2 m + e)) in
  exists m1,
    (m1 = m / 2 ^ (e1 - e) \/ m1 = m / 2 ^ (e1 - e) + 1)
    /\ let e2 := Z.max e1 (fexp prec emax (Zdigits2 m1 + e1)) in
       binary_round_aux prec emax s m e loc_Exact
       = match m1 / 2 ^ (e2 - e1) with
         | Z0 => S754_zero s
         | Zpos p =>
             if e2 <=? emax - prec then S754_finite s p e2
             else S754_infinity s
         | Zneg _ => S754_nan
         end.
Proof.
  intros Hm e1. unfold binary_round_aux.
  destruct (shr_fexp_value e Hm) as [He1 Hm1]. cbv zeta in He1, Hm1.
  destruct (shr_fexp prec emax m e loc_Exact) as [mrs' e'].
  cbn [fst snd] in He1, Hm1. fold e1 in He1, Hm1. subst e'.
  set (m1 := round_nearest_even (shr_m mrs') (loc_of_shr_record mrs')).
  assert (Hcases : m1 = m / 2 ^ (e1 - e) \/ m1 = m / 2 ^ (e1 - e) + 1).
  { rewrite <- Hm1. apply round_nearest_even_cases. }
  assert (Hm1pos : 0 <= m1).
  { assert (0 <= m / 2 ^ (e1 - e)).
    { apply Z.div_pos; [exact Hm|]. apply Z.pow_pos_nonneg; lia. }
    lia. }
  exists m1. split; [exact Hcases|].
  destruct (shr_fexp_value e1 Hm1pos) as [He2 Hm2]. cbv zeta in He2, Hm2.
  destruct (shr_fexp prec emax m1 e1 loc_Exact) as [mrs'' e''].
  cbn [fst snd] in He2, Hm2. subst e''. rewrite Hm2. reflexivity.
Qed.

(** A valid number in [[0, 1)] that is not zero: its mantissa is below
    [2^53] and its exponent at most [-53]. *)
Lemma unit_interval_inv (x : spec_float) :
  valid_binary x = true ->
  SFleb (S754_zero false) x = true -> SFltb x sf_one = true ->
  (exists s, x = S754_zero s)
  \/ (exists m e, x = S754_finite false m e
                 /\ Zpos m < 2 ^ 53 /\ e <= -53).
Proof.
  intros Hv H0 H1. destruct x as [s|s| |s m e].
  - left. eauto.
  - destruct s; discriminate.
  - discriminate.
  - right. destruct s; [discriminate|]. exists m, e.
    split; [reflexivity|].
    cbn [valid_binary] in Hv. unfold bounded, canonical_mantissa in Hv.
    apply andb_prop in Hv. destruct Hv as [Hc _].
    apply Z.eqb_eq in Hc. unfold fexp, SpecFloat.emin, prec, emax in Hc.
    pose proof (digits2_pos_bounds m) as [Hlo Hhi].
    assert (Hd : Zpos (digits2_pos m) <= 53) by lia.
    assert (Hm : Zpos m < 2 ^ 53).
    { eapply Z.lt_le_trans; [exact Hhi|]. apply Z.pow_le_mono_r; lia. }
    split; [exact Hm|].
    unfold SFltb, sf_one in H1. cbn [SFcompare] in H1.
    destruct (e ?= -52) eqn:He.
    + apply Z.compare_eq in He. subst e.
      assert (Hd53 : Zpos (digits2_pos m) = 53) by lia.
      rewrite Hd53 in Hlo. change (2 ^ (53 - 1)) with 4503599627370496 in Hlo.
      destruct (Pos.compare_cont Eq m 4503599627370496) eqn:Hcmp;
        try discriminate.
      assert (Hlt : Zpos m < 4503599627370496)
        by (apply Pos2Z.pos_lt_pos; exact Hcmp).
      clear - Hlo Hlt. lia.
    + rewrite Z.compare_lt_iff in He. lia.
    + discriminate.
Qed.

Lemma shiftl_below (m e E c : Z) :
  0 <= m -> E <= e -> E <= 0 ->
  m * 2 ^ (e - E) < c * 2 ^ (- E) -> Z.shiftl m e < c.
Proof.
  intros Hm HE HE0 Hlt. destruct (Z_le_gt_dec 0 e) as [He|He].
  - rewrite Z.shiftl_mul_pow2 by exact He.
    replace (e - E) with (e + - E) in Hlt by lia.
    rewrite Z.pow_add_r in Hlt by lia.
    assert (Hp : 0 < 2 ^ (- E)) by (apply Z.pow_pos_nonneg; lia).
    nia.
  - rewrite Z.shiftl_div_pow2 by lia.
    replace (- E) with (- e + (e - E)) in Hlt by lia.
    rewrite Z.pow_add_r in Hlt by lia.
    assert (Hp : 0 < 2 ^ (e - E)) by (apply Z.pow_pos_nonneg; lia).
    assert (Hq : 0 < 2 ^ (- e)) by (apply Z.pow_pos_nonneg; lia).
    apply Z.div_lt_upper_bound; [exact Hq|]. nia.
Qed.

Lemma Zdigits2_le (m n : Z) :
  0 <= m -> m < 2 ^ n -> 0 <= n -> Zdigits2 m <= n.
Proof.
  intros Hm Hlt Hn. destruct m as [|p|p]; [exact Hn| |lia].
  cbn [Zdigits2]. pose proof (digits2_pos_bounds p) as [Hlo _].
  assert (Hpow : 2 ^ (Zpos (digits2_pos p) - 1) < 2 ^ n) by lia.
  apply Z.pow_lt_mono_r_iff in Hpow; lia.
Qed.

(** The largest number below 1 takes the product closest to 5. *)
Lemma SFmul_pred_one_five :
  sf_floor (SFmul prec emax (S754_finite false 9007199254740991 (-53))
                  sf_five) = Some 4.
Proof. vm_compute. reflexivity. Qed.

(** A product [m * 2^e * 5] below the largest one rounds below 5. *)
Lemma round_product_below_five (m : positive) (e : Z) :
  Zpos m < 9007199254740992 -> e <= -53 ->
  (e = -53 -> Zpos m <= 9007199254740990) ->
  exists k,
    sf_floor (binary_round_aux prec emax false
                (Zpos (m * 5629499534213120)) (e + -50) loc_Exact) = Some k
    /\ 0 <= k <= 4.
Proof.
  intros Hm He Hcorner.
  set (M := Zpos (m * 5629499534213120)).
  set (E := e + -50).
  assert (HM : M = Zpos m * 5629499534213120) by reflexivity.
  assert (HMpos : 0 <= M) by lia.
  destruct (binary_round_aux_exact false E HMpos) as (m1 & Hm1 & Heq).
  cbv zeta in Heq. rewrite Heq. clear Heq.
  set (e1 := Z.max E (fexp prec emax (Zdigits2 M + E))) in *.
  set (e2 := Z.max e1 (fexp prec emax (Zdigits2 m1 + e1))).
  assert (HdM : Zdigits2 M <= 106).
  { apply Zdigits2_le; [lia| |lia].
    change (2 ^ 106) with 81129638414606681695789005144064. lia. }
  assert (He1 : E <= e1 <= -50).
  { subst e1 E. unfold fexp, SpecFloat.emin, prec, emax. lia. }
  set (K := 2 ^ (- E - 103)).
  assert (HK : (K = 1 /\ e = -53) \/ 2 <= K).
  { destruct (Z.eq_dec e (-53)) as [->|Hne].
    - left. split; reflexivity.
    - right. subst K. change 2 with (2 ^ 1) at 1.
      apply Z.pow_le_mono_r; subst E; lia. }
  assert (HE : 2 ^ (- E) = 10141204801825835211973625643008 * K).
  { subst K. replace (- E) with (103 + (- E - 103)) at 1 by (subst E; lia).
    rewrite Z.pow_add_r by (subst E; lia). reflexivity. }
  assert (Hs1 : 2 ^ (e1 - E) <= 9007199254740992 * K).
  { subst K. change 9007199254740992 with (2 ^ 53).
    rewrite <- Z.pow_add_r by (subst E; lia).
    apply Z.pow_le_mono_r; lia. }
  assert (Hp1 : 0 < 2 ^ (e1 - E)) by (apply Z.pow_pos_nonneg; lia).
  assert (Hq : M / 2 ^ (e1 - E) * 2 ^ (e1 - E) <= M).
  { rewrite Z.mul_comm. apply Z.mul_div_le. exact Hp1. }
  assert (Hq0 : 0 <= M / 2 ^ (e1 - E)) by (apply Z.div_pos; lia).
  assert (Hm1lo : 0 <= m1) by lia.
  assert (Hm1hi : m1 * 2 ^ (e1 - E) <= M + 2 ^ (e1 - E)).
  { destruct Hm1 as [->| ->]; lia. }
  assert (Hm1M : m1 <= M + 1).
  { assert (M / 2 ^ (e1 - E) <= M); [|lia].
    apply Z.div_le_upper_bound; [exact Hp1|]. nia. }
  assert (Hd1 : Zdigits2 m1 <= 107).
  { apply Zdigits2_le; [lia| |lia].
    change (2 ^ 107) with 162259276829213363391578010288128. lia. }
  assert (He2 : e1 <= e2 <= emax - prec).
  { subst e2. unfold fexp, SpecFloat.emin, prec, emax. lia. }
  assert (Hp2 : 0 < 2 ^ (e2 - e1)) by (apply Z.pow_pos_nonneg; lia).
  assert (Hq2 : m1 / 2 ^ (e2 - e1) * 2 ^ (e2 - e1) <= m1).
  { rewrite Z.mul_comm. apply Z.mul_div_le. exact Hp2. }
  assert (Hq20 : 0 <= m1 / 2 ^ (e2 - e1)) by (apply Z.div_pos; lia).
  assert (Hsum : M + 2 ^ (e1 - E) < 5 * 2 ^ (- E)).
  { rewrite HE, HM. clear - Hm Hcorner HK Hs1.
    destruct HK as [[-> He]|HK]; [specialize (Hcorner He)|]; lia. }
  assert (Hfin : m1 / 2 ^ (e2 - e1) * 2 ^ (e2 - E) < 5 * 2 ^ (- E)).
  { replace (e2 - E) with ((e2 - e1) + (e1 - E)) by lia.
    rewrite Z.pow_add_r by lia.
    apply Z.le_lt_trans with (m := m1 * 2 ^ (e1 - E)); [|lia].
    rewrite Z.mul_assoc. apply Z.mul_le_mono_nonneg_r; lia. }
  destruct (m1 / 2 ^ (e2 - e1)) as [|p|p] eqn:Hm2; [| |lia].
  - exists 0. split; [reflexivity|lia].
  - replace (e2 <=? emax - prec) with true
      by (symmetry; apply Z.leb_le; lia).
    cbn [sf_floor]. eexists. split; [reflexivity|].
    split; [apply Z.shiftl_nonneg; lia|].
    assert (Hlt : Z.shiftl (Zpos p) e2 < 5).
    { apply shiftl_below with (E := E); subst E; lia. }
    lia.
Qed.

(** [Math.floor(u * 5)] is one of 0, ..., 4 for [u] in [[0, 1)]. *)
Lemma SFmul_five_floor (x : spec_float) :
  valid_binary x = true ->
  SFleb (S754_zero false) x = true -> SFltb x sf_one = true ->
  exists k, sf_floor (SFmul prec emax x sf_five) = Some k /\ 0 <= k <= 4.
Proof.
  intros Hv H0 H1.
  destruct (unit_interval_inv x Hv H0 H1)
    as [[s ->]|(m & e & -> & Hm & He)].
  { exists 0. split; [reflexivity|lia]. }
  change (2 ^ 53) with 9007199254740992 in Hm.
  destruct (Z.eq_dec (Zpos m) 9007199254740991) as [Hm53|Hm53];
    [destruct (Z.eq_dec e (-53)) as [He53|He53]|].
  - injection Hm53 as ->. subst e.
    exists 4. split; [exact SFmul_pred_one_five|lia].
  - cbn [SFmul sf_five xorb]. apply round_product_below_five; lia.
  - cbn [SFmul sf_five xorb]. apply round_product_below_five; lia.
Qed.

Lemma digits2_pos_shift_52 (m : positive) :
  Zpos (digits2_pos (4503599627370496 * m)) = Zpos (digits2_pos m) + 52.
Proof. cbn [Pos.mul digits2_pos]. rewrite !Pos2Z.inj_succ. lia. Qed.

(** Multiplying by 1 is exact. *)
Lemma SFmul_one_r (x : spec_float) :
  valid_binary x = true -> SFmul prec emax x sf_one = x.
Proof.
  intros Hv. destruct x as [s|s| |s m e]; cbn [SFmul sf_one].
  - rewrite xorb_false_r. reflexivity.
  - rewrite xorb_false_r. reflexivity.
  - reflexivity.
  - rewrite xorb_false_r.
    cbn [valid_binary] in Hv. unfold bounded, canonical_mantissa in Hv.
    apply andb_prop in Hv. destruct Hv as [Hc Hb].
    apply Z.eqb_eq in Hc.
    rewrite Pos.mul_comm.
    unfold binary_round_aux, shr_fexp. cbn [Zdigits2].
    rewrite digits2_pos_shift_52.
    replace (Zpos (digits2_pos m) + 52 + (e + -52))
      with (Zpos (digits2_pos m) + e) by lia.
    rewrite Hc. replace (e - (e + -52)) with 52 by lia.
    cbn [Pos.mul shr shr_record_of_loc iter_pos shr_1 orb shr_m
         loc_of_shr_record round_nearest_even Zdigits2].
    replace (e + -52 + 52) with e by lia.
    rewrite Hc, Z.sub_diag. cbn [shr shr_m]. rewrite Hb. reflexivity.
Qed.

(** *** Signs *)

Lemma sf_nonneg_cases (x : spec_float) :
  sf_nonneg x = true ->
  (exists s, x = S754_zero s) \/ x = S754_infinity false
  \/ (exists m e, x = S754_finite false m e).
Proof.
  destruct x as [s|[]| |[] m e]; try discriminate; intros _; eauto.
Qed.

Lemma binary_round_aux_nonneg (m e : Z) :
  0 <= m -> sf_nonneg (binary_round_aux prec emax false m e loc_Exact) = true.
Proof.
  intros Hm. destruct (binary_round_aux_exact false e Hm) as (m1 & Hm1 & Heq).
  cbv zeta in Heq. rewrite Heq. clear Heq.
  set (e1 := Z.max e (fexp prec emax (Zdigits2 m + e))) in *.
  set (e2 := Z.max e1 (fexp prec emax (Zdigits2 m1 + e1))).
  assert (H0 : 0 <= m / 2 ^ (e1 - e)).
  { apply Z.div_pos; [exact Hm|]. apply Z.pow_pos_nonneg; lia. }
  assert (H1 : 0 <= m1 / 2 ^ (e2 - e1)).
  { apply Z.div_pos; [lia|]. apply Z.pow_pos_nonneg; lia. }
  destruct (m1 / 2 ^ (e2 - e1)) as [|q|q]; [reflexivity| |lia].
  destruct (e2 <=? emax - prec); reflexivity.
Qed.

Lemma SFmul_nonneg (x y : spec_float) :
  sf_nonneg x = true -> sf_nonneg y = true ->
  (exists m e, y = S754_finite false m e) ->
  sf_nonneg (SFmul prec emax x y) = true.
Proof.
  intros Hx _ (my & ey & ->).
  destruct (sf_nonneg_cases x Hx) as [[s ->]|[->|(mx & ex & ->)]];
    cbn [SFmul xorb]; try reflexivity.
  apply binary_round_aux_nonneg. lia.
Qed.

Lemma SFadd_nonneg (x y : spec_float) :
  sf_nonneg x = true -> sf_nonneg y = true ->
  sf_nonneg (SFadd prec emax x y) = true.
Proof.
  intros Hx Hy.
  destruct (sf_nonneg_cases x Hx) as [[sx ->]|[->|(mx & ex & ->)]];
    destruct (sf_nonneg_cases y Hy) as [[sy ->]|[->|(my & ey & ->)]];
    cbn [SFadd]; try reflexivity.
  - destruct sx, sy; reflexivity.
  - cbn [cond_Zopp Z.add binary_normalize]. unfold binary_round.
    destruct (shl_align _ _ _) as [mz ez].
    apply binary_round_aux_nonneg. lia.
Qed.

(** Nothing above a non-negative number is below a non-positive one. *)
Lemma SFltb_above_nonneg (c x y : spec_float) :
  sf_nonneg c = true -> SFltb c x = true -> sf_nonneg y = true ->
  SFltb x (SFopp y) = false.
Proof.
  intros Hc Hlt Hy.
  destruct (sf_nonneg_cases c Hc) as [[sc ->]|[->|(mc & ec & ->)]];
    destruct (sf_nonneg_cases y Hy) as [[sy ->]|[->|(my & ey & ->)]];
    destruct x as [sx|[]| |[] mx ex]; try discriminate Hlt; reflexivity.
Qed.

Lemma SFltb_irrefl (x : spec_float) : SFltb x x = false.
Proof.
  unfold SFltb. destruct x as [s|[]| |[] m e]; cbn [SFcompare];
    try reflexivity;
    rewrite Z.compare_refl, Pos.compare_cont_refl; reflexivity.
Qed.

Lemma SFeqb_refl_finite (x : spec_float) :
  x <> S754_nan -> SFeqb x x = true.
Proof.
  unfold SFeqb. destruct x as [s|[]| |[] m e]; cbn [SFcompare];
    try reflexivity; try congruence; intros _;
    rewrite Z.compare_refl, Pos.compare_cont_refl; reflexivity.
Qed.
End Binary64.

(** *** The same facts on [float] *)

Section FloatFacts.
Open Scope float_scope.

Lemma float_mul_one (x : float) : x * 1 = x.
Proof.
  apply Prim2SF_inj. rewrite mul_spec.
  change (Prim2SF 1) with sf_one.
  apply SFmul_one_r, Prim2SF_valid.
Qed.

Lemma float_ltb_irrefl (x : float) : (x <? x) = false.
Proof. rewrite ltb_spec. apply SFltb_irrefl. Qed.

(** [Math.floor(u * 5)] is one of 0, ..., 4 when [0 <= u < 1]. *)
Lemma float_floor_mul_five (u : float) :
  (0 <=? u) = true -> (u <? 1) = true ->
  exists k, float_floor (u * 5) = Some k /\ (0 <= k <= 4)%Z.
Proof.
  intros H0 H1. unfold float_floor. rewrite mul_spec.
  change (Prim2SF 5) with sf_five.
  apply SFmul_five_floor.
  - apply Prim2SF_valid.
  - rewrite leb_spec in H0. exact H0.
  - rewrite ltb_spec in H1. exact H1.
Qed.

Lemma float_add_nonneg (x y : float) :
  (0 <=? x) = true -> (0 <=? y) = true -> (0 <=? x + y) = true.
Proof.
  rewrite !leb_spec, add_spec. apply SFadd_nonneg.
Qed.

Lemma float_mul_two_nonneg (x : float) :
  (0 <=? x) = true -> (0 <=? x * 2) = true.
Proof.
  rewrite !leb_spec, mul_spec. intros Hx.
  apply SFmul_nonneg; [exact Hx|reflexivity|].
  eexists _, _. reflexivity.
Qed.

Lemma float_above_nonneg (c x y : float) :
  (0 <=? c) = true -> (c <? x) = true -> (0 <=? y) = true ->
  (x <? - y) = false.
Proof.
  rewrite !leb_spec, !ltb_spec, opp_spec. apply SFltb_above_nonneg.
Qed.

(** The end points of [lerp], for finite numbers, under [==]. *)
Lemma lerp_float_endpoints (a b : float) :
  is_finite_number a = true -> is_finite_number b = true ->
  (lerp a b 0 =? a) = true /\ (lerp a b 1 =? b) = true.
Proof.
  unfold is_finite_number, lerp.
  cbn [n_add n_mul n_sub n_of_Z float_arith].
  change (float_of_Z 1 - 0) with 1. change (float_of_Z 1 - 1) with 0.
  rewrite !float_mul_one, !eqb_spec, !add_spec, !mul_spec.
  change (Prim2SF 0) with (S754_zero false).
  unfold SF64add, SF64mul.
  destruct (Prim2SF a) as [sa|sa| |sa ma ea]; try discriminate;
    destruct (Prim2SF b) as [sb|sb| |sb mb eb]; try discriminate;
    intros _ _; cbn [SFmul SFadd]; split;
    try (apply SFeqb_refl_finite; discriminate);
    destruct sa, sb; reflexivity.
Qed.
End FloatFacts.

(** ** The frame: who reads which pointer *)

Section Frame.
Context {num : Type} `{Arith num} `{Trig num}.

Lemma non_null_before_mouse (p : Particle num) :
  non_null p -> exists q, before_mouse p = Some q.
Proof.
  intros [rgb Hrgb]. unfold before_mouse, color_step. rewrite Hrgb.
  eexists. reflexivity.
Qed.

(** One [update()]: the pointer is eased, and the particle's remaining
    steps read the eased pointer. *)
Lemma update_reads_eased (w : World num) (p q : Particle num) :
  before_mouse p = Some q ->
  let m := ease_mouse (w_targetMouse w) (w_mouse w) in
  update w p
  = Ok (with_mouse w m)
       (wrap_step (w_width w) (w_height w) (radius_step (repel_step m q))).
Proof. intros Hq. unfold update. rewrite Hq. reflexivity. Qed.

Lemma update_as_after_easing (w : World num) (p q : Particle num) :
  before_mouse p = Some q ->
  let m := ease_mouse (w_targetMouse w) (w_mouse w) in
  update w p
  = Ok (with_mouse w m) (after_easing (w_width w) (w_height w) m q).
Proof. intros Hq. exact (update_reads_eased w p Hq). Qed.

Lemma ease_mouse_times_succ (k : nat) (t : num * num) (m : Mouse num) :
  ease_mouse_times (S k) t m = ease_mouse t (ease_mouse_times k t m).
Proof.
  revert m. induction k as [|k IH]; intros m; [reflexivity|].
  change (ease_mouse_times (S (S k)) t m)
    with (ease_mouse_times (S k) t (ease_mouse t m)).
  rewrite IH. reflexivity.
Qed.

(** The loop of a frame: the call for the particle at index [k] runs its
    repulsion on the pointer eased [k + 1] times. *)
Lemma update_and_draw_reads (ps : list (Particle num)) :
  Forall non_null ps ->
  forall w : World num,
  exists w' ps',
    update_and_draw w ps = Ok (w', ps') tt
    /\ w_mouse w'
       = ease_mouse_times (List.length ps) (w_targetMouse w) (w_mouse w)
    /\ List.length ps' = List.length ps
    /\ forall (k : nat) (p : Particle num),
         nth_error ps k = Some p ->
         exists q,
           before_mouse p = Some q
           /\ nth_error ps' k
              = Some (after_easing
                        (w_width w) (w_height w)
                        (ease_mouse_times (S k) (w_targetMouse w) (w_mouse w))
                        q).
Proof.
  induction 1 as [|p rest Hp Hrest IH]; intros w.
  - exists w, []. repeat apply conj; try reflexivity.
    intros [|k] p0 Hk; discriminate Hk.
  - destruct (non_null_before_mouse Hp) as [q Hq].
    cbn [update_and_draw]. rewrite (update_as_after_easing w p Hq). cbv zeta.
    set (m1 := ease_mouse (w_targetMouse w) (w_mouse w)).
    set (p1 := after_easing _ _ m1 q).
    destruct (IH (draw (with_mouse w m1) p1))
      as (w' & ps' & Heq & Hm & Hlen & Hread).
    rewrite Heq. exists w', (p1 :: ps').
    repeat apply conj.
    + reflexivity.
    + exact Hm.
    + cbn [List.length]. rewrite Hlen. reflexivity.
    + intros [|k] p0 Hk.
      * cbn [nth_error] in Hk. inversion Hk as [Hp0]. rewrite <- Hp0.
        exists q. split; [exact Hq|reflexivity].
      * cbn [nth_error] in Hk. destruct (Hread k p0 Hk) as (q0 & Hq0 & Hnth).
        exists q0. split; [exact Hq0|]. cbn [nth_error]. exact Hnth.
Qed.

(** C1, as the code has it: the easing of the smoothed pointer is part of
    every [update()], so a frame eases it once per particle, not once.  A
    frame on a pool without a null target colour returns, and the particle
    at pool index [k] leaves it as the steps after the easing leave it when
    they run, repulsion included, on the pointer eased [k + 1] times from
    its value at the start of the frame: one easing more than the particle
    before it.  The frame leaves the pointer eased once per particle. *)
Theorem frame_eases_pointer_per_particle (w : World num) :
  Forall non_null (w_particles w) ->
  exists w',
    animate w = Ok w' tt
    /\ List.length (w_particles w') = List.length (w_particles w)
    /\ (forall (k : nat) (p : Particle num),
           nth_error (w_particles w) k = Some p ->
           exists q,
             before_mouse p = Some q
             /\ nth_error (w_particles w') k
                = Some (after_easing
                          (w_width w) (w_height w)
                          (ease_mouse_times (S k) (w_targetMouse w) (w_mouse w))
                          q))
    /\ (forall k : nat,
           ease_mouse_times (S k) (w_targetMouse w) (w_mouse w)
           = ease_mouse (w_targetMouse w)
                        (ease_mouse_times k (w_targetMouse w) (w_mouse w)))
    /\ w_mouse w'
       = ease_mouse_times (List.length (w_particles w))
                          (w_targetMouse w) (w_mouse w).
Proof.
  intros Hall. unfold animate.
  destruct (update_and_draw_reads Hall (with_canvas w []))
    as (w' & ps' & Heq & Hm & Hlen & Hread).
  rewrite Heq. exists (with_particles w' ps').
  repeat apply conj.
  - reflexivity.
  - exact Hlen.
  - exact Hread.
  - intros k. apply ease_mouse_times_succ.
  - exact Hm.
Qed.
End Frame.

Lemma two_blobs_non_null : Forall non_null (w_particles two_blobs).
Proof.
  vm_compute w_particles.
  repeat constructor; eexists; reflexivity.
Qed.

Lemma near_blobs_non_null : Forall non_null (w_particles near_blobs).
Proof. exact two_blobs_non_null. Qed.

(** Two particles that enter a frame equal, at the same place with the same
    velocity, both within the interaction radius of the pointer.  The first
    call eases the pointer to (160, 410) and repels its particle from
    there; the second eases it again, to (169, 419), and repels its particle
    from there: the two leave the frame with different velocities, and the
    pointer has been eased twice.  (Evaluated with [poly_trig] as the
    host's trigonometry.) *)
Lemma frame_reads_two_pointers :
  let w := near_blobs in
  let m1 := mkMouse 160%float 410%float true in
  let m2 := mkMouse 169%float 419%float true in
  nth_error (w_particles w) 0 = nth_error (w_particles w) 1
  /\ ease_mouse (w_targetMouse w) (w_mouse w) = m1
  /\ ease_mouse (w_targetMouse w) m1 = m2
  /\ exists q,
       option_map (@before_mouse float _ poly_trig) (nth_error (w_particles w) 0)
       = Some (Some q)
       /\ (@pointer_distance float _ m1 q <? 300)%float = true
       /\ (@pointer_distance float _ m2 q <? 300)%float = true
       /\ (@pointer_distance float _ m1 q =? @pointer_distance float _ m2 q)%float
          = false
       /\ option_map w_particles
            (match @animate float _ poly_trig w with
             | Ok w' _ => Some w'
             | Throw _ => None
             end)
          = Some [@after_easing float _ poly_trig 800%float 600%float m1 q;
                  @after_easing float _ poly_trig 800%float 600%float m2 q]
       /\ (p_vx (@after_easing float _ poly_trig 800%float 600%float m1 q)
           =? p_vx (@after_easing float _ poly_trig 800%float 600%float m2 q))%float
          = false
       /\ w_mouse (state_of (@animate float _ poly_trig w)) = m2.
Proof.
  cbv zeta. vm_compute.
  repeat apply conj; try reflexivity.
  eexists. repeat apply conj; reflexivity.
Qed.

(** The pointers read are these whatever the host's trigonometric functions
    are. *)
Lemma near_blobs_reads_any_host (T : Trig float) :
  exists w' q,
    animate near_blobs = Ok w' tt
    /\ option_map before_mouse (nth_error (w_particles near_blobs) 0)
       = Some (Some q)
    /\ w_particles w'
       = [after_easing 800%float 600%float
                       (mkMouse 160%float 410%float true) q;
          after_easing 800%float 600%float
                       (mkMouse 169%float 419%float true) q]
    /\ w_mouse w' = mkMouse 169%float 419%float true.
Proof.
  destruct (update_and_draw_reads near_blobs_non_null
              (with_canvas near_blobs []))
    as (w' & ps' & Heq & Hm & Hlen & Hread).
  assert (H01 : nth_error (w_particles near_blobs) 1
                = nth_error (w_particles near_blobs) 0)
    by (vm_compute; reflexivity).
  pose proof (Hread 1%nat) as Hread1. specialize (Hread 0%nat).
  rewrite H01 in Hread1.
  destruct (nth_error (w_particles near_blobs) 0) as [p0|] eqn:Hp0;
    [|vm_compute in Hp0; discriminate Hp0].
  destruct (Hread p0 eq_refl) as (q0 & Hq0 & Hn0).
  destruct (Hread1 p0 eq_refl) as (q1 & Hq1 & Hn1).
  assert (Hsame : q1 = q0).
  { rewrite Hq0 in Hq1. inversion Hq1. reflexivity. }
  exists (with_particles w' ps'), q0. unfold animate. rewrite Heq.
  repeat apply conj.
  - reflexivity.
  - cbn [option_map]. rewrite Hq0. reflexivity.
  - destruct ps' as [|r0 [|r1 [|r2 rest]]]; try discriminate Hlen.
    cbn [nth_error] in Hn0, Hn1. inversion Hn0 as [H0]. inversion Hn1 as [H1].
    rewrite Hsame. reflexivity.
  - exact Hm.
Qed.

Lemma frame_eases_pointer_twice :
  exists w',
    @animate float _ poly_trig near_blobs = Ok w' tt
    /\ w_mouse w' = mkMouse 169%float 419%float true.
Proof.
  destruct (@frame_eases_pointer_per_particle float _ poly_trig near_blobs
              near_blobs_non_null) as (w' & Hok & _ & _ & _ & Hm).
  exists w'. split; [exact Hok|exact Hm].
Defined.

(** ** [lerp]: the claims *)

(** In binary64 the interpolation is not monotone in [t]: between two
    adjacent values of [t] the result goes down.  And with an infinite end
    the other end point is lost: [Infinity * 0] is [NaN]. *)
Lemma lerp_binary64_not_monotone :
  ((1 <? 2) = true
   /\ (0 <=? 0.2) = true
   /\ (0.2 <? 0.20000000000000004) = true
   /\ (0.20000000000000004 <=? 1) = true
   /\ lerp 1 2 0.2 = 1.2000000000000002
   /\ lerp 1 2 0.20000000000000004 = 1.2
   /\ (lerp 1 2 0.20000000000000004 <? lerp 1 2 0.2) = true
   /\ lerp 1 infinity 0 = nan
   /\ (lerp 1 infinity 0 =? 1) = false)%float.
Proof. vm_compute. repeat split; reflexivity. Qed.

(** C9 (as amended): [lerp(a, b, t)] is [a * (1 - t) + b * t] with the
    program's number operations; [lerp(a, b, 0) == a] and
    [lerp(a, b, 1) == b] for all finite binary64 [a] and [b]; and over exact
    arithmetic both end points are exact and the result is non-decreasing
    in [t] on [[0, 1]] whenever [a < b]. *)
Theorem lerp_endpoints_and_exact_monotone :
  (forall (num : Type) (A : Arith num) (a b t : num),
      lerp a b t = (a * (n_of_Z 1 - t) + b * t)%num)
  /\ (forall a b : float,
         is_finite_number a = true -> is_finite_number b = true ->
         (lerp a b 0 =? a)%float = true /\ (lerp a b 1 =? b)%float = true)
  /\ (forall a b : R, lerp a b 0%R = a /\ lerp a b 1%R = b)
  /\ (forall a b t1 t2 : R,
         (a < b)%R -> (0 <= t1)%R -> (t1 <= t2)%R -> (t2 <= 1)%R ->
         (lerp a b t1 <= lerp a b t2)%R).
Proof.
  repeat apply conj.
  - reflexivity.
  - exact lerp_float_endpoints.
  - intros a b. rewrite !lerp_real. split; lra.
  - intros a b t1 t2 Hab _ Ht _. apply lerp_real_monotone; assumption.
Qed.

Lemma lerp_endpoints_and_exact_monotone_at :
  ((lerp 3 7 0 =? 3)%float = true /\ (lerp 3 7 1 =? 7)%float = true)
  /\ (lerp 1 2 (2 / 10) <= lerp 1 2 (5 / 10))%R.
Proof.
  destruct lerp_endpoints_and_exact_monotone as (_ & Hfloat & _ & Hmono).
  split.
  - apply Hfloat; reflexivity.
  - apply Hmono; lra.
Defined.

(** ** The colour easing: the claims *)

(** In binary64 a channel that sits on its target leaves it: the green-blue
    of palette Joy has red channel 6, and one easing step from 6 toward 6
    gives 5.999999999999999, off the bound [|6 - 6| * 0.95]. *)
Lemma ease_binary64_leaves_target :
  @hexToRgb float _ "#06D6A0" = Some (mkRgb 6 214 160)%float
  /\ (ease_channel 6 6 = 5.999999999999999)%float
  /\ (ease_channel 6 6 =? 6)%float = false
  /\ (abs (6 - 6) * 0.95 <? abs (ease_channel 6 6 - 6))%float = true.
Proof. vm_compute. repeat split; reflexivity. Qed.

Lemma ease_binary64_channels :
  forallb (fun c => (abs (ease_channel (float_of_Z c) (float_of_Z c)
                          - float_of_Z c) <=? 0x1p-45)%float)
          channel_values = true.
Proof. vm_compute. reflexivity. Qed.

(** C8 (as amended): over exact arithmetic, [n] easing steps leave a gap of
    at most [|initial - target| * 0.95^n] (exactly that), and the target is
    a fixed point of a step; in binary64 a step from an 8-bit channel value
    toward itself stays within [2^-45] of it. *)
Theorem ease_converges_exact (n : nat) (target current : R) :
  (Rabs (ease_frames n target current - target)
   <= Rabs (current - target) * (95 / 100) ^ n)%R
  /\ ease_channel target target = target
  /\ forall c : Z,
       In c channel_values ->
       (abs (ease_channel (float_of_Z c) (float_of_Z c) - float_of_Z c)
        <=? 0x1p-45)%float = true.
Proof.
  repeat apply conj.
  - rewrite ease_frames_gap, Rabs_mult.
    rewrite (Rabs_pos_eq ((95 / 100) ^ n)); [lra|].
    apply pow_le. lra.
  - pose proof (ease_channel_gap target target) as Hgap. lra.
  - intros c Hc. pose proof ease_binary64_channels as Hall.
    rewrite forallb_forall in Hall. exact (Hall c Hc).
Qed.

Lemma ease_converges_exact_at :
  (abs (ease_channel 6 6 - 6) <=? 0x1p-45)%float = true.
Proof.
  destruct (ease_converges_exact 3 255 0) as (_ & _ & Hbin).
  apply (Hbin 6%Z). vm_compute. tauto.
Defined.

(** ** The repulsion *)

Section ExactTrig.
Open Scope R_scope.

Lemma cos_sin_atan (t : R) :
  cos (atan t) = 1 / R_sqrt.sqrt (1 + t * t)
  /\ sin (atan t) = t / R_sqrt.sqrt (1 + t * t).
Proof.
  pose proof (atan_bound t) as [Hlo Hhi].
  pose proof (tan_atan t) as Htan.
  set (th := atan t) in *.
  assert (Hc : 0 < cos th) by (apply cos_gt_0; lra).
  assert (Hs : sin th = t * cos th).
  { unfold tan in Htan. rewrite <- Htan. field. lra. }
  pose proof (sin2_cos2 th) as Hone. unfold Rsqr in Hone.
  rewrite Hs in Hone.
  assert (Hci : cos th * / cos th = 1) by (apply Rinv_r; lra).
  assert (Hsq : 1 + t * t = Rsqr (/ cos th)).
  { unfold Rsqr.
    replace (1 + t * t)
      with ((t * cos th * (t * cos th) + cos th * cos th)
            * (/ cos th * / cos th)) by (field; lra).
    rewrite Hone. ring. }
  assert (Hroot : R_sqrt.sqrt (1 + t * t) = / cos th).
  { rewrite Hsq. apply sqrt_Rsqr. left. apply Rinv_0_lt_compat. exact Hc. }
  rewrite Hs, Hroot. split; field; lra.
Qed.

Lemma sqrt_sum_scaled (x y : R) :
  x <> 0 ->
  R_sqrt.sqrt (x * x + y * y)
  = Rabs x * R_sqrt.sqrt (1 + (y / x) * (y / x)).
Proof.
  intros Hx.
  replace (x * x + y * y) with (Rsqr x * (1 + (y / x) * (y / x))).
  2:{ unfold Rsqr. field. exact Hx. }
  rewrite sqrt_mult; [|apply Rle_0_sqr|nra].
  rewrite sqrt_Rsqr_abs. reflexivity.
Qed.

(** [Math.atan2(y, x)] is the angle of [(x, y)]: with the distance it gives
    the point back. *)
Lemma Ratan2_polar (x y : R) :
  R_sqrt.sqrt (x * x + y * y) * cos (Ratan2 y x) = x
  /\ R_sqrt.sqrt (x * x + y * y) * sin (Ratan2 y x) = y.
Proof.
  unfold Ratan2.
  destruct (Rlt_dec 0 x) as [Hpos|Hnpos].
  - destruct (cos_sin_atan (y / x)) as [Hc Hs]. rewrite Hc, Hs.
    rewrite sqrt_sum_scaled by lra. rewrite Rabs_pos_eq by lra.
    assert (Hr : 0 < R_sqrt.sqrt (1 + y / x * (y / x))).
    { apply sqrt_lt_R0. nra. }
    split; field; lra.
  - destruct (Rlt_dec x 0) as [Hneg|Hnneg].
    + destruct (cos_sin_atan (y / x)) as [Hc Hs].
      assert (Hr : 0 < R_sqrt.sqrt (1 + y / x * (y / x))).
      { apply sqrt_lt_R0. nra. }
      rewrite sqrt_sum_scaled by lra. rewrite Rabs_left by lra.
      destruct (Rle_dec 0 y).
      * rewrite neg_cos, neg_sin, Hc, Hs. split; field; lra.
      * unfold Rminus. rewrite cos_plus, sin_plus, cos_neg, sin_neg.
        rewrite cos_PI, sin_PI, Hc, Hs. split; field; lra.
    + assert (Hx : x = 0) by lra. subst x.
      rewrite Rmult_0_l, Rplus_0_l.
      destruct (Rlt_dec 0 y) as [Hy|Hy].
      * rewrite cos_PI2, sin_PI2, sqrt_square by lra. split; lra.
      * destruct (Rlt_dec y 0) as [Hy'|Hy'].
        -- rewrite cos_neg, sin_neg, cos_PI2, sin_PI2.
           replace (y * y) with ((- y) * (- y)) by ring.
           rewrite sqrt_square by lra. split; lra.
        -- assert (Hy0 : y = 0) by lra. subst y.
           rewrite Rmult_0_l, sqrt_0. split; lra.
Qed.
End ExactTrig.

Section Repulsion.
Context {num : Type} `{Arith num} `{Trig num}.

Lemma repel_step_inactive (m : Mouse num) (q : Particle num) :
  m_isActive m = false -> repel_step m q = q.
Proof. unfold repel_step. intros ->. reflexivity. Qed.

Lemma repel_step_far (m : Mouse num) (q : Particle num) :
  (pointer_distance m q <? forceRadius)%num = false -> repel_step m q = q.
Proof.
  unfold repel_step. intros ->. destruct (m_isActive m); reflexivity.
Qed.

Lemma repel_step_near (m : Mouse num) (q : Particle num) :
  m_isActive m = true ->
  (pointer_distance m q <? forceRadius)%num = true ->
  let force := ((forceRadius - pointer_distance m q) / forceRadius)%num in
  let a := n_atan2 (m_y m - p_y q)%num (m_x m - p_x q)%num in
  repel_step m q
  = with_vel q (p_vx q - n_cos a * force * n_of_Z 1)%num
               (p_vy q - n_sin a * force * n_of_Z 1)%num.
Proof. unfold repel_step. intros -> ->. reflexivity. Qed.

(** The velocity [update()] leaves is the one the repulsion leaves. *)
Lemma update_velocity (w : World num) (p q : Particle num) :
  before_mouse p = Some q ->
  exists w' p',
    update w p = Ok w' p'
    /\ w_mouse w' = ease_mouse (w_targetMouse w) (w_mouse w)
    /\ p_vx p' = p_vx (repel_step (w_mouse w') q)
    /\ p_vy p' = p_vy (repel_step (w_mouse w') q).
Proof.
  intros Hq. rewrite (update_reads_eased w p Hq). cbv zeta.
  eexists _, _. repeat apply conj; reflexivity.
Qed.
End Repulsion.

Lemma Rltb_true (a b : R) : Rltb a b = true <-> (a < b)%R.
Proof. unfold Rltb. destruct (Rlt_dec a b); split; auto; discriminate. Qed.

(** Over exact arithmetic the velocity change points from the pointer to
    the particle and has the length of the force. *)
Lemma repel_step_exact (m : Mouse R) (q : Particle R) :
  m_isActive m = true ->
  let d := pointer_distance m q in
  (d < 300)%R ->
  let force := ((300 - d) / 300 * 1)%R in
  let dvx := (p_vx (repel_step m q) - p_vx q)%R in
  let dvy := (p_vy (repel_step m q) - p_vy q)%R in
  (d * dvx = force * (p_x q - m_x m))%R
  /\ (d * dvy = force * (p_y q - m_y m))%R
  /\ R_sqrt.sqrt (dvx * dvx + dvy * dvy) = force
  /\ (0 < force)%R.
Proof.
  intros Hact d Hd force dvx dvy.
  assert (Hnear : (pointer_distance m q <? forceRadius)%num = true).
  { apply Rltb_true. exact Hd. }
  subst dvx dvy. rewrite (repel_step_near m q Hact Hnear). cbv zeta.
  cbn [p_vx p_vy with_vel].
  destruct (Ratan2_polar (m_x m - p_x q) (m_y m - p_y q)) as [Hc Hs].
  fold d.
  set (a := n_atan2 _ _). 
  change (n_atan2 (m_y m - p_y q)%num (m_x m - p_x q)%num)
    with (Ratan2 (m_y m - p_y q) (m_x m - p_x q)) in a.
  cbn [n_cos n_sin n_sub n_mul n_div n_of_Z real_trig real_arith forceRadius].
  unfold forceRadius. cbn [n_of_Z real_arith].
  assert (Hd' : d = R_sqrt.sqrt ((m_x m - p_x q) * (m_x m - p_x q)
                                 + (m_y m - p_y q) * (m_y m - p_y q)))
    by reflexivity.
  rewrite <- Hd' in Hc, Hs. fold a in Hc, Hs.
  assert (Hf : (0 < force)%R) by (subst force; lra).
  repeat apply conj.
  - fold force. 
    replace (p_vx q - cos a * ((300 - d) / 300) * 1 - p_vx q)%R
      with (- (cos a * force))%R by (subst force; lra).
    nra.
  - replace (p_vy q - sin a * ((300 - d) / 300) * 1 - p_vy q)%R
      with (- (sin a * force))%R by (subst force; lra).
    nra.
  - replace (p_vx q - cos a * ((300 - d) / 300) * 1 - p_vx q)%R
      with (- (cos a * force))%R by (subst force; lra).
    replace (p_vy q - sin a * ((300 - d) / 300) * 1 - p_vy q)%R
      with (- (sin a * force))%R by (subst force; lra).
    replace (- (cos a * force) * - (cos a * force)
             + - (sin a * force) * - (sin a * force))%R
      with (Rsqr force * (Rsqr (sin a) + Rsqr (cos a)))%R
      by (unfold Rsqr; ring).
    rewrite sin2_cos2, Rmult_1_r. apply sqrt_Rsqr. lra.
  - exact Hf.
Qed.

(** In binary64 the direction is only approximate.  The pointer at (3, 4),
    active, and a particle at rest at the origin: the distance is 5, below
    300, and the force is [(300 - 5) / 300].  With the host's correctly
    rounded [atan2], [cos] and [sin] the repulsion leaves the velocity
    (-0.5900000000000001, -0.7866666666666665): [d * dvx] and
    [force * (x - mouse.x)] differ, and so do the two for [y]; and the
    velocity change, taken exactly, is not along the line from the pointer
    to the particle, since [4 * dvx] is not [3 * dvy]. *)
Lemma repulsion_binary64_off_line :
  let m := pointer_3_4_b64 in
  let q := blob_at_origin_b64 in
  let q' := @repel_step float _ host_trig_3_4 m q in
  let d := @pointer_distance float _ m q in
  let force := ((300 - d) / 300 * 1)%float in
  let dvx := (p_vx q' - p_vx q)%float in
  let dvy := (p_vy q' - p_vy q)%float in
  m_isActive m = true
  /\ d = 5%float
  /\ (d <? 300)%float = true
  /\ force = 0.9833333333333333%float
  /\ dvx = (-0.5900000000000001)%float
  /\ dvy = (-0.7866666666666665)%float
  /\ (d * dvx)%float = (-2.95)%float
  /\ (force * (p_x q - m_x m))%float = (-2.9499999999999997)%float
  /\ (d * dvx =? force * (p_x q - m_x m))%float = false
  /\ (d * dvy =? force * (p_y q - m_y m))%float = false
  /\ Prim2SF dvx = S754_finite true 0x12e147ae147ae2 (-53)
  /\ Prim2SF dvy = S754_finite true 0x192c5f92c5f92b (-53)
  /\ (4 * 0x12e147ae147ae2 =? 3 * 0x192c5f92c5f92b)%Z = false.
Proof. vm_compute. repeat apply conj; reflexivity. Qed.

(** C2 (as amended): in every [update()] the velocity left is the one the
    repulsion step leaves, reading the pointer as just eased; with the
    pointer inactive the step changes nothing, whatever the distance; with
    the distance not below 300 it changes nothing; with the pointer active
    and the distance [d < 300] it subtracts
    [(cos a, sin a) * ((300 - d) / 300) * 1] with [a = atan2(dy, dx)] the
    angle from the particle to the pointer, in any arithmetic; and over
    exact real arithmetic that change points from the pointer to the
    particle with length [(300 - d) / 300] times the force constant 1. *)
Theorem repulsion_law :
  (forall (num : Type) (A : Arith num) (T : Trig num)
          (w : World num) (p q : Particle num),
      before_mouse p = Some q ->
      exists w' p',
        update w p = Ok w' p'
        /\ w_mouse w' = ease_mouse (w_targetMouse w) (w_mouse w)
        /\ p_vx p' = p_vx (repel_step (w_mouse w') q)
        /\ p_vy p' = p_vy (repel_step (w_mouse w') q))
  /\ (forall (num : Type) (A : Arith num) (T : Trig num)
             (m : Mouse num) (q : Particle num),
         m_isActive m = false -> repel_step m q = q)
  /\ (forall (num : Type) (A : Arith num) (T : Trig num)
             (m : Mouse num) (q : Particle num),
         (pointer_distance m q <? forceRadius)%num = false ->
         repel_step m q = q)
  /\ (forall (num : Type) (A : Arith num) (T : Trig num)
             (m : Mouse num) (q : Particle num),
         m_isActive m = true ->
         (pointer_distance m q <? forceRadius)%num = true ->
         let force := ((forceRadius - pointer_distance m q) / forceRadius)%num in
         let a := n_atan2 (m_y m - p_y q)%num (m_x m - p_x q)%num in
         repel_step m q
         = with_vel q (p_vx q - n_cos a * force * n_of_Z 1)%num
                      (p_vy q - n_sin a * force * n_of_Z 1)%num)
  /\ (forall (m : Mouse R) (q : Particle R),
         m_isActive m = true ->
         let d := pointer_distance m q in
         (d < 300)%R ->
         let force := ((300 - d) / 300 * 1)%R in
         let dvx := (p_vx (repel_step m q) - p_vx q)%R in
         let dvy := (p_vy (repel_step m q) - p_vy q)%R in
         (d * dvx = force * (p_x q - m_x m))%R
         /\ (d * dvy = force * (p_y q - m_y m))%R
         /\ R_sqrt.sqrt (dvx * dvx + dvy * dvy) = force
         /\ (0 < force)%R).
Proof.
  repeat apply conj.
  - intros num A T. exact (@update_velocity num A T).
  - intros num A T. exact (@repel_step_inactive num A T).
  - intros num A T. exact (@repel_step_far num A T).
  - intros num A T. exact (@repel_step_near num A T).
  - exact repel_step_exact.
Qed.

Lemma pointer_3_4_distance : pointer_distance pointer_3_4 blob_at_origin = 5%R.
Proof.
  unfold pointer_distance, pointer_3_4, blob_at_origin.
  cbn [m_x m_y p_x p_y n_sqrt n_sub n_mul n_add real_arith].
  replace ((3 - 0) * (3 - 0) + (4 - 0) * (4 - 0))%R with (5 * 5)%R by lra.
  apply sqrt_square. lra.
Qed.

Lemma repulsion_law_at :
  (5 * (p_vx (repel_step pointer_3_4 blob_at_origin) - 0)
   = (300 - 5) / 300 * 1 * (0 - 3))%R
  /\ (5 * (p_vy (repel_step pointer_3_4 blob_at_origin) - 0)
      = (300 - 5) / 300 * 1 * (0 - 4))%R.
Proof.
  destruct repulsion_law as (_ & _ & _ & _ & Hexact).
  specialize (Hexact pointer_3_4 blob_at_origin eq_refl).
  cbv zeta in Hexact. rewrite pointer_3_4_distance in Hexact.
  destruct Hexact as (Hx & Hy & _); [lra|]. split; assumption.
Defined.

(** ** The boundary wrap *)

Section Wrap.
Context {num : Type} `{Arith num} `{Trig num}.

(** Only the radius step writes the radius, and it reads the particle's own
    radius and base radius, which no earlier step writes. *)
Lemma before_mouse_radius (p q : Particle num) :
  before_mouse p = Some q ->
  p_radius q = p_radius p /\ p_baseRadius q = p_baseRadius p.
Proof.
  unfold before_mouse, color_step.
  destruct (p_targetRgb p); [|discriminate].
  cbn [option_map]. intros Heq. inversion Heq. split; reflexivity.
Qed.

Lemma repel_step_keeps (m : Mouse num) (q : Particle num) :
  p_x (repel_step m q) = p_x q /\ p_y (repel_step m q) = p_y q
  /\ p_radius (repel_step m q) = p_radius q
  /\ p_baseRadius (repel_step m q) = p_baseRadius q.
Proof.
  unfold repel_step. destruct (m_isActive m); [|repeat split].
  destruct (n_lt _ _); repeat split.
Qed.

(** The particle as the boundary tests find it: its position is the one
    after integration, its radius the relaxed one. *)
Lemma before_wrap (m : Mouse num) (p q : Particle num) :
  before_mouse p = Some q ->
  let q' := radius_step (repel_step m q) in
  p_x q' = p_x q /\ p_y q' = p_y q
  /\ p_radius q' = p_radius (radius_step p).
Proof.
  intros Hq q'. subst q'.
  destruct (before_mouse_radius p Hq) as [Hr Hb].
  destruct (repel_step_keeps m q) as (Hx & Hy & Hr' & Hb').
  unfold radius_step. cbn [p_x p_y p_radius with_radius].
  rewrite Hx, Hy, Hr', Hb', Hr, Hb. repeat split.
Qed.
End Wrap.

(** C3: in binary64, on a surface of non-negative size and with a
    non-negative (relaxed) radius, a particle whose [x] after integration
    exceeds [width + 2 * radius] leaves the same [update()] at
    [x = -2 * radius]; one below [-2 * radius] leaves it at
    [width + 2 * radius]; and likewise for [y] against the height. *)
Theorem update_wraps_position (T : Trig float) (w : World float)
        (p q : Particle float) :
  before_mouse p = Some q ->
  (0 <=? w_width w)%float = true -> (0 <=? w_height w)%float = true ->
  (0 <=? p_radius (radius_step p))%float = true ->
  exists w' p',
    update w p = Ok w' p'
    /\ p_radius p' = p_radius (radius_step p)
    /\ ((w_width w + p_radius p' * 2 <? p_x q)%float = true ->
        p_x p' = (- (p_radius p' * 2))%float)
    /\ ((p_x q <? - (p_radius p' * 2))%float = true ->
        p_x p' = (w_width w + p_radius p' * 2)%float)
    /\ ((w_height w + p_radius p' * 2 <? p_y q)%float = true ->
        p_y p' = (- (p_radius p' * 2))%float)
    /\ ((p_y q <? - (p_radius p' * 2))%float = true ->
        p_y p' = (w_height w + p_radius p' * 2)%float).
Proof.
  intros Hq Hw Hh Hr.
  rewrite (update_reads_eased w p Hq). cbv zeta.
  set (m := ease_mouse (w_targetMouse w) (w_mouse w)).
  destruct (before_wrap m p Hq) as (Hx & Hy & Hrad). cbv zeta in Hx, Hy, Hrad.
  set (q' := radius_step (repel_step m q)) in *.
  eexists _, _. split; [reflexivity|].
  unfold wrap_step. cbn [p_radius p_x p_y with_pos].
  cbn [n_mul n_add n_neg n_lt n_of_Z float_arith].
  change (float_of_Z 2) with 2%float.
  rewrite Hx, Hy, Hrad.
  set (buffer := (p_radius (radius_step p) * 2)%float).
  assert (Hb : (0 <=? buffer)%float = true)
    by (apply float_mul_two_nonneg; exact Hr).
  repeat apply conj.
  - reflexivity.
  - intros Hhigh.
    rewrite (float_above_nonneg (float_add_nonneg Hw Hb) Hhigh Hb).
    rewrite Hhigh. reflexivity.
  - intros Hlow. rewrite Hlow, float_ltb_irrefl. reflexivity.
  - intros Hhigh.
    rewrite (float_above_nonneg (float_add_nonneg Hh Hb) Hhigh Hb).
    rewrite Hhigh. reflexivity.
  - intros Hlow. rewrite Hlow, float_ltb_irrefl. reflexivity.
Qed.

Lemma update_wraps_position_at :
  exists w' p',
    @update float _ poly_trig page blob_past_right = Ok w' p'
    /\ p_x p' = (-80)%float.
Proof.
  destruct (@update_wraps_position poly_trig page blob_past_right _ eq_refl
              eq_refl eq_refl eq_refl)
    as (w' & p' & Hup & Hrad & Hright & _).
  exists w', p'. split; [exact Hup|].
  rewrite Hright; rewrite Hrad; vm_compute; reflexivity.
Defined.

(** ** The mood controller: the claims *)

Lemma registered_five_colors (key : string) (pal : Palette) :
  own_property PALETTES key = Some pal -> List.length (colors pal) = 5%nat.
Proof.
  intros Hown. apply own_property_In in Hown.
  cbn [PALETTES In] in Hown.
  repeat (destruct Hown as [Heq|Hown];
          [inversion Heq; subst; reflexivity|]).
  contradiction.
Qed.

Lemma demo_random_unit : unit_draws demo_random.
Proof.
  intros k. unfold demo_random. destruct (Nat.even k); split; reflexivity.
Qed.

(** With five colours, [colors[Math.floor(Math.random() * colors.length)]]
    is an element of the list. *)
Lemma float_array_get_five (cs : list string) (u : float) :
  List.length cs = 5%nat ->
  (0 <=? u)%float = true -> (u <? 1)%float = true ->
  exists c,
    array_get cs (u * n_of_Z (Z.of_nat (List.length cs)))%num = Some c.
Proof.
  intros Hlen H0 H1. rewrite Hlen.
  change (n_of_Z (Z.of_nat 5)) with 5%float.
  unfold array_get. cbn [n_floor n_mul float_arith].
  destruct (float_floor_mul_five H0 H1) as (k & -> & Hk).
  replace (0 <=? k)%Z with true by (symmetry; apply Z.leb_le; lia).
  destruct cs as [|c0 [|c1 [|c2 [|c3 [|c4 [|c5 rest]]]]]]; try discriminate.
  assert (Hcases : (k = 0 \/ k = 1 \/ k = 2 \/ k = 3 \/ k = 4)%Z) by lia.
  destruct Hcases as [->|[->|[->|[->| ->]]]]; eexists; reflexivity.
Qed.

Section MoodClaims.
Variable random : nat -> float.
Hypothesis random_unit : unit_draws random.

Lemma setMood_registered_returns (key : string) (pal : Palette)
      (w : World float) :
  own_property PALETTES key = Some pal ->
  exists w', setMood random key w = Ok w' tt.
Proof.
  intros Hown. unfold setMood, palette_get. rewrite Hown. cbn [ref_bg].
  set (w2 := with_background (with_palette w (Own pal)) (bg pal)).
  assert (Hcs : ref_colors (w_currentPalette w2) = Some (colors pal))
    by reflexivity.
  assert (Hidx : forall k, exists c,
             array_get (colors pal)
                       (random k * n_of_Z (Z.of_nat (List.length (colors pal))))%num
             = Some c).
  { intros k. destruct (random_unit k) as [H0 H1].
    apply float_array_get_five; [|exact H0|exact H1].
    exact (registered_five_colors key Hown). }
  destruct (recolor_returns random (w_particles w2) Hidx w2 Hcs)
    as [[w3 ps3] Hre].
  rewrite Hre. unfold show_palette.
  destruct (w_swatches (with_particles w3 ps3)) eqn:Hsw;
    [eexists; reflexivity|].
  assert (Hpal : ref_colors (w_currentPalette (with_particles w3 ps3))
                 = Some (colors pal)).
  { destruct (recolor_pool random (w_particles w2) w2 Hcs)
      as (n & ps' & Hst & _).
    rewrite Hre in Hst. cbn [state_of] in Hst. inversion Hst; subst.
    reflexivity. }
  rewrite Hpal. eexists. reflexivity.
Qed.
End MoodClaims.

(** *** The colour over the frames that follow *)

Section ColourFrames.
Context {num : Type} `{Arith num} `{Trig num}.

Lemma ease_rgb_frames_succ (n : nat) (t c : Rgb num) :
  ease_rgb_frames (S n) t c = ease_rgb_frames n t (ease_rgb t c).
Proof. reflexivity. Qed.



End ColourFrames.





(** C10: every colour string of the five palettes, backgrounds included, is
    a [#] and six hexadecimal digits, which [hexToRgb] converts; so a colour
    that [pickColor()] returns converts to a non-null colour, [reset()]
    leaves a non-null target, and [setMood], however it ends, leaves no
    particle with a null target that had none before. *)
Theorem palette_colors_never_null (num : Type) (A : Arith num)
        (random : nat -> num) :
  map fst PALETTES = ["joy"; "serenity"; "energy"; "melancholy"; "mystery"]
  /\ (forall key pal c,
         own_property PALETTES key = Some pal ->
         In c (palette_strings pal) ->
         is_six_digit_hex c = true
         /\ exists rgb : Rgb num, hexToRgb c = Some rgb)
  /\ (forall (w w1 : World num) (c : string),
         installed (w_currentPalette w) ->
         pickColor random w = Ok w1 (Some c) ->
         exists rgb : Rgb num, hexToRgb c = Some rgb)
  /\ (forall (w w1 : World num) (p : Particle num),
         installed (w_currentPalette w) ->
         reset random w = Ok w1 p -> non_null p)
  /\ (forall (key : string) (w : World num),
         Forall non_null (w_particles w) ->
         Forall non_null (w_particles (state_of (setMood random key w)))).
Proof.
  repeat apply conj.
  - reflexivity.
  - intros key pal c. apply registered_color_valid.
  - intros w w1 c. apply pickColor_converts.
  - intros w w1 p. apply reset_non_null.
  - intros key w. apply setMood_non_null.
Qed.

Lemma palette_colors_never_null_at :
  (is_six_digit_hex "#06D6A0" = true
   /\ exists rgb : Rgb float, hexToRgb "#06D6A0" = Some rgb)
  /\ Forall non_null
            (w_particles (state_of (setMood demo_random "energy" two_blobs))).
Proof.
  destruct (@palette_colors_never_null float _ demo_random)
    as (_ & Hvalid & _ & _ & Hmood).
  split.
  - apply (Hvalid "joy" joy); [reflexivity|]. vm_compute. tauto.
  - apply Hmood. exact two_blobs_non_null.
Defined.

(** ** Keys outside the registry *)

(** A key for which [PALETTES[key]] is [undefined] changes nothing; in
    particular ["nonexistent"] after ["joy"] leaves Joy active. *)
Lemma setMood_nonexistent (num : Type) (A : Arith num) (random : nat -> num)
      (w : World num) :
  setMood random "nonexistent" w = Ok w tt.
Proof. reflexivity. Qed.

Lemma setMood_joy_then_nonexistent :
  exists w1,
    setMood demo_random "joy" started = Ok w1 tt
    /\ setMood demo_random "nonexistent" w1 = Ok w1 tt
    /\ w_currentPalette w1 = Own joy.
Proof.
  destruct (setMood_registered_returns demo_random_unit "joy" started
              eq_refl) as [w1 Hok].
  destruct (setMood_registered demo_random "joy" started eq_refl)
    as (Hp & _).
  cbv zeta in Hp. rewrite Hok in Hp. cbn [state_of] in Hp.
  exists w1. repeat apply conj; [exact Hok|reflexivity|exact Hp].
Qed.

(** C4, the failing case: ["constructor"] is no key of the registry, yet
    [PALETTES["constructor"]] is the function [Object] that the object
    literal inherits, so the guard lets it through: the current palette is
    replaced, and the first [pickColor()] throws a [TypeError]. *)
Theorem setMood_inherited_key_throws (num : Type) (A : Arith num)
        (random : nat -> num) (w : World num)
        (p : Particle num) (ps : list (Particle num)) :
  own_property PALETTES "constructor" = None
  /\ setMood random "constructor" (with_particles w (p :: ps))
     = Throw (with_draws
                (with_palette (with_particles w (p :: ps))
                              (Inherited "constructor"))
                (S (w_draws w))).
Proof.
  split; [reflexivity|].
  exact (@setMood_inherited num A random "constructor"
                            (with_particles w (p :: ps)) p ps
                            eq_refl eq_refl).
Qed.

Lemma setMood_constructor_after_joy :
  w_currentPalette started = Own joy
  /\ exists w',
       setMood demo_random "constructor" started = Throw w'
       /\ w_currentPalette w' = Inherited "constructor"
       /\ w_particles w' = w_particles started
       /\ w_background w' = w_background started.
Proof.
  split; [vm_compute; reflexivity|].
  eexists. split; [vm_compute; reflexivity|].
  vm_compute. repeat split; reflexivity.
Qed.

(** * Further properties of the code *)

(** ** [hexToRgb]: what it returns *)

Lemma hex_value_range (c : ascii) :
  is_hex_digit c = true -> (0 <= hex_value c <= 15)%Z.
Proof.
  destruct c as [[] [] [] [] [] [] [] []]; intros Hc;
    try discriminate Hc; vm_compute; split; discriminate.
Qed.

Lemma parseInt16_pair (c1 c2 : ascii) :
  parseInt16 [c1; c2] = (16 * hex_value c1 + hex_value c2)%Z.
Proof. unfold parseInt16. cbn [fold_left]. lia. Qed.

Lemma parseInt16_pair_range (c1 c2 : ascii) :
  is_hex_digit c1 = true -> is_hex_digit c2 = true ->
  (0 <= parseInt16 [c1; c2] <= 255)%Z.
Proof.
  intros H1 H2. rewrite parseInt16_pair.
  pose proof (hex_value_range c1 H1). pose proof (hex_value_range c2 H2). lia.
Qed.

Lemma skip_hash_eqb (c : ascii) (rest : string) :
  skip_hash (String c rest)
  = if Ascii.eqb c "#" then rest else String c rest.
Proof. destruct c as [[] [] [] [] [] [] [] []]; reflexivity. Qed.

(** X1: a colour that [hexToRgb] returns has three integer channels, each
    between 0 and 255. *)
Theorem hexToRgb_channels_in_range {num} `{Arith num} (s : string)
        (c : Rgb num) :
  hexToRgb s = Some c ->
  exists rr gg bb : Z,
    c = mkRgb (n_of_Z rr) (n_of_Z gg) (n_of_Z bb)
    /\ (0 <= rr <= 255)%Z /\ (0 <= gg <= 255)%Z /\ (0 <= bb <= 255)%Z.
Proof.
  unfold hexToRgb, fullRegex.
  destruct (skip_hash (expand_shorthand s))
    as [|c1 [|c2 [|c3 [|c4 [|c5 [|c6 [|c7 t]]]]]]]; try discriminate.
  destruct (forallb is_hex_digit [c1; c2; c3; c4; c5; c6]) eqn:Hd;
    try discriminate.
  cbn [forallb] in Hd.
  repeat (apply andb_prop in Hd; destruct Hd as [? Hd]).
  intros Heq. inversion Heq; subst c. eexists _, _, _.
  split; [reflexivity|].
  repeat apply conj; apply parseInt16_pair_range; assumption.
Qed.

Lemma hexToRgb_channels_in_range_gold :
  exists rr gg bb : Z,
    mkRgb 255%float 209%float 102%float
    = mkRgb (float_of_Z rr) (float_of_Z gg) (float_of_Z bb)
    /\ (0 <= rr <= 255)%Z /\ (0 <= gg <= 255)%Z /\ (0 <= bb <= 255)%Z.
Proof.
  exact (@hexToRgb_channels_in_range float float_arith "#FFD166"
                                      (mkRgb 255 209 102)%float eq_refl).
Defined.

Section LetterCase.
Variable f : ascii -> ascii.
Hypothesis f_digit : forall c, is_hex_digit (f c) = is_hex_digit c.
Hypothesis f_value :
  forall c, is_hex_digit c = true -> hex_value (f c) = hex_value c.
Hypothesis f_hash : forall c, Ascii.eqb (f c) "#" = Ascii.eqb c "#".

Lemma skip_hash_map (s : string) :
  skip_hash (string_map f s) = string_map f (skip_hash s).
Proof.
  destruct s as [|c rest]; [reflexivity|].
  cbn [string_map]. rewrite !skip_hash_eqb, f_hash.
  destruct (Ascii.eqb c "#"); reflexivity.
Qed.

Lemma shorthandRegex_map (s : string) :
  shorthandRegex (string_map f s)
  = option_map (fun '(c1, c2, c3) => (f c1, f c2, f c3)) (shorthandRegex s).
Proof.
  unfold shorthandRegex. rewrite skip_hash_map.
  destruct (skip_hash s) as [|c1 [|c2 [|c3 [|c4 t]]]]; try reflexivity.
  cbn [string_map]. rewrite !f_digit.
  destruct (is_hex_digit c1 && is_hex_digit c2 && is_hex_digit c3);
    reflexivity.
Qed.

Lemma expand_shorthand_map (s : string) :
  expand_shorthand (string_map f s) = string_map f (expand_shorthand s).
Proof.
  unfold expand_shorthand. rewrite shorthandRegex_map.
  destruct (shorthandRegex s) as [[[c1 c2] c3]|]; reflexivity.
Qed.

Lemma hexToRgb_map {num} `{Arith num} (s : string) :
  @hexToRgb num _ (string_map f s) = hexToRgb s.
Proof.
  unfold hexToRgb, fullRegex. rewrite expand_shorthand_map, skip_hash_map.
  destruct (skip_hash (expand_shorthand s))
    as [|c1 [|c2 [|c3 [|c4 [|c5 [|c6 [|c7 t]]]]]]]; try reflexivity.
  cbn [string_map forallb]. rewrite !f_digit.
  destruct (is_hex_digit c1) eqn:H1; [|reflexivity].
  destruct (is_hex_digit c2) eqn:H2; [|reflexivity].
  destruct (is_hex_digit c3) eqn:H3; [|reflexivity].
  destruct (is_hex_digit c4) eqn:H4; [|reflexivity].
  destruct (is_hex_digit c5) eqn:H5; [|reflexivity].
  destruct (is_hex_digit c6) eqn:H6; [|reflexivity].
  cbn [andb]. rewrite !parseInt16_pair, !f_value by assumption.
  reflexivity.
Qed.
End LetterCase.

Lemma ascii_upper_hex (c : ascii) :
  is_hex_digit (ascii_upper c) = is_hex_digit c
  /\ (is_hex_digit c = true -> hex_value (ascii_upper c) = hex_value c)
  /\ Ascii.eqb (ascii_upper c) "#" = Ascii.eqb c "#".
Proof.
  destruct c as [[] [] [] [] [] [] [] []];
    (repeat apply conj; [reflexivity| |reflexivity]);
    intros Hc; try discriminate Hc; reflexivity.
Qed.

Lemma ascii_lower_hex (c : ascii) :
  is_hex_digit (ascii_lower c) = is_hex_digit c
  /\ (is_hex_digit c = true -> hex_value (ascii_lower c) = hex_value c)
  /\ Ascii.eqb (ascii_lower c) "#" = Ascii.eqb c "#".
Proof.
  destruct c as [[] [] [] [] [] [] [] []];
    (repeat apply conj; [reflexivity| |reflexivity]);
    intros Hc; try discriminate Hc; reflexivity.
Qed.

(** X2: [hexToRgb] does not tell upper-case from lower-case ASCII letters:
    the string with its letters [a]..[z] in upper case, and the one with its
    letters [A]..[Z] in lower case, convert as the string itself does, to
    the same colour or to [null]. *)
Theorem hexToRgb_ignores_letter_case {num} `{Arith num} (s : string) :
  @hexToRgb num _ (upper_case s) = hexToRgb s
  /\ @hexToRgb num _ (lower_case s) = hexToRgb s.
Proof.
  split; apply hexToRgb_map; intros c.
  - apply ascii_upper_hex.
  - apply ascii_upper_hex.
  - apply ascii_upper_hex.
  - apply ascii_lower_hex.
  - apply ascii_lower_hex.
  - apply ascii_lower_hex.
Qed.

Lemma float_byte_floor :
  forallb (fun z => match float_floor (float_of_Z z) with
                    | Some k => (k =? z)%Z
                    | None => false
                    end) channel_values = true.
Proof. vm_compute. reflexivity. Qed.

Lemma channel_values_In (z : Z) : (0 <= z <= 255)%Z -> In z channel_values.
Proof.
  intros Hz. unfold channel_values.
  replace z with (Z.of_nat (Z.to_nat z)) by lia.
  apply in_map, in_seq. lia.
Qed.

(** Distinct 8-bit values are distinct numbers. *)
Lemma float_of_Z_byte_inj (a b : Z) :
  (0 <= a <= 255)%Z -> (0 <= b <= 255)%Z ->
  float_of_Z a = float_of_Z b -> a = b.
Proof.
  intros Ha Hb Heq. pose proof float_byte_floor as Hall.
  rewrite forallb_forall in Hall.
  pose proof (Hall a (channel_values_In Ha)) as Hfa.
  pose proof (Hall b (channel_values_In Hb)) as Hfb.
  rewrite Heq in Hfa.
  destruct (float_floor (float_of_Z b)) as [k|]; [|discriminate].
  apply Z.eqb_eq in Hfa, Hfb. congruence.
Qed.

Lemma ascii_upper_digit (c : ascii) :
  is_hex_digit c = true -> ascii_upper c = hex_digit_of (hex_value c).
Proof.
  destruct c as [[] [] [] [] [] [] [] []]; intros Hc;
    try discriminate Hc; reflexivity.
Qed.

Lemma hexToRgb_some_digits {num} `{Arith num} (s : string) (c : Rgb num) :
  hexToRgb s = Some c ->
  exists c1 c2 c3 c4 c5 c6,
    skip_hash (expand_shorthand s)
    = string_of_list_ascii [c1; c2; c3; c4; c5; c6]
    /\ (is_hex_digit c1 = true /\ is_hex_digit c2 = true
        /\ is_hex_digit c3 = true /\ is_hex_digit c4 = true
        /\ is_hex_digit c5 = true /\ is_hex_digit c6 = true)
    /\ c = mkRgb (n_of_Z (16 * hex_value c1 + hex_value c2))
                 (n_of_Z (16 * hex_value c3 + hex_value c4))
                 (n_of_Z (16 * hex_value c5 + hex_value c6)).
Proof.
  unfold hexToRgb, fullRegex.
  destruct (skip_hash (expand_shorthand s))
    as [|c1 [|c2 [|c3 [|c4 [|c5 [|c6 [|c7 t]]]]]]]; try discriminate.
  destruct (forallb is_hex_digit [c1; c2; c3; c4; c5; c6]) eqn:Hd;
    try discriminate.
  cbn [forallb] in Hd.
  repeat (apply andb_prop in Hd; destruct Hd as [? Hd]).
  intros Heq. inversion Heq. exists c1, c2, c3, c4, c5, c6.
  rewrite !parseInt16_pair. repeat split; assumption.
Qed.

Lemma hex_pair_inj (a b a' b' : ascii) :
  is_hex_digit a = true -> is_hex_digit b = true ->
  is_hex_digit a' = true -> is_hex_digit b' = true ->
  (16 * hex_value a + hex_value b = 16 * hex_value a' + hex_value b')%Z ->
  ascii_upper a = ascii_upper a' /\ ascii_upper b = ascii_upper b'.
Proof.
  intros Ha Hb Ha' Hb' Heq.
  pose proof (hex_value_range a Ha). pose proof (hex_value_range b Hb).
  pose proof (hex_value_range a' Ha'). pose proof (hex_value_range b' Hb').
  rewrite !ascii_upper_digit by assumption.
  split; f_equal; lia.
Qed.

Lemma hex_pair_range (a b : ascii) :
  is_hex_digit a = true -> is_hex_digit b = true ->
  (0 <= 16 * hex_value a + hex_value b <= 255)%Z.
Proof.
  intros Ha Hb.
  pose proof (hex_value_range a Ha). pose proof (hex_value_range b Hb). lia.
Qed.

(** X3: [hexToRgb] loses nothing but the notation: when the numbers of the
    8-bit values are distinct (as in binary64), two strings that convert to
    the same colour denote the same six digits, after shorthand expansion
    and up to the [#] and the case of the letters. *)
Theorem hexToRgb_same_colour_same_digits {num} `{Arith num}
        (s s' : string) (c : Rgb num) :
  (forall a b : Z,
      (0 <= a <= 255)%Z -> (0 <= b <= 255)%Z ->
      n_of_Z a = n_of_Z b -> a = b) ->
  hexToRgb s = Some c -> hexToRgb s' = Some c ->
  hex_digits_of s = hex_digits_of s'.
Proof.
  intros Hinj Hs Hs'.
  destruct (hexToRgb_some_digits s Hs)
    as (c1 & c2 & c3 & c4 & c5 & c6 & Hd
        & (H1 & H2 & H3 & H4 & H5 & H6) & Hc).
  destruct (hexToRgb_some_digits s' Hs')
    as (d1 & d2 & d3 & d4 & d5 & d6 & Hd'
        & (H1' & H2' & H3' & H4' & H5' & H6') & Hc').
  unfold hex_digits_of, upper_case. rewrite Hd, Hd'.
  cbn [string_of_list_ascii string_map].
  rewrite Hc in Hc'. inversion Hc' as [[Hr Hg Hb]].
  apply Hinj in Hr; try (apply hex_pair_range; assumption).
  apply Hinj in Hg; try (apply hex_pair_range; assumption).
  apply Hinj in Hb; try (apply hex_pair_range; assumption).
  apply hex_pair_inj in Hr; try assumption.
  apply hex_pair_inj in Hg; try assumption.
  apply hex_pair_inj in Hb; try assumption.
  destruct Hr as [-> ->]. destruct Hg as [-> ->]. destruct Hb as [-> ->].
  reflexivity.
Qed.

Lemma hexToRgb_same_colour_same_digits_white :
  hex_digits_of "#fff" = hex_digits_of "FFFFFF".
Proof.
  apply (@hexToRgb_same_colour_same_digits float float_arith "#fff" "FFFFFF"
           (mkRgb 255 255 255)%float).
  - exact float_of_Z_byte_inj.
  - reflexivity.
  - reflexivity.
Defined.

(** ** Draws that index a palette *)

Lemma float_pick_index (random : nat -> float) (key : string)
      (pal : Palette) :
  unit_draws random -> own_property PALETTES key = Some pal ->
  forall k, exists c,
    array_get (colors pal)
              (random k * n_of_Z (Z.of_nat (List.length (colors pal))))%num
    = Some c.
Proof.
  intros Hdraws Hown k. destruct (Hdraws k) as [H0 H1].
  apply float_array_get_five; [|exact H0|exact H1].
  exact (registered_five_colors key Hown).
Qed.

(** ** Values at rest, in binary64 *)

Section Rest.
Open Scope Z_scope.

(** [x + (x - x) * c] is [x]: the difference is [+0], and so is its product
    with a positive [c]. *)
Lemma SF_rest (x : spec_float) (mc : positive) (ec : Z) :
  (exists s, x = S754_zero s) \/ (exists s m e, x = S754_finite s m e) ->
  SFadd prec emax x
        (SFmul prec emax (SFsub prec emax x x) (S754_finite false mc ec))
  = match x with
    | S754_zero true => S754_zero false
    | _ => x
    end.
Proof.
  intros [[s ->]|(s & m & e & ->)].
  - destruct s; reflexivity.
  - cbn [SFsub]. rewrite Z.sub_diag. reflexivity.
Qed.

Lemma SFltb_nonneg_opp (x y : spec_float) :
  sf_nonneg x = true -> sf_nonneg y = true -> SFltb x (SFopp y) = false.
Proof.
  intros Hx Hy.
  destruct (sf_nonneg_cases x Hx) as [[sx ->]|[->|(mx & ex & ->)]];
    destruct (sf_nonneg_cases y Hy) as [[sy ->]|[->|(my & ey & ->)]];
    reflexivity.
Qed.
End Rest.

Section FloatRest.
Open Scope float_scope.

Lemma float_rest (x c : float) :
  is_plain_number x = true ->
  (exists mc ec, Prim2SF c = S754_finite false mc ec) ->
  x + (x - x) * c = x.
Proof.
  intros Hx (mc & ec & Hc). apply Prim2SF_inj.
  rewrite add_spec, mul_spec, sub_spec, Hc.
  unfold is_plain_number, is_finite_number, is_negative_zero in Hx.
  unfold SF64add, SF64mul, SF64sub.
  destruct (Prim2SF x) as [s|s| |s m e] eqn:Hsf; try discriminate Hx.
  - rewrite SF_rest by (left; eauto). destruct s; [discriminate Hx|reflexivity].
  - rewrite SF_rest by (right; eauto). reflexivity.
Qed.

Lemma float_nonneg_opp (x y : float) :
  (0 <=? x) = true -> (0 <=? y) = true -> (x <? - y) = false.
Proof.
  rewrite !leb_spec, ltb_spec, opp_spec. apply SFltb_nonneg_opp.
Qed.

Lemma radius_step_at_base (p : Particle float) :
  p_baseRadius p = p_radius p -> is_plain_number (p_radius p) = true ->
  p_radius (radius_step p) = p_radius p.
Proof.
  intros Hb Hr. unfold radius_step. cbn [p_radius with_radius].
  rewrite Hb. cbn [n_add n_sub n_mul float_arith].
  apply float_rest; [exact Hr|].
  eexists _, _. vm_compute. reflexivity.
Qed.

Lemma ease_mouse_at_target (m : Mouse float) :
  is_plain_number (m_x m) = true -> is_plain_number (m_y m) = true ->
  ease_mouse (m_x m, m_y m) m = m.
Proof.
  intros Hx Hy. unfold ease_mouse. cbn [fst snd n_add n_sub n_mul float_arith].
  rewrite !float_rest; try assumption;
    try (eexists _, _; vm_compute; reflexivity).
  destruct m; reflexivity.
Qed.

Lemma ease_mouse_times_at_target (n : nat) (m : Mouse float) :
  is_plain_number (m_x m) = true -> is_plain_number (m_y m) = true ->
  ease_mouse_times n (m_x m, m_y m) m = m.
Proof.
  intros Hx Hy. induction n as [|n IH]; [reflexivity|].
  cbn [ease_mouse_times]. rewrite ease_mouse_at_target by assumption.
  exact IH.
Qed.
End FloatRest.

(** ** The size of a rounded result *)

Section Magnitude.
Open Scope Z_scope.

Lemma pow2_split (a b : Z) :
  0 <= a -> 0 <= b -> 2 ^ (a + b) = 2 ^ a * 2 ^ b.
Proof. intros Ha Hb. apply Z.pow_add_r; assumption. Qed.

(** Rounding a mantissa [M] at exponent [e] whose value [M * 2^e] is below
    [2^k] gives zero or a finite positive number below [2^(k+1)]: no
    overflow. *)
Lemma binary_round_aux_below (M e k : Z) :
  0 <= M -> e <= k -> -1074 <= k <= 970 -> M < 2 ^ (k - e) ->
  binary_round_aux prec emax false M e loc_Exact = S754_zero false
  \/ exists p2 e2,
       binary_round_aux prec emax false M e loc_Exact
       = S754_finite false p2 e2
       /\ e <= e2 <= k + 1 /\ Zpos p2 * 2 ^ (e2 - e) < 2 ^ (k + 1 - e).
Proof.
  intros HM Hek Hk Hlt.
  destruct (binary_round_aux_exact false e HM) as (m1 & Hm1 & Heq).
  cbv zeta in Heq. rewrite Heq. clear Heq.
  set (e1 := Z.max e (fexp prec emax (Zdigits2 M + e))) in *.
  set (e2 := Z.max e1 (fexp prec emax (Zdigits2 m1 + e1))).
  assert (Hd : Zdigits2 M <= k - e) by (apply Zdigits2_le; lia).
  assert (He1 : e <= e1 <= k).
  { subst e1. unfold fexp, SpecFloat.emin, prec, emax. lia. }
  assert (HA : 0 < 2 ^ (e1 - e)) by (apply Z.pow_pos_nonneg; lia).
  assert (HAB : 2 ^ (e1 - e) <= 2 ^ (k - e))
    by (apply Z.pow_le_mono_r; lia).
  assert (Hq : M / 2 ^ (e1 - e) * 2 ^ (e1 - e) <= M).
  { rewrite Z.mul_comm. apply Z.mul_div_le. exact HA. }
  assert (Hq0 : 0 <= M / 2 ^ (e1 - e)) by (apply Z.div_pos; lia).
  assert (Hm1lo : 0 <= m1) by lia.
  assert (Hm1hi : m1 * 2 ^ (e1 - e) <= M + 2 ^ (e1 - e)).
  { destruct Hm1 as [->| ->]; lia. }
  assert (Hk1 : 2 ^ (k + 1 - e) = 2 * 2 ^ (k - e)).
  { replace (k + 1 - e) with (1 + (k - e)) by lia.
    rewrite pow2_split by lia. reflexivity. }
  assert (Hk1' : 2 ^ (k + 1 - e) = 2 ^ (k + 1 - e1) * 2 ^ (e1 - e)).
  { rewrite <- pow2_split by lia. f_equal. lia. }
  assert (Hm1val : m1 * 2 ^ (e1 - e) < 2 ^ (k + 1 - e)) by lia.
  assert (Hm1lt : m1 < 2 ^ (k + 1 - e1)).
  { rewrite Hk1' in Hm1val.
    apply Z.mul_lt_mono_pos_r in Hm1val; assumption. }
  assert (Hd1 : Zdigits2 m1 <= k + 1 - e1) by (apply Zdigits2_le; lia).
  assert (He2 : e1 <= e2 <= k + 1).
  { subst e2. unfold fexp, SpecFloat.emin, prec, emax. lia. }
  assert (HB : 0 < 2 ^ (e2 - e1)) by (apply Z.pow_pos_nonneg; lia).
  assert (Hq2 : m1 / 2 ^ (e2 - e1) * 2 ^ (e2 - e1) <= m1).
  { rewrite Z.mul_comm. apply Z.mul_div_le. exact HB. }
  assert (Hq20 : 0 <= m1 / 2 ^ (e2 - e1)) by (apply Z.div_pos; lia).
  assert (Hfin : m1 / 2 ^ (e2 - e1) * 2 ^ (e2 - e) < 2 ^ (k + 1 - e)).
  { replace (e2 - e) with ((e2 - e1) + (e1 - e)) by lia.
    rewrite pow2_split by lia.
    apply Z.le_lt_trans with (m := m1 * 2 ^ (e1 - e)); [|exact Hm1val].
    rewrite Z.mul_assoc. apply Z.mul_le_mono_nonneg_r; lia. }
  destruct (m1 / 2 ^ (e2 - e1)) as [|p|p] eqn:Hm2; [left; reflexivity| |lia].
  right. replace (e2 <=? emax - prec) with true
    by (symmetry; apply Z.leb_le; unfold emax, prec; lia).
  exists p, e2. repeat split; [lia|lia|exact Hfin].
Qed.

Lemma iter_xO_value (d m : positive) :
  Zpos (Pos.iter xO m d) = Zpos m * 2 ^ Zpos d.
Proof.
  induction d as [|d IH] using Pos.peano_ind.
  - cbn [Pos.iter]. rewrite Z.pow_1_r. lia.
  - rewrite Pos.iter_succ, Pos2Z.inj_succ, Z.pow_succ_r by lia.
    change (Zpos (Pos.iter xO m d)~0) with (2 * Zpos (Pos.iter xO m d)).
    rewrite IH. ring.
Qed.

(** [shl_align] lowers the exponent to the smaller one and keeps the
    value. *)
Lemma shl_align_value (m : positive) (e e' : Z) :
  snd (shl_align m e e') = Z.min e e'
  /\ Zpos (fst (shl_align m e e'))
     = Zpos m * 2 ^ (e - Z.min e e').
Proof.
  unfold shl_align. destruct (e' - e) as [|d|d] eqn:Hd; cbn [fst snd].
  - replace (Z.min e e') with e by lia. rewrite Z.sub_diag. split; lia.
  - replace (Z.min e e') with e by lia. rewrite Z.sub_diag. split; lia.
  - replace (Z.min e e') with e' by lia. split; [reflexivity|].
    rewrite iter_xO_value. f_equal. f_equal. lia.
Qed.

(** Rounding a positive integer [s] at exponent [e], of value below [2^k].  *)
Lemma binary_round_below (s : positive) (e k : Z) :
  e <= k -> -1074 <= k <= 970 -> Zpos s < 2 ^ (k - e) ->
  binary_round prec emax false s e = S754_zero false
  \/ exists p2 e2, binary_round prec emax false s e = S754_finite false p2 e2.
Proof.
  intros Hek Hk Hlt. unfold binary_round.
  set (e' := fexp prec emax (Zpos (digits2_pos s) + e)).
  destruct (shl_align_value s e e') as [He Hm].
  destruct (shl_align s e e') as [mz ez]. cbn [fst snd] in He, Hm.
  assert (Hez : ez <= e) by lia.
  assert (Hval : Zpos mz < 2 ^ (k - ez)).
  { rewrite Hm, <- He.
    replace (k - ez) with ((k - e) + (e - ez)) by lia.
    rewrite pow2_split by lia.
    apply Z.mul_lt_mono_pos_r; [apply Z.pow_pos_nonneg; lia|exact Hlt]. }
  destruct (@binary_round_aux_below (Zpos mz) ez k) as [Hz|(p2 & e2 & Hf & _)];
    try lia; [left; exact Hz|right; eauto].
Qed.

(** [u * 50 + 30] for [u] in [[0, 1)]: zero or finite and positive. *)
Lemma SF_radius_plain (x : spec_float) :
  valid_binary x = true ->
  SFleb (S754_zero false) x = true -> SFltb x sf_one = true ->
  (exists p e,
      SFadd prec emax (SFmul prec emax x sf_fifty) sf_thirty
      = S754_finite false p e)
  \/ SFadd prec emax (SFmul prec emax x sf_fifty) sf_thirty
     = S754_zero false.
Proof.
  intros Hv H0 H1.
  destruct (unit_interval_inv x Hv H0 H1)
    as [[s ->]|(m & e & -> & Hm & He)].
  { left. eexists _, _. reflexivity. }
  cbn [SFmul sf_fifty xorb].
  assert (HM : Zpos (m * 7036874417766400) < 2 ^ (6 - (e + -47))).
  { rewrite Pos2Z.inj_mul.
    apply Z.lt_le_trans with (m := 2 ^ 53 * 2 ^ 53).
    - change (2 ^ 53) with 9007199254740992 in *. lia.
    - rewrite <- pow2_split by lia. apply Z.pow_le_mono_r; lia. }
  destruct (@binary_round_aux_below (Zpos (m * 7036874417766400)) (e + -47) 6)
    as [->|(p2 & e2 & -> & He2 & Hp2)]; try lia.
  { left. eexists _, _. reflexivity. }
  cbn [SFadd sf_thirty cond_Zopp].
  set (ez := Z.min e2 (-48)).
  destruct (shl_align_value p2 e2 ez) as [_ Ha].
  destruct (shl_align_value 8444249301319680 (-48) ez) as [_ Hb].
  replace (Z.min e2 ez) with ez in Ha by lia.
  replace (Z.min (-48) ez) with ez in Hb by lia.
  set (a := fst (shl_align p2 e2 ez)) in *.
  set (b := fst (shl_align 8444249301319680 (-48) ez)) in *.
  change (Zpos a + Zpos b) with (Zpos (a + b)).
  cbn [binary_normalize].
  assert (Hp2' : Zpos p2 < 2 ^ (7 - e2)).
  { assert (Hsplit : 2 ^ (6 + 1 - (e + -47))
                     = 2 ^ (7 - e2) * 2 ^ (e2 - (e + -47))).
    { rewrite <- pow2_split by lia. f_equal. lia. }
    rewrite Hsplit in Hp2.
    apply Z.mul_lt_mono_pos_r in Hp2; [exact Hp2|].
    apply Z.pow_pos_nonneg; lia. }
  assert (Hsum : Zpos (a + b) < 2 ^ (8 - ez)).
  { rewrite Pos2Z.inj_add, Ha, Hb.
    assert (H1' : Zpos p2 * 2 ^ (e2 - ez) < 2 ^ (7 - ez)).
    { replace (7 - ez) with ((7 - e2) + (e2 - ez)) by lia.
      rewrite pow2_split by lia.
      apply Z.mul_lt_mono_pos_r; [apply Z.pow_pos_nonneg; lia|exact Hp2']. }
    assert (H2' : 8444249301319680 * 2 ^ (-48 - ez) < 2 ^ (7 - ez)).
    { replace (7 - ez) with (55 + (-48 - ez)) by lia.
      rewrite pow2_split by lia.
      apply Z.mul_lt_mono_pos_r; [apply Z.pow_pos_nonneg; lia|].
      change (2 ^ 55) with 36028797018963968. lia. }
    replace (8 - ez) with (1 + (7 - ez)) by lia.
    rewrite pow2_split by lia. change (2 ^ 1) with 2.
    generalize dependent (2 ^ (7 - ez)). intros; lia. }
  destruct (@binary_round_below (a + b) ez 8) as [->|(p3 & e3 & ->)];
    try lia; [right; reflexivity|left; eexists _, _; reflexivity].
Qed.
End Magnitude.

Section FloatRadius.
Open Scope float_scope.

(** The radius [Math.random() * 50 + 30] is a finite non-negative number. *)
Lemma float_radius_plain (u : float) :
  (0 <=? u) = true -> (u <? 1) = true ->
  is_plain_number (u * 50 + 30) = true /\ (0 <=? u * 50 + 30) = true.
Proof.
  intros H0 H1. rewrite leb_spec in H0. rewrite ltb_spec in H1.
  pose proof (SF_radius_plain (Prim2SF u) (Prim2SF_valid u) H0 H1) as Hr.
  unfold is_plain_number, is_finite_number, is_negative_zero.
  rewrite leb_spec, add_spec, mul_spec.
  change (Prim2SF 50) with sf_fifty. change (Prim2SF 30) with sf_thirty.
  change (Prim2SF 0) with (S754_zero false).
  unfold SF64add, SF64mul.
  destruct Hr as [(p & e & ->)| ->]; split; reflexivity.
Qed.
End FloatRadius.

(** ** The pool *)

Section Pool.
Context {num : Type} `{Arith num}.
Variable random : nat -> num.

Lemma reset_returns (cs : list string) (c : string) (w : World num) :
  ref_colors (w_currentPalette w) = Some cs ->
  array_get cs (random (5 + w_draws w)
                * n_of_Z (Z.of_nat (List.length cs)))%num = Some c ->
  exists p,
    reset random w = Ok (with_draws w (8 + w_draws w)) p
    /\ p_targetRgb p = hexToRgb c /\ p_currentRgb p = hexToRgb c
    /\ p_baseRadius p = p_radius p
    /\ p_radius p
       = (random (4 + w_draws w) * n_of_Z 50 + n_of_Z 30)%num.
Proof.
  intros Hcs Hget. unfold reset, pickColor.
  cbn [w_currentPalette with_draws w_draws]. rewrite Hcs, Hget.
  cbn [hexToRgb_of]. eexists. split; [reflexivity|].
  repeat split.
Qed.

Lemma push_particles_shape (cs : list string) :
  (forall k, exists c,
      array_get cs (random k * n_of_Z (Z.of_nat (List.length cs)))%num
      = Some c) ->
  forall (n : nat) (w : World num),
    ref_colors (w_currentPalette w) = Some cs ->
    exists ps,
      push_particles random n w
      = Ok (with_draws (with_particles w (w_particles w ++ ps))
                       (8 * n + w_draws w)) tt
      /\ List.length ps = n
      /\ Forall (fun p => (exists c, In c cs /\ p_targetRgb p = hexToRgb c
                                     /\ p_currentRgb p = hexToRgb c)
                          /\ p_baseRadius p = p_radius p
                          /\ exists k,
                               p_radius p
                               = (random k * n_of_Z 50 + n_of_Z 30)%num) ps.
Proof.
  intros Hidx. induction n as [|n IH]; intros w Hcs.
  - exists []. cbn [push_particles]. rewrite app_nil_r.
    destruct w; repeat split. constructor.
  - destruct (Hidx (5 + w_draws w)) as [c Hget].
    destruct (reset_returns w Hcs Hget) as (p & Hre & Ht & Hc & Hb & Hr).
    cbn [push_particles]. rewrite Hre.
    set (w1 := with_particles _ _).
    assert (Hcs1 : ref_colors (w_currentPalette w1) = Some cs) by exact Hcs.
    destruct (IH w1 Hcs1) as (ps & Hpush & Hlen & Hall).
    exists (p :: ps). rewrite Hpush. repeat apply conj.
    + subst w1. unfold with_draws, with_particles. cbn.
      rewrite <- app_assoc. cbn [app]. do 2 f_equal. lia.
    + cbn [List.length]. rewrite Hlen. reflexivity.
    + constructor; [|exact Hall]. split; [|split; [exact Hb|eauto]].
      exists c. repeat split; try assumption.
      eapply array_get_In. exact Hget.
Qed.
End Pool.

Lemma newborn_radius_at_base (random : nat -> float) (p : Particle float)
      (k : nat) :
  unit_draws random -> p_baseRadius p = p_radius p ->
  p_radius p = (random k * n_of_Z 50 + n_of_Z 30)%num ->
  radius_at_base p.
Proof.
  intros Hdraws Hb Hr. destruct (Hdraws k) as [H0 H1].
  destruct (float_radius_plain H0 H1) as [Hplain Hpos].
  unfold radius_at_base. split; [exact Hb|]. rewrite Hr.
  split; [exact Hplain|exact Hpos].
Qed.

(** X4: on a registered palette and with draws in [[0, 1)],
    [initParticles()] returns; it replaces the pool by [PARTICLE_COUNT] new
    particles, takes eight values of [Math.random()] for each and changes
    nothing else; every new particle has the conversion of one of the
    palette's colours as its target and as its current colour, and a
    finite non-negative radius that is also its base radius. *)
Theorem initParticles_fills_pool (random : nat -> float) (key : string)
        (pal : Palette) (w : World float) :
  own_property PALETTES key = Some pal -> w_currentPalette w = Own pal ->
  unit_draws random ->
  exists ps,
    initParticles random w
    = Ok (with_draws (with_particles w ps) (8 * PARTICLE_COUNT + w_draws w)) tt
    /\ List.length ps = PARTICLE_COUNT
    /\ Forall (newborn (colors pal)) ps
    /\ Forall radius_at_base ps.
Proof.
  intros Hown Hpal Hdraws.
  pose proof (float_pick_index key Hdraws Hown) as Hidx.
  assert (Hcs : ref_colors (w_currentPalette (with_particles w []))
                = Some (colors pal)).
  { cbn [with_particles w_currentPalette]. rewrite Hpal. reflexivity. }
  destruct (push_particles_shape random Hidx PARTICLE_COUNT
                                 (with_particles w []) Hcs)
    as (ps & Hpush & Hlen & Hall).
  exists ps. unfold initParticles. rewrite Hpush.
  repeat apply conj; [reflexivity|exact Hlen| |].
  - eapply Forall_impl; [|exact Hall].
    intros p [(c & Hin & Ht & Hc) [Hb _]]. split; [|exact Hb].
    destruct (@registered_color_valid float _ key pal c Hown (or_intror Hin))
      as (_ & rgb & Hrgb).
    exists c, rgb. rewrite Ht, Hc, Hrgb. repeat split; assumption.
  - eapply Forall_impl; [|exact Hall].
    intros p (_ & Hb & k & Hr). eapply newborn_radius_at_base; eassumption.
Qed.

Lemma initParticles_fills_pool_joy :
  exists ps,
    initParticles demo_random page
    = Ok (with_draws (with_particles page ps) 1200) tt
    /\ List.length ps = 150%nat
    /\ Forall (newborn (colors joy)) ps
    /\ Forall radius_at_base ps.
Proof.
  exact (@initParticles_fills_pool demo_random "joy" joy page eq_refl eq_refl
                                   demo_random_unit).
Defined.

(** ** The frame *)

Section FrameShape.
Context {num : Type} `{Arith num} `{Trig num}.

Lemma repel_step_identity (m : Mouse num) (q : Particle num) :
  p_targetRgb (repel_step m q) = p_targetRgb q
  /\ p_speed (repel_step m q) = p_speed q.
Proof.
  unfold repel_step. destruct (m_isActive m); [|split; reflexivity].
  destruct (n_lt _ _); split; reflexivity.
Qed.

Lemma update_keeps_identity (w w' : World num) (p p' : Particle num) :
  update w p = Ok w' p' -> keeps_identity p p'.
Proof.
  unfold update, before_mouse, color_step.
  destruct (p_targetRgb p) as [t|] eqn:Ht; [|discriminate].
  cbn [option_map]. intros Heq. inversion Heq; subst. clear Heq.
  set (m := ease_mouse _ _). set (q := move_step _).
  destruct (repel_step_identity m q) as [Hrt Hrs].
  destruct (repel_step_keeps m q) as (_ & _ & _ & Hrb).
  unfold keeps_identity, wrap_step, radius_step.
  cbn [p_targetRgb p_baseRadius p_speed with_pos with_radius].
  rewrite Hrt, Hrs, Hrb. subst q. repeat split.
Qed.

Lemma keeps_identity_non_null (p p' : Particle num) :
  keeps_identity p p' -> non_null p -> non_null p'.
Proof. intros (Ht & _) [rgb Hrgb]. exists rgb. congruence. Qed.

Lemma Forall2_keeps_non_null (ps ps' : list (Particle num)) :
  Forall2 keeps_identity ps ps' -> Forall non_null ps -> Forall non_null ps'.
Proof.
  induction 1 as [|p p' ps ps' Hk _ IH]; intros Hall; [constructor|].
  inversion Hall; subst. constructor; [|auto].
  eapply keeps_identity_non_null; eassumption.
Qed.

Lemma update_and_draw_shape (ps : list (Particle num)) :
  Forall non_null ps ->
  forall w : World num,
  exists ps',
    update_and_draw w ps
    = Ok (with_canvas
            (with_mouse w (ease_mouse_times (List.length ps)
                                            (w_targetMouse w) (w_mouse w)))
            (w_canvas w ++ map disc_of ps'), ps') tt
    /\ Forall2 keeps_identity ps ps'.
Proof.
  induction 1 as [|p rest Hp Hrest IH]; intros w.
  - exists []. cbn [update_and_draw map List.length ease_mouse_times].
    rewrite app_nil_r. destruct w. split; [reflexivity|constructor].
  - destruct (non_null_before_mouse Hp) as [q Hq].
    pose proof (update_reads_eased w p Hq) as Hup. cbv zeta in Hup.
    cbn [update_and_draw]. rewrite Hup.
    set (w1 := with_mouse w (ease_mouse (w_targetMouse w) (w_mouse w))).
    set (p1 := wrap_step _ _ _) in *.
    destruct (IH (draw w1 p1)) as (ps' & Heq & Hkeep).
    rewrite Heq. exists (p1 :: ps'). split.
    + subst w1. unfold draw, with_canvas, with_mouse.
      cbn [w_width w_height w_mouse w_targetMouse w_particles
           w_currentPalette w_background w_swatches w_canvas w_draws
           List.length ease_mouse_times map].
      rewrite <- app_assoc. reflexivity.
    + constructor; [|exact Hkeep]. eapply update_keeps_identity. exact Hup.
Qed.

Lemma update_and_draw_null (ps1 ps2 : list (Particle num))
      (p : Particle num) :
  Forall non_null ps1 -> p_targetRgb p = None ->
  forall w : World num,
  exists ps1',
    update_and_draw w (ps1 ++ p :: ps2)
    = Throw (with_canvas
               (with_mouse w (ease_mouse_times (List.length ps1)
                                               (w_targetMouse w) (w_mouse w)))
               (w_canvas w ++ map disc_of ps1'), ps1' ++ p :: ps2)
    /\ Forall2 keeps_identity ps1 ps1'.
Proof.
  intros Hall Hnull. induction Hall as [|p0 rest Hp Hrest IH]; intros w.
  - exists []. cbn [app update_and_draw map List.length ease_mouse_times].
    unfold update, before_mouse, color_step. rewrite Hnull. cbn [option_map].
    rewrite app_nil_r. destruct w. split; [reflexivity|constructor].
  - destruct (non_null_before_mouse Hp) as [q Hq].
    pose proof (update_reads_eased w p0 Hq) as Hup. cbv zeta in Hup.
    cbn [app update_and_draw]. rewrite Hup.
    set (w1 := with_mouse w (ease_mouse (w_targetMouse w) (w_mouse w))).
    set (p1 := wrap_step _ _ _) in *.
    destruct (IH (draw w1 p1)) as (ps' & Heq & Hkeep).
    rewrite Heq. exists (p1 :: ps'). split.
    + subst w1. unfold draw, with_canvas, with_mouse.
      cbn [w_width w_height w_mouse w_targetMouse w_particles
           w_currentPalette w_background w_swatches w_canvas w_draws
           List.length ease_mouse_times map app].
      rewrite <- app_assoc. reflexivity.
    + constructor; [|exact Hkeep]. eapply update_keeps_identity. exact Hup.
Qed.

(** A frame on a pool without null targets: what it returns. *)
Lemma animate_shape (w : World num) :
  Forall non_null (w_particles w) ->
  exists ps',
    animate w
    = Ok (with_particles
            (with_canvas
               (with_mouse w (ease_mouse_times (List.length (w_particles w))
                                               (w_targetMouse w) (w_mouse w)))
               (map disc_of ps')) ps') tt
    /\ Forall2 keeps_identity (w_particles w) ps'.
Proof.
  intros Hall. unfold animate.
  destruct (update_and_draw_shape Hall (with_canvas w []))
    as (ps' & Heq & Hkeep).
  rewrite Heq. exists ps'. split; [|exact Hkeep].
  destruct w; reflexivity.
Qed.


(** X6: a frame that meets a particle whose target colour is [null] throws
    in that particle's [update()]: the particles before it are updated and
    painted, that particle and those after it are left as they were, and
    the frame does not reach [requestAnimationFrame]. *)
Theorem animate_stops_at_null_target (w : World num)
        (ps1 ps2 : list (Particle num)) (p : Particle num) :
  w_particles w = ps1 ++ p :: ps2 ->
  Forall non_null ps1 -> p_targetRgb p = None ->
  exists w' ps1',
    animate w = Throw w'
    /\ w_particles w' = ps1' ++ p :: ps2
    /\ Forall2 keeps_identity ps1 ps1'
    /\ w_canvas w' = map disc_of ps1'.
Proof.
  intros Hps Hall Hnull. unfold animate. rewrite Hps.
  destruct (update_and_draw_null ps2 p Hall Hnull (with_canvas w []))
    as (ps1' & Heq & Hkeep).
  rewrite Heq. eexists _, ps1'. split; [reflexivity|].
  cbn [w_canvas w_particles with_particles with_canvas with_mouse app].
  repeat apply conj; try reflexivity. exact Hkeep.
Qed.
End FrameShape.


Lemma animate_stops_at_null_target_second :
  exists w' ps1',
    @animate float _ poly_trig
             (with_particles page [blob_past_right; blob_null_target;
                                   blob_past_right])
    = Throw w'
    /\ w_particles w' = ps1' ++ [blob_null_target; blob_past_right]
    /\ List.length ps1' = 1%nat.
Proof.
  destruct (@animate_stops_at_null_target float _ poly_trig
              (with_particles page [blob_past_right; blob_null_target;
                                    blob_past_right])
              [blob_past_right] [blob_past_right] blob_null_target
              eq_refl)
    as (w' & ps1' & Hthrow & Hps & Hkeep & _).
  - repeat constructor. eexists. reflexivity.
  - reflexivity.
  - exists w', ps1'. repeat apply conj; try assumption.
    apply Forall2_length in Hkeep. symmetry. exact Hkeep.
Defined.

(** ** The running page *)

Lemma palette_get_own (key : string) (pal : Palette) :
  palette_get key = Some (Own pal) -> own_property PALETTES key = Some pal.
Proof.
  unfold palette_get. destruct (own_property PALETTES key) as [q|].
  - intros Heq. inversion Heq. reflexivity.
  - destruct (existsb _ _); discriminate.
Qed.

Section SessionFacts.
Context {num : Type} `{Arith num} `{Trig num}.
Variable random : nat -> num.

Lemma setMood_pool_length (key : string) (w : World num) :
  List.length (w_particles (state_of (setMood random key w)))
  = List.length (w_particles w).
Proof.
  destruct (palette_get key) as [[pal|k]|] eqn:Hget.
  - apply palette_get_own in Hget.
    destruct (setMood_registered random key w Hget) as (_ & _ & Hps & _).
    cbv zeta in Hps. symmetry. eapply Forall2_length. exact Hps.
  - unfold setMood. rewrite Hget. cbn [ref_bg].
    rewrite recolor_no_colors by reflexivity.
    cbn [w_particles with_palette].
    destruct (w_particles w) as [|p ps] eqn:Hps.
    + destruct (show_palette_particles
                  (with_particles (with_palette w (Inherited k)) []))
        as (Hp & _). rewrite Hp. reflexivity.
    + cbn [state_of w_particles with_particles]. reflexivity.
  - rewrite setMood_undefined_key by exact Hget. reflexivity.
Qed.

Lemma step_pool_alive (n : nat) (s : Session num) (e : Event num) :
  pool_alive n s -> pool_alive n (step random s e).
Proof.
  intros (Hrun & Hall & Hlen). unfold pool_alive.
  destruct e as [iw ih|cx cy|cx cy| |mood|]; cbn [step dispatch s_world s_running];
    try (repeat apply conj; assumption).
  - pose proof (setMood_non_null random (mood_key mood) (s_world s) Hall)
      as Hnn.
    pose proof (setMood_pool_length (mood_key mood) (s_world s)) as Hl.
    destruct (setMood random (mood_key mood) (s_world s)) as [w' u|w'];
      cbn [state_of s_world s_running] in *;
      repeat apply conj; try assumption; congruence.
  - rewrite Hrun.
    destruct (animate_shape (s_world s) Hall) as (ps' & Heq & Hkeep).
    rewrite Heq. cbn [s_world s_running w_particles with_particles].
    repeat apply conj; [reflexivity| |].
    + eapply Forall2_keeps_non_null; eassumption.
    + rewrite <- Hlen. symmetry. eapply Forall2_length. exact Hkeep.
Qed.

Lemma run_pool_alive (n : nat) (es : list (Event num)) :
  forall s : Session num, pool_alive n s -> pool_alive n (run random es s).
Proof.
  unfold run. induction es as [|e es IH]; intros s Hs; [exact Hs|].
  cbn [fold_left]. apply IH, step_pool_alive, Hs.
Qed.
End SessionFacts.

(** X7: whatever events come, and whatever mood keys the buttons carry,
    the animation keeps running: after any sequence of events a frame is
    still scheduled, the pool has the size it had, and no particle has a
    [null] target colour.  A [setMood] that throws (on a key that
    [PALETTES] inherits) leaves the particles as they were. *)
Theorem session_survives_any_mood {num : Type} `{Arith num} `{Trig num}
        (random : nat -> num) (es : list (Event num)) (s : Session num) :
  s_running s = true -> Forall non_null (w_particles (s_world s)) ->
  let s' := run random es s in
  s_running s' = true
  /\ Forall non_null (w_particles (s_world s'))
  /\ List.length (w_particles (s_world s'))
     = List.length (w_particles (s_world s)).
Proof.
  intros Hrun Hall s'.
  apply (run_pool_alive random es). repeat split; assumption.
Qed.

Lemma session_survives_any_mood_constructor :
  let s' := @run float _ poly_trig demo_random
                 [MoodClick (Some "constructor"); Frame; MoodClick None;
                  TouchEnd; Frame]
                 (mkSession two_blobs true 0) in
  s_running s' = true
  /\ Forall non_null (w_particles (s_world s'))
  /\ List.length (w_particles (s_world s')) = 2%nat.
Proof.
  exact (@session_survives_any_mood float _ poly_trig demo_random
           [MoodClick (Some "constructor"); Frame; MoodClick None;
            TouchEnd; Frame]
           (mkSession two_blobs true 0) eq_refl two_blobs_non_null).
Defined.

(** ** What every [update()] of a frame establishes *)

Section PerUpdate.
Context {num : Type} `{Arith num} `{Trig num}.
Variable R : Particle num -> Particle num -> Prop.
Variables width height : num.
Hypothesis update_R :
  forall (w w' : World num) (p p' : Particle num),
    w_width w = width -> w_height w = height ->
    update w p = Ok w' p' -> R p p'.

Lemma update_and_draw_each (ps : list (Particle num)) :
  forall (w w' : World num) (ps' : list (Particle num)),
    w_width w = width -> w_height w = height ->
    update_and_draw w ps = Ok (w', ps') tt -> Forall2 R ps ps'.
Proof.
  induction ps as [|p rest IH]; intros w w' ps' Hw Hh.
  - cbn [update_and_draw]. intros Heq. inversion Heq. constructor.
  - cbn [update_and_draw].
    destruct (update w p) as [w1 p1|w1] eqn:Hup; [|discriminate].
    assert (Hsize : w_width w1 = width /\ w_height w1 = height).
    { unfold update in Hup. destruct (before_mouse p); [|discriminate].
      inversion Hup as [[Hw1 Hp1]]. split; assumption. }
    destruct Hsize as [Hw1 Hh1].
    destruct (update_and_draw (draw w1 p1) rest) as [[w2 rest'] u|[w2 rest']]
      eqn:Hrest; [|discriminate].
    intros Heq. inversion Heq as [[Hw2 Hps]]. constructor.
    + exact (update_R w p Hw Hh Hup).
    + destruct u. eapply (IH (draw w1 p1)); [exact Hw1|exact Hh1|exact Hrest].
Qed.

Lemma animate_each (w w' : World num) :
  w_width w = width -> w_height w = height ->
  animate w = Ok w' tt -> Forall2 R (w_particles w) (w_particles w').
Proof.
  intros Hw Hh. unfold animate.
  destruct (update_and_draw (with_canvas w []) (w_particles w))
    as [[w1 ps] u|[w1 ps]] eqn:Hloop; [|discriminate].
  intros Heq. inversion Heq as [Hw1]. cbn [w_particles with_particles].
  destruct u. eapply update_and_draw_each; [| |exact Hloop]; assumption.
Qed.
End PerUpdate.

Section FloatUpdate.
Variable T : Trig float.

Lemma wrap_step_inside (width height : float) (q : Particle float) :
  (0 <=? width)%float = true -> (0 <=? height)%float = true ->
  (0 <=? p_radius q)%float = true ->
  in_padded_page width height (wrap_step width height q).
Proof.
  intros Hw Hh Hr. unfold in_padded_page, wrap_step.
  cbn [p_radius p_x p_y with_pos].
  cbn [n_mul n_add n_neg n_lt n_of_Z float_arith].
  change (float_of_Z 2) with 2%float.
  set (buffer := (p_radius q * 2)%float).
  assert (Hb : (0 <=? buffer)%float = true)
    by (apply float_mul_two_nonneg; exact Hr).
  pose proof (float_nonneg_opp (float_add_nonneg Hw Hb) Hb) as Hwx.
  pose proof (float_nonneg_opp (float_add_nonneg Hh Hb) Hb) as Hhy.
  repeat apply conj.
  - destruct (p_x q <? - buffer)%float eqn:Hlow.
    + rewrite float_ltb_irrefl. exact Hwx.
    + destruct (width + buffer <? p_x q)%float;
        [apply float_ltb_irrefl|exact Hlow].
  - destruct (p_x q <? - buffer)%float eqn:Hlow.
    + rewrite float_ltb_irrefl. apply float_ltb_irrefl.
    + destruct (width + buffer <? p_x q)%float eqn:Hhigh;
        [exact Hwx|exact Hhigh].
  - destruct (p_y q <? - buffer)%float eqn:Hlow.
    + rewrite float_ltb_irrefl. exact Hhy.
    + destruct (height + buffer <? p_y q)%float;
        [apply float_ltb_irrefl|exact Hlow].
  - destruct (p_y q <? - buffer)%float eqn:Hlow.
    + rewrite float_ltb_irrefl. apply float_ltb_irrefl.
    + destruct (height + buffer <? p_y q)%float eqn:Hhigh;
        [exact Hhy|exact Hhigh].
Qed.

(** One [update()] of a particle whose radius sits on its base radius. *)
Lemma update_radius_at_base (w w' : World float) (p p' : Particle float) :
  update w p = Ok w' p' -> radius_at_base p ->
  same_radius p p' /\ radius_at_base p'.
Proof.
  intros Hup (Hb & Hplain & Hr).
  pose proof (update_keeps_identity w p Hup) as (_ & Hkb & _).
  unfold update in Hup.
  destruct (before_mouse p) as [q|] eqn:Hq; [|discriminate].
  inversion Hup as [[Hw' Hp']]. clear Hup. subst p'.
  set (m := ease_mouse (w_targetMouse w) (w_mouse w)) in *.
  destruct (before_wrap m p Hq) as (_ & _ & Hrad). cbv zeta in Hrad.
  rewrite (radius_step_at_base p Hb Hplain) in Hrad.
  set (q' := radius_step (repel_step m q)) in *.
  assert (Hr' : p_radius (wrap_step (w_width w) (w_height w) q')
                = p_radius p).
  { unfold wrap_step. cbn [p_radius with_pos]. exact Hrad. }
  split; [split; [exact Hr'|exact Hkb]|].
  unfold radius_at_base. rewrite Hkb, Hr'. repeat split; assumption.
Qed.

Lemma update_in_padded_page (w w' : World float) (p p' : Particle float) :
  (0 <=? w_width w)%float = true -> (0 <=? w_height w)%float = true ->
  update w p = Ok w' p' -> radius_at_base p ->
  in_padded_page (w_width w) (w_height w) p'.
Proof.
  intros Hw Hh Hup (Hb & Hplain & Hr).
  unfold update in Hup.
  destruct (before_mouse p) as [q|] eqn:Hq; [|discriminate].
  inversion Hup as [[Hw' Hp']]. clear Hup.
  set (m := ease_mouse (w_targetMouse w) (w_mouse w)) in *.
  destruct (before_wrap m p Hq) as (_ & _ & Hrad). cbv zeta in Hrad.
  rewrite (radius_step_at_base p Hb Hplain) in Hrad.
  apply wrap_step_inside; try assumption. rewrite Hrad. exact Hr.
Qed.
End FloatUpdate.

(** ** Lists in step *)

Section InStep.
Variables A : Type.
Variables (P P' : A -> Prop) (Q : A -> A -> Prop).

Lemma Forall2_under (l l' : list A) :
  Forall P l -> Forall2 (fun a b => P a -> Q a b /\ P' b) l l' ->
  Forall2 Q l l' /\ Forall P' l'.
Proof.
  intros Hall Hrel. revert Hall.
  induction Hrel as [|a b l l' Hab _ IH]; intros Hall.
  - split; constructor.
  - inversion Hall as [|? ? Ha Hl]; subst.
    destruct (Hab Ha) as [Hq Hp]. destruct (IH Hl) as [Hqs Hps].
    split; constructor; assumption.
Qed.

Lemma Forall2_same (l : list A) : (forall a, Q a a) -> Forall2 Q l l.
Proof. intros Hrefl. induction l; constructor; auto. Qed.

Lemma Forall2_chain (l1 l2 l3 : list A) :
  (forall a b c, Q a b -> Q b c -> Q a c) ->
  Forall2 Q l1 l2 -> Forall2 Q l2 l3 -> Forall2 Q l1 l3.
Proof.
  intros Htrans H12. revert l3.
  induction H12 as [|a b l1 l2 Hab _ IH]; intros l3 H23;
    inversion H23; subst; constructor; eauto.
Qed.
End InStep.

(** ** What [setMood] does to the pool, however it ends *)

Section MoodPool.
Context {num : Type} `{Arith num}.
Variable random : nat -> num.

Lemma setMood_pool_cases (key : string) (w : World num) :
  Forall2 (fun p p' => p' = p \/ exists c, p' = with_targetRgb p c)
          (w_particles w) (w_particles (state_of (setMood random key w))).
Proof.
  destruct (palette_get key) as [[pal|k]|] eqn:Hget.
  - apply palette_get_own in Hget.
    destruct (setMood_registered random key w Hget) as (_ & _ & Hps & _).
    cbv zeta in Hps. eapply Forall2_impl; [|exact Hps].
    intros p p' [->|(c & _ & ->)]; [left; reflexivity|right; eauto].
  - unfold setMood. rewrite Hget. cbn [ref_bg].
    rewrite recolor_no_colors by reflexivity.
    cbn [w_particles with_palette].
    destruct (w_particles w) as [|p ps] eqn:Hps.
    + destruct (show_palette_particles
                  (with_particles (with_palette w (Inherited k)) []))
        as (Hp & _). rewrite Hp. constructor.
    + cbn [state_of w_particles with_particles].
      apply Forall2_same. intros a. left. reflexivity.
  - rewrite setMood_undefined_key by exact Hget.
    apply Forall2_same. intros a. left. reflexivity.
Qed.
End MoodPool.

(** ** The radius over the life of the page *)

Lemma same_radius_refl {num : Type} (p : Particle num) : same_radius p p.
Proof. split; reflexivity. Qed.

Lemma same_radius_trans {num : Type} (p q r : Particle num) :
  same_radius p q -> same_radius q r -> same_radius p r.
Proof. intros [H1 H2] [H3 H4]. split; congruence. Qed.

Lemma same_radius_at_base (p p' : Particle float) :
  same_radius p p' -> radius_at_base p -> radius_at_base p'.
Proof.
  intros [Hr Hb] (Hbase & Hplain & Hpos). unfold radius_at_base.
  rewrite Hr, Hb. repeat split; assumption.
Qed.

Section RadiusKept.
Variable T : Trig float.
Variable random : nat -> float.

Lemma step_same_radius (n : nat) (s : Session float) (e : Event float) :
  pool_alive n s -> Forall radius_at_base (w_particles (s_world s)) ->
  Forall2 same_radius (w_particles (s_world s))
          (w_particles (s_world (step random s e)))
  /\ Forall radius_at_base (w_particles (s_world (step random s e))).
Proof.
  intros (Hrun & Hall & Hlen) Hbase.
  destruct e as [iw ih|cx cy|cx cy| |mood|];
    cbn [step dispatch s_world];
    try (split; [apply Forall2_same, same_radius_refl|exact Hbase]).
  - pose proof (setMood_pool_cases random (mood_key mood) (s_world s))
      as Hcases.
    assert (Hst : w_particles
                    (s_world
                       match setMood random (mood_key mood) (s_world s) with
                       | Ok w _ => mkSession w (s_running s) (s_errors s)
                       | Throw w =>
                           mkSession w (s_running s) (S (s_errors s))
                       end)
                  = w_particles
                      (state_of (setMood random (mood_key mood) (s_world s)))).
    { destruct (setMood random (mood_key mood) (s_world s)); reflexivity. }
    rewrite Hst. apply Forall2_under with (P := radius_at_base);
      [exact Hbase|].
    eapply Forall2_impl; [|exact Hcases].
    intros p p' Hp Hb.
    assert (Hsame : same_radius p p').
    { destruct Hp as [->|(c & ->)]; split; reflexivity. }
    split; [exact Hsame|]. eapply same_radius_at_base; eassumption.
  - rewrite Hrun.
    destruct (animate_shape (s_world s) Hall) as (ps' & Heq & _).
    rewrite Heq. cbn [s_world].
    apply Forall2_under with (P := radius_at_base); [exact Hbase|].
    apply (animate_each
             (fun p p' => radius_at_base p ->
                          same_radius p p' /\ radius_at_base p')
             (width := w_width (s_world s)) (height := w_height (s_world s)))
      with (w := s_world s); try reflexivity; [|exact Heq].
    intros w w' p p' _ _ Hup. apply (update_radius_at_base T w Hup).
Qed.

Lemma run_same_radius (n : nat) (es : list (Event float)) :
  forall s : Session float,
    pool_alive n s -> Forall radius_at_base (w_particles (s_world s)) ->
    Forall2 same_radius (w_particles (s_world s))
            (w_particles (s_world (run random es s)))
    /\ Forall radius_at_base (w_particles (s_world (run random es s))).
Proof.
  unfold run. induction es as [|e es IH]; intros s Hs Hbase.
  - split; [apply Forall2_same, same_radius_refl|exact Hbase].
  - cbn [fold_left].
    destruct (step_same_radius e Hs Hbase) as [H1 Hb1].
    destruct (IH (step random s e) (step_pool_alive random e Hs) Hb1)
      as [H2 Hb2].
    split; [|exact Hb2].
    eapply Forall2_chain; [|exact H1|exact H2].
    intros a b c. apply same_radius_trans.
Qed.
End RadiusKept.

(** ** From the start of the script *)

Section FromBoot.
Variable T : Trig float.
Variable random : nat -> float.
Hypothesis random_unit : unit_draws random.

(** The start of the script is [initParticles()] followed by what a click on
    the Joy button and a frame do. *)
Lemma boot_as_run (innerWidth innerHeight : float) (w : World float) :
  w_currentPalette w = Own joy ->
  exists w1,
    boot random innerWidth innerHeight w
    = run random [MoodClick (Some "joy"); Frame] (mkSession w1 true 0)
    /\ pool_alive PARTICLE_COUNT (mkSession w1 true 0)
    /\ Forall radius_at_base (w_particles w1).
Proof.
  intros Hpal. unfold boot, initParticles.
  set (w0 := with_particles (resize innerWidth innerHeight w) []).
  assert (Hcs : ref_colors (w_currentPalette w0) = Some (colors joy)).
  { subst w0. cbn [with_particles resize with_canvas with_size
                   w_currentPalette]. rewrite Hpal. reflexivity. }
  destruct (push_particles_shape random
              (float_pick_index "joy" random_unit eq_refl)
              PARTICLE_COUNT w0 Hcs) as (ps & -> & Hlen & Hall).
  set (w1 := with_draws _ _).
  assert (Hps : w_particles w1 = ps) by reflexivity.
  assert (Hnn : Forall non_null (w_particles w1)).
  { rewrite Hps. eapply Forall_impl; [|exact Hall].
    intros p [(c & Hin & Ht & _) _].
    destruct (@registered_color_valid float _ "joy" joy c eq_refl
                (or_intror Hin)) as (_ & rgb & Hrgb).
    exists rgb. congruence. }
  assert (Hbase : Forall radius_at_base (w_particles w1)).
  { rewrite Hps. eapply Forall_impl; [|exact Hall].
    intros p (_ & Hb & k & Hr).
    eapply newborn_radius_at_base; eassumption. }
  exists w1. split; [|split; [|exact Hbase]].
  - unfold run. cbn [fold_left step dispatch mood_key s_world s_running
                     s_errors].
    pose proof (setMood_non_null random "joy" w1 Hnn) as Hnn2.
    destruct (setMood_registered_returns random_unit "joy" w1 eq_refl)
      as [w2 Hok].
    rewrite Hok in *. cbn [state_of] in Hnn2.
    cbn [s_world s_running s_errors].
    destruct (animate_shape w2 Hnn2) as (ps' & -> & _). reflexivity.
  - unfold pool_alive. cbn [s_running s_world].
    repeat split; [exact Hnn|]. rewrite Hps. exact Hlen.
Qed.
End FromBoot.

Section QuietSession.
Variable T : Trig float.
Variable random : nat -> float.
Hypothesis random_unit : unit_draws random.

Lemma step_plain_quiet (n : nat) (s : Session float) (e : Event float) :
  pool_alive n s -> plain_event e ->
  s_errors (step random s e) = s_errors s.
Proof.
  intros (Hrun & Hall & Hlen) Hplain.
  destruct e as [iw ih|cx cy|cx cy| |mood|];
    cbn [step dispatch s_errors]; try reflexivity.
  - cbn [plain_event] in Hplain. unfold inherited_key in Hplain.
    destruct (palette_get (mood_key mood)) as [[pal|k]|] eqn:Hget.
    + apply palette_get_own in Hget.
      destruct (setMood_registered_returns random_unit (mood_key mood)
                                           (s_world s) Hget) as [w' ->].
      reflexivity.
    + discriminate Hplain.
    + rewrite setMood_undefined_key by exact Hget. reflexivity.
  - rewrite Hrun.
    destruct (animate_shape (s_world s) Hall) as (ps' & -> & _).
    reflexivity.
Qed.

Lemma run_plain_quiet (n : nat) (es : list (Event float)) :
  Forall plain_event es ->
  forall s : Session float,
    pool_alive n s ->
    pool_alive n (run random es s)
    /\ s_errors (run random es s) = s_errors s.
Proof.
  unfold run. induction 1 as [|e es He Hes IH]; intros s Hs;
    [split; [exact Hs|reflexivity]|].
  cbn [fold_left].
  destruct (IH (step random s e) (step_pool_alive random e Hs)) as [Ha He'].
  split; [exact Ha|]. rewrite He'. eapply step_plain_quiet; eassumption.
Qed.
End QuietSession.

(** X8: with draws of [Math.random()] in [[0, 1)], the script starts
    without an exception ([resize], [initParticles], [setMood("joy")] and
    the first frame all return), and after any sequence of events in which
    no clicked button carries a key that [PALETTES] only inherits, no
    listener has thrown, a frame is scheduled, the pool has
    [PARTICLE_COUNT] particles and none has a [null] target colour. *)
Theorem script_runs_without_exception (T : Trig float)
        (random : nat -> float) (innerWidth innerHeight : float)
        (w : World float) (es : list (Event float)) :
  unit_draws random -> w_currentPalette w = Own joy ->
  Forall plain_event es ->
  let s := run random es (boot random innerWidth innerHeight w) in
  s_errors s = 0%nat
  /\ s_running s = true
  /\ List.length (w_particles (s_world s)) = PARTICLE_COUNT
  /\ Forall non_null (w_particles (s_world s)).
Proof.
  intros Hdraws Hpal Hplain s.
  destruct (boot_as_run T Hdraws innerWidth innerHeight w Hpal)
    as (w1 & Hboot & Halive & _).
  assert (Hstart : Forall (@plain_event float)
                          [MoodClick (Some "joy"); Frame])
    by (repeat constructor).
  destruct (run_plain_quiet T Hdraws Hstart Halive) as [Halive0 Herr0].
  rewrite <- Hboot in Halive0, Herr0.
  destruct (run_plain_quiet T Hdraws Hplain Halive0)
    as [(Hrun & Hall & Hlen) Herr].
  subst s. rewrite Herr, Herr0. repeat apply conj; auto.
Qed.

Lemma script_runs_without_exception_demo :
  let s := @run float _ poly_trig demo_random
                [MouseMove 100 50; Frame; MoodClick (Some "energy"); Frame;
                 MoodClick (Some "Energy"); Resize 1024 768; TouchEnd;
                 MoodClick None; Frame]%float
                (@boot float _ poly_trig demo_random 800 600 page)%float in
  s_errors s = 0%nat
  /\ s_running s = true
  /\ List.length (w_particles (s_world s)) = 150%nat
  /\ Forall non_null (w_particles (s_world s)).
Proof.
  apply (@script_runs_without_exception poly_trig demo_random
           800%float 600%float page).
  - exact demo_random_unit.
  - reflexivity.
  - repeat constructor.
Defined.

(** X9: in the running page no particle's radius ever changes.  With draws
    in [[0, 1)], once the script has started every particle has a finite
    non-negative radius equal to its base radius, and after any sequence of
    events, whatever the mood keys, each particle of the pool has exactly
    the radius and the base radius it had then: the line of [update()] that
    returns the radius to normal never moves it. *)
Theorem radius_is_never_changed (T : Trig float) (random : nat -> float)
        (innerWidth innerHeight : float) (w : World float)
        (es : list (Event float)) :
  unit_draws random -> w_currentPalette w = Own joy ->
  let s0 := boot random innerWidth innerHeight w in
  let s := run random es s0 in
  Forall radius_at_base (w_particles (s_world s0))
  /\ Forall2 same_radius (w_particles (s_world s0)) (w_particles (s_world s))
  /\ Forall radius_at_base (w_particles (s_world s)).
Proof.
  intros Hdraws Hpal s0 s.
  destruct (boot_as_run T Hdraws innerWidth innerHeight w Hpal)
    as (w1 & Hboot & Halive & Hbase).
  destruct (run_same_radius T random [MoodClick (Some "joy"); Frame]
                            Halive Hbase) as [_ Hbase0].
  pose proof (run_pool_alive random [MoodClick (Some "joy"); Frame] Halive)
    as Halive0.
  rewrite <- Hboot in Hbase0, Halive0. fold s0 in Hbase0, Halive0.
  destruct (run_same_radius T random es Halive0 Hbase0) as [Hsame Hbase'].
  repeat split; assumption.
Qed.

Lemma radius_is_never_changed_demo :
  let s0 := @boot float float_arith poly_trig demo_random
                   800%float 600%float page in
  let s := @run float float_arith poly_trig demo_random
                [MouseMove 100 50; Frame; MoodClick (Some "constructor");
                 Frame; Resize 320 200; Frame]%float s0 in
  Forall radius_at_base (w_particles (s_world s0))
  /\ Forall2 same_radius (w_particles (s_world s0)) (w_particles (s_world s))
  /\ Forall radius_at_base (w_particles (s_world s)).
Proof.
  apply (@radius_is_never_changed poly_trig demo_random 800%float 600%float
           page).
  - exact demo_random_unit.
  - reflexivity.
Defined.

(** X10: after a frame every particle's centre is inside the page padded
    by twice its radius, so that none of the four boundary tests would fire
    again: on a page of non-negative size, for a pool without [null]
    targets whose radii sit on their base radii. *)
Theorem frame_leaves_pool_in_padded_page (T : Trig float) (w : World float) :
  Forall non_null (w_particles w) ->
  Forall radius_at_base (w_particles w) ->
  (0 <=? w_width w)%float = true -> (0 <=? w_height w)%float = true ->
  exists w',
    animate w = Ok w' tt
    /\ Forall (in_padded_page (w_width w) (w_height w)) (w_particles w').
Proof.
  intros Hall Hbase Hw Hh.
  destruct (animate_shape w Hall) as (ps' & Heq & _).
  eexists. split; [exact Heq|]. cbn [w_particles with_particles].
  apply (@Forall2_under _ radius_at_base
           (in_padded_page (w_width w) (w_height w)) (fun _ _ => True)
           (w_particles w) ps' Hbase).
  apply (animate_each
           (fun p p' => radius_at_base p ->
                        True /\ in_padded_page (w_width w) (w_height w) p')
           (width := w_width w) (height := w_height w))
    with (w := w) (w' := with_particles
                          (with_canvas
                             (with_mouse w (ease_mouse_times
                                              (List.length (w_particles w))
                                              (w_targetMouse w) (w_mouse w)))
                             (map disc_of ps')) ps');
    try reflexivity; [|exact Heq].
  intros w0 w0' p p' Hw0 Hh0 Hup Hp. split; [exact I|].
  rewrite <- Hw0, <- Hh0.
  eapply update_in_padded_page; [| |exact Hup|exact Hp].
  - rewrite Hw0. exact Hw.
  - rewrite Hh0. exact Hh.
Qed.

Lemma frame_leaves_pool_in_padded_page_right :
  exists w',
    @animate float _ poly_trig (with_particles page [blob_past_right])
    = Ok w' tt
    /\ Forall (in_padded_page 800 600) (w_particles w').
Proof.
  apply (@frame_leaves_pool_in_padded_page poly_trig
           (with_particles page [blob_past_right])).
  - repeat constructor. eexists. reflexivity.
  - repeat constructor.
  - reflexivity.
  - reflexivity.
Defined.

(** X11: while the raw pointer target coincides with the smoothed pointer,
    as it does until the first pointer event, a frame leaves the smoothed
    pointer exactly where it is, however many particles ease it: in
    binary64 the step [m += (t - m) * 0.1] is stationary at [t]. *)
Theorem pointer_rests_on_its_target (T : Trig float) (w : World float) :
  Forall non_null (w_particles w) ->
  w_targetMouse w = (m_x (w_mouse w), m_y (w_mouse w)) ->
  is_plain_number (m_x (w_mouse w)) = true ->
  is_plain_number (m_y (w_mouse w)) = true ->
  exists w', animate w = Ok w' tt /\ w_mouse w' = w_mouse w.
Proof.
  intros Hall Ht Hx Hy.
  destruct (animate_shape w Hall) as (ps' & Heq & _).
  eexists. split; [exact Heq|].
  cbn [w_mouse with_particles with_canvas with_mouse].
  rewrite Ht. apply ease_mouse_times_at_target; assumption.
Qed.

Lemma pointer_rests_on_its_target_origin :
  exists w',
    @animate float _ poly_trig
             (with_particles page [blob_past_right; blob_past_right])
    = Ok w' tt
    /\ w_mouse w' = mkMouse 0%float 0%float false.
Proof.
  apply (@pointer_rests_on_its_target poly_trig
           (with_particles page [blob_past_right; blob_past_right])).
  - repeat constructor; eexists; reflexivity.
  - reflexivity.
  - reflexivity.
  - reflexivity.
Defined.

(** ** The pointer easing and the speed, over exact arithmetic *)

Section ExactPointer.
Open Scope R_scope.

Lemma ease_mouse_gap (t : R * R) (m : Mouse R) :
  m_x (ease_mouse t m) - fst t = (m_x m - fst t) * (9 / 10)
  /\ m_y (ease_mouse t m) - snd t = (m_y m - snd t) * (9 / 10)
  /\ m_isActive (ease_mouse t m) = m_isActive m.
Proof.
  unfold ease_mouse, dec.
  cbn [m_x m_y m_isActive n_add n_sub n_mul n_div n_of_Z real_arith].
  repeat split; lra.
Qed.

Lemma ease_mouse_times_gap (n : nat) (t : R * R) :
  forall m : Mouse R,
    m_x (ease_mouse_times n t m) - fst t = (m_x m - fst t) * (9 / 10) ^ n
    /\ m_y (ease_mouse_times n t m) - snd t = (m_y m - snd t) * (9 / 10) ^ n
    /\ m_isActive (ease_mouse_times n t m) = m_isActive m.
Proof.
  induction n as [|n IH]; intros m; cbn [ease_mouse_times pow].
  - repeat split; lra.
  - destruct (IH (ease_mouse t m)) as (Hx & Hy & Ha).
    destruct (ease_mouse_gap t m) as (Hx1 & Hy1 & Ha1).
    rewrite Hx, Hy, Ha, Hx1, Hy1, Ha1. repeat split; ring.
Qed.

Lemma cos_times_force (c f : R) :
  -1 <= c <= 1 -> 0 <= f <= 1 -> -1 <= c * f * 1 <= 1.
Proof. intros Hc Hf. split; nra. Qed.

Lemma friction_bound (v c : R) :
  -1 <= c <= 1 ->
  Rabs ((v + c * (2 / 100)) * (98 / 100))
  <= 98 / 100 * Rabs v + 196 / 10000.
Proof.
  intros Hc. pose proof (Rle_abs v) as H1. pose proof (Rle_abs (- v)) as H2.
  rewrite Rabs_Ropp in H2. apply Rabs_le. split; lra.
Qed.

Lemma repelled_bound (v k B : R) :
  Rabs v <= B -> -1 <= k <= 1 -> Rabs (v - k) <= B + 1.
Proof.
  intros Hv Hk. apply Rabs_le.
  pose proof (Rle_abs v) as H1. pose proof (Rle_abs (- v)) as H2.
  rewrite Rabs_Ropp in H2. split; lra.
Qed.

(** One [update()] over the reals: the velocity it leaves. *)
Lemma update_velocity_bound (w : World R) (p : Particle R) :
  non_null p ->
  exists w' p',
    update w p = Ok w' p'
    /\ (Rabs (p_vx p') <= 98 / 100 * Rabs (p_vx p) + 196 / 10000 + 1
        /\ Rabs (p_vy p') <= 98 / 100 * Rabs (p_vy p) + 196 / 10000 + 1)
    /\ (m_isActive (w_mouse w) = false ->
        Rabs (p_vx p') <= 98 / 100 * Rabs (p_vx p) + 196 / 10000
        /\ Rabs (p_vy p') <= 98 / 100 * Rabs (p_vy p) + 196 / 10000).
Proof.
  intros Hp. destruct (non_null_before_mouse Hp) as [q Hq].
  destruct (update_velocity w p Hq) as (w' & p' & Hup & Hm & Hvx & Hvy).
  exists w', p'. split; [exact Hup|]. rewrite Hvx, Hvy.
  assert (Hqv : p_vx q
                = (p_vx p + cos (p_angle p + p_speed p) * (2 / 100))
                  * (98 / 100)
                /\ p_vy q
                   = (p_vy p + sin (p_angle p + p_speed p) * (2 / 100))
                     * (98 / 100)).
  { unfold before_mouse, color_step in Hq.
    destruct (p_targetRgb p); [|discriminate].
    cbn [option_map] in Hq. inversion Hq. split; reflexivity. }
  destruct Hqv as [Hqx Hqy].
  pose proof (friction_bound (p_vx p) (COS_bound (p_angle p + p_speed p)))
    as Hfx.
  pose proof (friction_bound (p_vy p) (SIN_bound (p_angle p + p_speed p)))
    as Hfy.
  rewrite <- Hqx in Hfx. rewrite <- Hqy in Hfy.
  assert (Hact : m_isActive (w_mouse w') = m_isActive (w_mouse w)).
  { rewrite Hm. apply ease_mouse_gap. }
  set (m := w_mouse w') in *.
  assert (Hcases :
            repel_step m q = q
            \/ exists kx ky,
                 m_isActive m = true
                 /\ -1 <= kx <= 1 /\ -1 <= ky <= 1
                 /\ p_vx (repel_step m q) = p_vx q - kx
                 /\ p_vy (repel_step m q) = p_vy q - ky).
  { destruct (m_isActive m) eqn:Ha;
      [|left; apply repel_step_inactive; exact Ha].
    destruct (pointer_distance m q <? forceRadius)%num eqn:Hnear;
      [|left; apply repel_step_far; exact Hnear].
    right. rewrite (repel_step_near m q Ha Hnear). cbv zeta.
    cbn [p_vx p_vy with_vel].
    apply Rltb_true in Hnear.
    assert (Hd : 0 <= pointer_distance m q)
      by (unfold pointer_distance; apply sqrt_pos).
    set (d := pointer_distance m q) in *.
    assert (Hf : 0 <= (forceRadius - d) / forceRadius <= 1).
    { unfold forceRadius in *. cbn [n_of_Z real_arith] in *. split; lra. }
    eexists _, _. split; [reflexivity|].
    split; [|split; [|split; reflexivity]].
    - apply cos_times_force; [apply COS_bound|exact Hf].
    - apply cos_times_force; [apply SIN_bound|exact Hf]. }
  destruct Hcases as [->|(kx & ky & Ha & Hkx & Hky & -> & ->)].
  - split; [split; lra|]. intros _. split; assumption.
  - split.
    + split; apply repelled_bound; assumption.
    + rewrite <- Hact, Ha. discriminate.
Qed.
End ExactPointer.

(** X12: over exact arithmetic a frame on a pool of [n] particles
    multiplies the distance between the smoothed pointer and the raw target
    by [0.9^n] in each coordinate (one easing per particle), and leaves
    the pointer's active flag as it is. *)
Theorem frame_closes_pointer_gap (w : World R) :
  Forall non_null (w_particles w) ->
  exists w',
    animate w = Ok w' tt
    /\ (m_x (w_mouse w') - fst (w_targetMouse w)
        = (m_x (w_mouse w) - fst (w_targetMouse w))
          * (9 / 10) ^ List.length (w_particles w))%R
    /\ (m_y (w_mouse w') - snd (w_targetMouse w)
        = (m_y (w_mouse w) - snd (w_targetMouse w))
          * (9 / 10) ^ List.length (w_particles w))%R
    /\ m_isActive (w_mouse w') = m_isActive (w_mouse w)
    /\ w_targetMouse w' = w_targetMouse w.
Proof.
  intros Hall. destruct (animate_shape w Hall) as (ps' & Heq & _).
  eexists. split; [exact Heq|].
  cbn [w_mouse w_targetMouse with_particles with_canvas with_mouse].
  destruct (ease_mouse_times_gap (List.length (w_particles w))
                                 (w_targetMouse w) (w_mouse w))
    as (Hx & Hy & Ha).
  repeat apply conj; try assumption. reflexivity.
Qed.

Lemma frame_closes_pointer_gap_calm :
  exists w',
    animate calm_page = Ok w' tt
    /\ (m_x (w_mouse w') - 100 = (0 - 100) * (9 / 10) ^ 2)%R.
Proof.
  destruct (@frame_closes_pointer_gap calm_page)
    as (w' & Hok & Hx & _).
  - repeat constructor; eexists; reflexivity.
  - exists w'. split; [exact Hok|exact Hx].
Defined.

(** X13: over exact arithmetic one [update()] leaves each velocity
    component within [0.98 * |v| + 0.0196] of zero when the pointer is
    inactive, and within 1 more when it is active (the repulsion has
    length at most 1); so a component of magnitude at most 51 stays at
    most 51, and without the pointer one of at most 0.98 stays at most
    0.98. *)
Theorem update_bounds_speed (w : World R) (p : Particle R) :
  non_null p ->
  exists w' p',
    update w p = Ok w' p'
    /\ (Rabs (p_vx p') <= 98 / 100 * Rabs (p_vx p) + 196 / 10000 + 1
        /\ Rabs (p_vy p') <= 98 / 100 * Rabs (p_vy p) + 196 / 10000 + 1)%R
    /\ (m_isActive (w_mouse w) = false ->
        (Rabs (p_vx p') <= 98 / 100 * Rabs (p_vx p) + 196 / 10000
         /\ Rabs (p_vy p') <= 98 / 100 * Rabs (p_vy p) + 196 / 10000)%R)
    /\ ((Rabs (p_vx p) <= 51 -> Rabs (p_vx p') <= 51)%R
        /\ (Rabs (p_vy p) <= 51 -> Rabs (p_vy p') <= 51)%R)
    /\ (m_isActive (w_mouse w) = false ->
        ((Rabs (p_vx p) <= 98 / 100 -> Rabs (p_vx p') <= 98 / 100)%R
         /\ (Rabs (p_vy p) <= 98 / 100 -> Rabs (p_vy p') <= 98 / 100)%R)).
Proof.
  intros Hp.
  destruct (update_velocity_bound w Hp) as (w' & p' & Hup & [Hx Hy] & Hoff).
  exists w', p'. split; [exact Hup|].
  split; [split; assumption|]. split; [exact Hoff|]. split.
  - split; intros Hv; lra.
  - intros Ha. destruct (Hoff Ha) as [Hx' Hy']. split; intros Hv; lra.
Qed.

Lemma update_bounds_speed_calm :
  exists w' p',
    update calm_page blob_teal = Ok w' p'
    /\ (Rabs (p_vx p') <= 51)%R.
Proof.
  destruct (@update_bounds_speed calm_page blob_teal)
    as (w' & p' & Hup & _ & _ & [Hx _] & _).
  - eexists. reflexivity.
  - exists w', p'. split; [exact Hup|]. apply Hx.
    cbn [p_vx blob_teal]. rewrite Rabs_pos_eq; lra.
Defined.

(** ** [setMood]: the rest of the state *)

Section MoodState.
Context {num : Type} `{Arith num}.
Variable random : nat -> num.

Lemma recolor_ok_world (ps : list (Particle num)) :
  forall (w w3 : World num) (ps' : list (Particle num)),
    recolor random w ps = Ok (w3, ps') tt ->
    w3 = with_draws w (List.length ps + w_draws w).
Proof.
  induction ps as [|p rest IH]; intros w w3 ps'.
  - cbn [recolor]. intros Heq. inversion Heq. destruct w3; reflexivity.
  - cbn [recolor].
    destruct (pickColor random w) as [w1 hex|w1] eqn:Hpick; [|discriminate].
    assert (Hw1 : w1 = with_draws w (S (w_draws w))).
    { unfold pickColor in Hpick.
      destruct (ref_colors (w_currentPalette w)); [|discriminate].
      inversion Hpick. reflexivity. }
    destruct hex as [h|]; [|discriminate]. cbn [hexToRgb_of].
    destruct (recolor random w1 rest) as [[w2 rest'] u|[w2 rest']] eqn:Hrest;
      [|discriminate].
    destruct u. intros Heq. inversion Heq; subst w3.
    rewrite (IH _ _ _ Hrest), Hw1.
    unfold with_draws. cbn. f_equal. lia.
Qed.

(** What [setMood] leaves of the pointer, the palette and the background,
    however it ends. *)
Lemma setMood_keeps_pointer (key : string) (w : World num) :
  w_mouse (state_of (setMood random key w)) = w_mouse w
  /\ w_targetMouse (state_of (setMood random key w)) = w_targetMouse w
  /\ w_currentPalette (state_of (setMood random key w))
     = match palette_get key with
       | Some ref => ref
       | None => w_currentPalette w
       end
  /\ w_background (state_of (setMood random key w))
     = match palette_get key with
       | Some ref => match ref_bg ref with
                     | Some c => c
                     | None => w_background w
                     end
       | None => w_background w
       end.
Proof.
  unfold setMood.
  destruct (palette_get key) as [ref|]; [|repeat split; reflexivity].
  set (w2 := match ref_bg ref with
             | Some c => with_background (with_palette w ref) c
             | None => with_palette w ref
             end).
  assert (Hw2 : w_mouse w2 = w_mouse w /\ w_targetMouse w2 = w_targetMouse w
                /\ w_currentPalette w2 = ref
                /\ w_background w2 = match ref_bg ref with
                                     | Some c => c
                                     | None => w_background w
                                     end).
  { subst w2. destruct (ref_bg ref); repeat split; reflexivity. }
  destruct (ref_colors (w_currentPalette w2)) as [cs|] eqn:Hcs.
  - destruct (recolor_pool random (w_particles w2) w2 Hcs)
      as (n & ps' & Hst & _).
    destruct (recolor random w2 (w_particles w2)) as [[w3 ps3] u|[w3 ps3]];
      cbn [state_of] in Hst; inversion Hst; subst w3 ps3.
    + unfold show_palette.
      destruct (w_swatches _); [exact Hw2|].
      destruct (ref_colors _); exact Hw2.
    + exact Hw2.
  - rewrite (recolor_no_colors random (w_particles w2) w2 Hcs).
    destruct (w_particles w2).
    + unfold show_palette.
      destruct (w_swatches _); [exact Hw2|].
      destruct (ref_colors _); exact Hw2.
    + exact Hw2.
Qed.
End MoodState.

Lemma swatch_colors_five (cs : list string) :
  List.length cs = 5%nat ->
  map (fun i => nth_error cs (i mod 5)) (seq 0 5) = map Some cs.
Proof.
  destruct cs as [|c0 [|c1 [|c2 [|c3 [|c4 [|c5 rest]]]]]]; try discriminate.
  reflexivity.
Qed.

Lemma swatch_color_defined (cs : list string) (i : nat) :
  cs <> [] ->
  exists c, nth_error cs (i mod List.length cs) = Some c /\ In c cs.
Proof.
  intros Hne.
  assert (Hlen : List.length cs <> 0%nat) by (destruct cs; [congruence|discriminate]).
  destruct (nth_error cs (i mod List.length cs)) as [c|] eqn:Hnth.
  - exists c. split; [reflexivity|]. eapply nth_error_In. exact Hnth.
  - apply nth_error_None in Hnth.
    pose proof (Nat.mod_upper_bound i (List.length cs) Hlen). lia.
Qed.

(** X14: [setMood] with a registered key, on draws in [[0, 1)], shows the
    palette: swatch [i] gets colour [i mod 5] of the palette, so each
    swatch shows one of its colours and five swatches show them in order;
    the call takes one value of [Math.random()] for each particle and
    leaves the pointer, the page size and the canvas as they were. *)
Theorem setMood_shows_palette (random : nat -> float) (key : string)
        (pal : Palette) (w : World float) :
  own_property PALETTES key = Some pal -> unit_draws random ->
  exists w',
    setMood random key w = Ok w' tt
    /\ w_swatches w'
       = map (fun i => nth_error (colors pal) (i mod 5))
             (seq 0 (List.length (w_swatches w)))
    /\ Forall (fun sw => exists c, sw = Some c /\ In c (colors pal))
              (w_swatches w')
    /\ (List.length (w_swatches w) = 5%nat ->
        w_swatches w' = map Some (colors pal))
    /\ w_draws w' = (List.length (w_particles w) + w_draws w)%nat
    /\ w_mouse w' = w_mouse w /\ w_targetMouse w' = w_targetMouse w
    /\ w_width w' = w_width w /\ w_height w' = w_height w
    /\ w_canvas w' = w_canvas w.
Proof.
  intros Hown Hdraws.
  pose proof (registered_five_colors key Hown) as Hfive.
  unfold setMood, palette_get. rewrite Hown. cbn [ref_bg].
  set (w2 := with_background (with_palette w (Own pal)) (bg pal)).
  assert (Hcs : ref_colors (w_currentPalette w2) = Some (colors pal))
    by reflexivity.
  destruct (recolor_returns random (w_particles w2)
              (float_pick_index key Hdraws Hown) w2 Hcs) as [[w3 ps3] Hre].
  rewrite Hre. pose proof (recolor_ok_world random _ _ Hre) as Hw3.
  subst w3. subst w2. unfold show_palette.
  cbn [w_swatches with_particles with_draws with_background with_palette
       w_currentPalette ref_colors w_particles w_draws].
  assert (Hsw : Forall (fun sw => exists c, sw = Some c /\ In c (colors pal))
                       (map (fun i => nth_error (colors pal) (i mod 5))
                            (seq 0 (List.length (w_swatches w))))).
  { apply Forall_forall. intros sw Hin. apply in_map_iff in Hin.
    destruct Hin as (i & <- & _). rewrite <- Hfive.
    destruct (@swatch_color_defined (colors pal) i) as (c & Hc & Hin).
    - intros Hnil. rewrite Hnil in Hfive. discriminate.
    - exists c. split; assumption. }
  destruct (w_swatches w) as [|sw sws] eqn:Hsws.
  - eexists. split; [reflexivity|].
    cbn [w_swatches w_draws w_mouse w_targetMouse w_width w_height w_canvas
         with_particles with_draws with_background with_palette
         w_particles].
    rewrite Hsws. repeat apply conj; try reflexivity.
    + constructor.
    + discriminate.
  - eexists. split; [reflexivity|].
    cbn [w_swatches w_draws w_mouse w_targetMouse w_width w_height w_canvas
         with_particles with_draws with_background with_palette with_swatches
         w_particles].
    rewrite Hfive. repeat apply conj; try reflexivity.
    + exact Hsw.
    + intros Hlen. rewrite Hlen. apply swatch_colors_five. exact Hfive.
Qed.

Lemma setMood_shows_palette_serenity :
  exists w',
    setMood demo_random "serenity" started = Ok w' tt
    /\ w_swatches w'
       = [Some "#E0F7FA"; Some "#B2EBF2"; Some "#80DEEA"; Some "#4DD0E1";
          Some "#26C6DA"].
Proof.
  destruct (@setMood_shows_palette demo_random "serenity" serenity started
              eq_refl demo_random_unit)
    as (w' & Hok & _ & _ & Hfive & _).
  exists w'. split; [exact Hok|]. apply Hfive. vm_compute. reflexivity.
Defined.

(** ** The pointer over a run of events *)

Section PointerEvents.
Context {num : Type} `{Arith num} `{Trig num}.
Variable random : nat -> num.

Lemma ease_mouse_times_active (n : nat) (t : num * num) :
  forall m : Mouse num,
    m_isActive (ease_mouse_times n t m) = m_isActive m.
Proof.
  induction n as [|n IH]; intros m; [reflexivity|].
  cbn [ease_mouse_times]. rewrite IH. reflexivity.
Qed.

Lemma step_pointer (n : nat) (s : Session num) (e : Event num) :
  pool_alive n s ->
  (m_isActive (w_mouse (s_world (step random s e))),
   w_targetMouse (s_world (step random s e)))
  = pointer_after [e] (m_isActive (w_mouse (s_world s)))
                  (w_targetMouse (s_world s)).
Proof.
  intros (Hrun & Hall & Hlen).
  destruct e as [iw ih|cx cy|cx cy| |mood|];
    cbn [step dispatch s_world pointer_after]; try reflexivity.
  - destruct (setMood_keeps_pointer random (mood_key mood) (s_world s))
      as (Hm & Ht & _).
    destruct (setMood random (mood_key mood) (s_world s));
      cbn [state_of s_world] in *; rewrite Hm, Ht; reflexivity.
  - rewrite Hrun.
    destruct (animate_shape (s_world s) Hall) as (ps' & -> & _).
    cbn [s_world w_mouse w_targetMouse with_particles with_canvas with_mouse].
    rewrite ease_mouse_times_active. reflexivity.
Qed.

Lemma pointer_after_step (e : Event num) (es : list (Event num))
      (a : bool) (t : num * num) :
  pointer_after (e :: es) a t
  = pointer_after es (fst (pointer_after [e] a t))
                  (snd (pointer_after [e] a t)).
Proof. destruct e; reflexivity. Qed.
End PointerEvents.

(** X15: the pointer's active flag and raw target are what the pointer
    events made them, and nothing else touches them: after any sequence of
    events the flag is [true] if the last of the [mousemove], [touchstart]
    and [touchend] events was a [mousemove] or [touchstart], [false] if
    it was a [touchend], and unchanged if there was none; the raw target is
    the position of the last [mousemove] or [touchstart].  Frames, resizes
    and mood changes leave both as they are. *)
Theorem pointer_follows_pointer_events {num : Type} `{Arith num} `{Trig num}
        (random : nat -> num) (es : list (Event num)) (s : Session num) :
  s_running s = true -> Forall non_null (w_particles (s_world s)) ->
  let s' := run random es s in
  (m_isActive (w_mouse (s_world s')), w_targetMouse (s_world s'))
  = pointer_after es (m_isActive (w_mouse (s_world s)))
                  (w_targetMouse (s_world s)).
Proof.
  intros Hrun Hall s'. subst s'.
  assert (Halive : pool_alive (List.length (w_particles (s_world s))) s)
    by (repeat split; assumption).
  revert Halive. generalize (List.length (w_particles (s_world s))).
  clear Hrun Hall. revert s.
  unfold run. induction es as [|e es IH]; intros s n Halive;
    [reflexivity|].
  cbn [fold_left].
  rewrite (IH (step random s e) n (step_pool_alive random e Halive)).
  rewrite (pointer_after_step e es).
  rewrite <- (step_pointer random e Halive). reflexivity.
Qed.

Lemma pointer_follows_pointer_events_touch :
  let s' := @run float float_arith poly_trig demo_random
                 [MouseMove 100 50; Frame; TouchEnd;
                  MoodClick (Some "energy"); Frame]%float
                 (mkSession two_blobs true 0) in
  (m_isActive (w_mouse (s_world s')), w_targetMouse (s_world s'))
  = (false, (100, 50)%float).
Proof.
  exact (@pointer_follows_pointer_events float float_arith poly_trig
           demo_random
           [MouseMove 100 50; Frame; TouchEnd; MoodClick (Some "energy");
            Frame]%float
           (mkSession two_blobs true 0) eq_refl two_blobs_non_null).
Defined.

(** ** The mood over a run of events *)

Section MoodEvents.
Context {num : Type} `{Arith num} `{Trig num}.
Variable random : nat -> num.

Lemma step_mood (n : nat) (s : Session num) (e : Event num) :
  pool_alive n s ->
  (w_currentPalette (s_world (step random s e)),
   w_background (s_world (step random s e)))
  = mood_after [e] (w_currentPalette (s_world s))
               (w_background (s_world s)).
Proof.
  intros (Hrun & Hall & Hlen).
  destruct e as [iw ih|cx cy|cx cy| |mood|];
    cbn [step dispatch s_world mood_after]; try reflexivity.
  - destruct (setMood_keeps_pointer random (mood_key mood) (s_world s))
      as (_ & _ & Hp & Hb).
    destruct (setMood random (mood_key mood) (s_world s));
      cbn [state_of s_world] in *; rewrite Hp, Hb;
      destruct (palette_get (mood_key mood)); reflexivity.
  - rewrite Hrun.
    destruct (animate_shape (s_world s) Hall) as (ps' & -> & _).
    reflexivity.
Qed.

Lemma mood_after_step (e : Event num) (es : list (Event num))
      (ref : PaletteRef) (background : string) :
  mood_after (e :: es) ref background
  = mood_after es (fst (mood_after [e] ref background))
               (snd (mood_after [e] ref background)).
Proof.
  destruct e; try reflexivity. cbn [mood_after].
  destruct (palette_get (mood_key mood)); reflexivity.
Qed.
End MoodEvents.

(** X16: the page shows the mood of the last effective click: after any
    sequence of events the current palette is what [PALETTES[key]] found
    for the last clicked key for which it found something, and the
    background is that of the last clicked key of the registry; a key for
    which [PALETTES[key]] is [undefined] changes neither, a key that
    [PALETTES] only inherits replaces the palette and keeps the
    background; pointer events, resizes and frames change neither. *)
Theorem mood_follows_clicks {num : Type} `{Arith num} `{Trig num}
        (random : nat -> num) (es : list (Event num)) (s : Session num) :
  s_running s = true -> Forall non_null (w_particles (s_world s)) ->
  let s' := run random es s in
  (w_currentPalette (s_world s'), w_background (s_world s'))
  = mood_after es (w_currentPalette (s_world s)) (w_background (s_world s)).
Proof.
  intros Hrun Hall s'. subst s'.
  assert (Halive : pool_alive (List.length (w_particles (s_world s))) s)
    by (repeat split; assumption).
  revert Halive. generalize (List.length (w_particles (s_world s))).
  clear Hrun Hall. revert s.
  unfold run. induction es as [|e es IH]; intros s n Halive;
    [reflexivity|].
  cbn [fold_left].
  rewrite (IH (step random s e) n (step_pool_alive random e Halive)).
  rewrite (mood_after_step e es).
  rewrite <- (step_mood random e Halive). reflexivity.
Qed.

Lemma mood_follows_clicks_energy :
  let s' := @run float float_arith poly_trig demo_random
                 [MoodClick (Some "energy"); Frame; MoodClick (Some "calm");
                  MouseMove 10 10; MoodClick (Some "toString"); Frame]%float
                 (mkSession two_blobs true 0) in
  (w_currentPalette (s_world s'), w_background (s_world s'))
  = (Inherited "toString", "#1a0505").
Proof.
  exact (@mood_follows_clicks float float_arith poly_trig demo_random
           [MoodClick (Some "energy"); Frame; MoodClick (Some "calm");
            MouseMove 10 10; MoodClick (Some "toString"); Frame]%float
           (mkSession two_blobs true 0) eq_refl two_blobs_non_null).
Defined.

(** ** The page chrome *)

Lemma SFltb_300_50 (y : spec_float) :
  SFltb sf_300 y = true -> SFltb sf_fifty y = true.
Proof.
  unfold SFltb, sf_300, sf_fifty.
  destruct y as [s|s| |s m e]; cbn [SFcompare]; try discriminate.
  - destruct s; [discriminate|reflexivity].
  - destruct s; [discriminate|].
    destruct (Z.compare_spec (-44) e) as [He|He|He]; try discriminate.
    + subst e. intros _. reflexivity.
    + intros _. replace (-47 ?= e)%Z with Lt; [reflexivity|].
      symmetry. apply Z.compare_lt_iff. lia.
Qed.

Lemma on_scroll_consistent (scrollY : float) (c : Chrome) :
  scroll_consistent (on_scroll scrollY c).
Proof.
  unfold scroll_consistent, on_scroll.
  cbn [backToTop_visible navbar_scrolled].
  rewrite !ltb_spec. apply SFltb_300_50.
Qed.

(** X17: the back-to-top button is shown only under a scrolled navigation
    bar: every scroll event leaves it so ([scrollY > 300] implies
    [scrollY > 50], and neither holds of [NaN]), and no click on the menu
    changes either class, so it holds after any sequence of events that
    starts from a state where it holds. *)
Theorem back_to_top_only_when_scrolled (es : list ChromeEvent) (c : Chrome) :
  scroll_consistent c ->
  scroll_consistent (chrome_run es c)
  /\ forall scrollY, scroll_consistent (chrome_run es (on_scroll scrollY c)).
Proof.
  intros Hs.
  assert (Hgen : forall es c, scroll_consistent c ->
                              scroll_consistent (chrome_run es c)).
  { clear. unfold chrome_run.
    induction es as [|e es IH]; intros c Hs; [exact Hs|].
    cbn [fold_left]. apply IH. destruct e as [y| |]; cbn [chrome_step].
    - apply on_scroll_consistent.
    - exact Hs.
    - exact Hs. }
  split; [apply Hgen; exact Hs|].
  intros y. apply Hgen, on_scroll_consistent.
Qed.

Lemma back_to_top_only_when_scrolled_demo :
  scroll_consistent
    (chrome_run [Scroll 320; HamburgerClick; Scroll 40; NavLinkClick]%float
                (mkChrome false false false false "")).
Proof.
  apply (@back_to_top_only_when_scrolled
           [Scroll 320; HamburgerClick; Scroll 40; NavLinkClick]%float
           (mkChrome false false false false "")).
  intros Hv. discriminate Hv.
Defined.

(** X18: the page scrolls exactly while the mobile menu is closed: from a
    state where the body's overflow is ["hidden"] or [""] as the menu is
    open or closed, and the hamburger and the menu are both open or both
    closed, any sequence of events leaves it so; and a click on a link of
    the menu closes it, whatever the state. *)
Theorem menu_locks_scroll_while_open (es : list ChromeEvent) (c : Chrome) :
  menu_consistent c ->
  menu_consistent (chrome_run es c)
  /\ (forall c0, menu_consistent (on_nav_link_click c0)
                 /\ navLinks_active (on_nav_link_click c0) = false)
  /\ on_hamburger_click (on_hamburger_click c) = c.
Proof.
  intros Hm. split; [|split].
  - revert c Hm. unfold chrome_run.
    induction es as [|e es IH]; intros c [Ho Ha]; [split; assumption|].
    cbn [fold_left]. apply IH. destruct e as [y| |]; cbn [chrome_step].
    + split; assumption.
    + unfold on_hamburger_click.
      cbn [body_overflow navLinks_active hamburger_active].
      rewrite Ha. split; reflexivity.
    + split; reflexivity.
  - intros c0. split; [split; reflexivity|reflexivity].
  - destruct Hm as [Ho Ha]. destruct c as [sc vi ha na ov].
    cbn in Ho, Ha. subst. unfold on_hamburger_click. cbn.
    rewrite !negb_involutive. destruct na; reflexivity.
Qed.

Lemma menu_locks_scroll_while_open_demo :
  menu_consistent
    (chrome_run [HamburgerClick; Scroll 120; HamburgerClick; HamburgerClick]%float
                (mkChrome false false false false "")).
Proof.
  apply (@menu_locks_scroll_while_open
           [HamburgerClick; Scroll 120; HamburgerClick; HamburgerClick]%float
           (mkChrome false false false false "")).
  split; reflexivity.
Defined.

Lemma current_section_snoc (y : float) (secs : list PageSection)
      (s : PageSection) :
  current_section y (secs ++ [s])
  = if section_holds y s then String "#" (sec_id s) else current_section y secs.
Proof. unfold current_section. rewrite fold_left_app. reflexivity. Qed.

(** X19: the highlight of the menu follows the last section in document
    order that holds the scroll position (from 100 pixels above its top to
    its height below that): [current] is [#] and that section's id, or
    empty when no section holds the position; after the listener a link is
    active exactly when its [href] is that string, whatever it was before,
    so a link without [href] never is. *)
Theorem highlight_marks_last_section (pageYOffset : float)
        (sections : list PageSection) (links : list NavLink) :
  current_section pageYOffset sections
  = match find (section_holds pageYOffset) (rev sections) with
    | Some s => String "#" (sec_id s)
    | None => ""
    end
  /\ map link_href (highlight pageYOffset sections links)
     = map link_href links
  /\ Forall (fun l => link_active l = true
                      <-> link_href l
                          = Some (current_section pageYOffset sections))
            (highlight pageYOffset sections links).
Proof.
  repeat apply conj.
  - induction sections as [|s secs IH] using rev_ind; [reflexivity|].
    rewrite current_section_snoc, rev_app_distr. cbn [rev app find].
    destruct (section_holds pageYOffset s); [reflexivity|exact IH].
  - unfold highlight. rewrite map_map. reflexivity.
  - unfold highlight. apply Forall_forall. intros l Hin.
    apply in_map_iff in Hin. destruct Hin as (l0 & <- & _).
    cbn [link_active link_href].
    destruct (link_href l0) as [h|].
    + rewrite String.eqb_eq. split; [intros ->; reflexivity|].
      intros Heq. inversion Heq. reflexivity.
    + split; discriminate.
Qed.

Lemma highlight_marks_last_section_about :
  current_section 800 demo_sections = "#about"
  /\ map link_active (highlight 800 demo_sections demo_links)
     = [false; true; false; false].
Proof.
  destruct (highlight_marks_last_section 800 demo_sections demo_links)
    as (Hcur & _).
  rewrite Hcur. vm_compute. split; reflexivity.
Defined.
